(** * proglog: the segmented, offset-addressed commit log

    A shallow embedding of package [log] (internal/log: store.go,
    index.go, segment.go, log.go) and the properties of its append, read
    and truncate paths.

    Conventions.
    - Go's [uint64], [uint32] and [int64] are [Z] with the wrap-around of
      every operation written out ([uint64], [uint32], [int64] below).
    - A Go call returning [(v, err)] returns the pair [(v, err)] here,
      with [err : option error] and [None] for [nil]; the updated
      receiver comes first.  A run-time panic is the error [Panic].
    - The log holds pointers to its segments: they are addresses into
      the memory [Log.mem], so that [activeSegment] and the elements of
      [segments] can name the same segment, as they do in the source.
    - An [*os.File] carries the bytes of the file it has open; the
      directory ([disk]) maps the names to the bytes last persisted, and
      is what [setup] lists and [newSegment] opens.
    - The only failure of the environment that is modelled is a write of
      the buffered writer being refused by the device: the flag [dev] of
      a write says whether the device takes the bytes the writer hands
      it during the call.  Opening and stat-ing files succeed, and every
      method runs alone (the mutexes are not modelled). *)

From Stdlib Require Import ZArith Lia Strings.Byte.
From stdpp Require Import base option list strings gmap pretty sorting.

Local Open Scope Z_scope.

(** ** Machine integers and bytes *)

Definition uint64 (z : Z) : Z := z mod 2 ^ 64.
Definition uint32 (z : Z) : Z := z mod 2 ^ 32.

(** Conversion of a 64-bit pattern to Go's signed [int64]. *)
Definition int64 (z : Z) : Z :=
  if uint64 z <? 2 ^ 63 then uint64 z else uint64 z - 2 ^ 64.

Definition len {A} (l : list A) : Z := Z.of_nat (length l).

(** Go's [byte(v)]: the low eight bits. *)
Definition byte_of_Z (z : Z) : byte :=
  default x00 (Byte.of_N (Z.to_N (z mod 256))).

Definition Z_of_byte (b : byte) : Z := Z.of_N (Byte.to_N b).

(** [l[a:b]]; [None] stands for the run-time panic of a slice out of
    range. *)
Definition slice (l : list byte) (a b : Z) : option (list byte) :=
  if (0 <=? a) && (a <=? b) && (b <=? len l)
  then Some (take (Z.to_nat (b - a)) (drop (Z.to_nat a) l))
  else None.

(** [copy(l[a:], bs)] for a [bs] that fits. *)
Definition overwrite (l : list byte) (a : Z) (bs : list byte) : list byte :=
  take (Z.to_nat a) l ++ bs ++ drop (Z.to_nat a + length bs) l.

(** Growing or cutting a file to [n] bytes, as [truncate(2)] does. *)
Definition resize (n : Z) (l : list byte) : list byte :=
  take (Z.to_nat n) l ++ replicate (Z.to_nat n - length l) x00.

(** ** encoding/binary, big endian ([enc = binary.BigEndian]) *)

Module enc.

(** The [n] low bytes of [v], most significant first:
    [b[0] = byte(v >> 8(n-1)); ...; b[n-1] = byte(v)]. *)
Fixpoint PutUint (n : nat) (v : Z) : list byte :=
  match n with
  | O => []
  | S k => byte_of_Z (Z.shiftr v (8 * Z.of_nat k)) :: PutUint k v
  end.

(** [b[n-1] | b[n-2]<<8 | ... | b[0]<<8(n-1)]. *)
Definition Uint (b : list byte) : Z :=
  fold_left (fun acc x => Z.lor (Z.shiftl acc 8) (Z_of_byte x)) b 0.

Definition PutUint32 (v : Z) : list byte := PutUint 4 v.
Definition PutUint64 (v : Z) : list byte := PutUint 8 v.
Definition Uint32 (b : list byte) : Z := Uint b.
Definition Uint64 (b : list byte) : Z := Uint b.

End enc.

Definition lenWidth : Z := 8.
Definition offWidth : Z := 4.
Definition posWidth : Z := 8.
Definition entWidth : Z := offWidth + posWidth.

(** ** Errors *)

Inductive error : Type :=
| EOF                        (* io.EOF *)
| ErrorString (msg : string) (* fmt.Errorf *)
| ErrClosed                  (* os.ErrClosed *)
| ErrNegativeOffset          (* os: negative offset *)
| EINVAL                     (* syscall.EINVAL *)
| ENOENT                     (* syscall.ENOENT *)
| ErrDevice                  (* the device refused a write *)
| ErrCodec                   (* an error of proto.Marshal / Unmarshal *)
| Panic (msg : string).      (* a run-time panic unwinding the call *)

Global Instance error_eq_dec : EqDecision error.
Proof. solve_decision. Defined.

(** ** os.File and bufio.Writer *)

Record File : Type := mkFile {
  Name : string;
  data : list byte;
  closed : bool
}.

(** The files of the log's directory, by name. *)
Abbreviation disk := (gmap string (list byte)).

Module os.

(** [os.OpenFile(name, O_RDWR|O_CREATE..., 0644)]. *)
Definition OpenFile (d : disk) (name : string) : disk * File :=
  match d !! name with
  | Some bs => (d, mkFile name bs false)
  | None => (<[name := []]> d, mkFile name [] false)
  end.

(** [f.ReadAt(b, off)] with [n = len(b)]; the bytes read come back. *)
Definition ReadAt (f : File) (n : Z) (off : Z) : list byte * option error :=
  if off <? 0 then ([], Some ErrNegativeOffset)
  else if n =? 0 then ([], None)
  else if closed f then ([], Some ErrClosed)
  else match slice (data f) off (off + n) with
       | Some bs => (bs, None)
       | None => ([], Some EOF)
       end.

(** [f.ReadAt(b, off)] for a caller that uses the count: the bytes read
    before the end of the file come back with [io.EOF] when they are
    fewer than [n = len(b)]. *)
Definition ReadAt_short (f : File) (n : Z) (off : Z) : list byte * option error :=
  if off <? 0 then ([], Some ErrNegativeOffset)
  else if n =? 0 then ([], None)
  else if closed f then ([], Some ErrClosed)
  else
    let bs := take (Z.to_nat n) (drop (Z.to_nat off) (data f)) in
    (bs, if len bs <? n then Some EOF else None).

(** [os.Remove(name)]. *)
Definition Remove (d : disk) (name : string) : disk * option error :=
  match d !! name with
  | Some _ => (delete name d, None)
  | None => (d, Some ENOENT)
  end.

End os.

Module bufio.

(** Why a writer has failed: the device refused its bytes, or its file
    was closed. *)
Inductive failure : Type := Refused | Closed.

Definition error_of (f : failure) : error :=
  match f with Refused => ErrDevice | Closed => ErrClosed end.

Record Writer : Type := mkWriter {
  pending : list byte;     (* bytes accepted and not yet in the file *)
  err : option failure     (* the writer's sticky error *)
}.

Definition NewWriter : Writer := mkWriter [] None.

(** [w.Write(p)]: [dev] tells whether the device takes what the writer
    hands it during the call. *)
Definition Write (dev : bool) (w : Writer) (p : list byte)
  : Writer * (Z * option error) :=
  match err w with
  | Some e => (w, (0, Some (error_of e)))
  | None =>
      if dev then (mkWriter (pending w ++ p) None, (len p, None))
      else (mkWriter (pending w) (Some Refused), (0, Some ErrDevice))
  end.

(** [w.Flush()] on a file opened with [O_APPEND]: [dev] tells whether
    the device takes the pending bytes that the writer hands it; bytes
    that are refused stay in the writer, which keeps the error. *)
Definition Flush (dev : bool) (w : Writer) (f : File)
  : Writer * File * option error :=
  match err w with
  | Some e => (w, f, Some (error_of e))
  | None =>
      match pending w with
      | [] => (w, f, None)
      | _ =>
          if closed f then (mkWriter (pending w) (Some Closed), f, Some ErrClosed)
          else if dev
          then (mkWriter [] None,
                mkFile (Name f) (data f ++ pending w) (closed f), None)
          else (mkWriter (pending w) (Some Refused), f, Some ErrDevice)
      end
  end.

End bufio.

(** [binary.Write(w, enc, uint64(v))]. *)
Definition binary_Write (dev : bool) (w : bufio.Writer) (v : Z)
  : bufio.Writer * option error :=
  let '(w', (_, e)) := bufio.Write dev w (enc.PutUint64 v) in (w', e).

(** ** store *)

Module store.

Record t : Type := mk {
  File_ : File;
  size : Z;
  buf : bufio.Writer
}.

Definition newStore (f : File) : t :=
  mk f (uint64 (len (data f))) bufio.NewWriter.

(** [Append] persists the given bytes to the store. *)
Definition Append (dev_len dev_data : bool) (s : t) (toPersist : list byte)
  : t * (Z * Z * option error) :=
  let pos := size s in
  match binary_Write dev_len (buf s) (uint64 (len toPersist)) with
  | (b1, Some e) => (mk (File_ s) (size s) b1, (0, 0, Some e))
  | (b1, None) =>
      match bufio.Write dev_data b1 toPersist with
      | (b2, (_, Some e)) => (mk (File_ s) (size s) b2, (0, 0, Some e))
      | (b2, (numBytes, None)) =>
          let numBytes := numBytes + lenWidth in
          (mk (File_ s) (uint64 (size s + uint64 numBytes)) b2,
           (uint64 numBytes, pos, None))
      end
  end.

(** [Read] flushes the writer, reads the 8 bytes of the length at [pos]
    and then the record that follows them; [dev] tells whether the
    device takes the bytes flushed. *)
Definition Read (dev : bool) (s : t) (pos : Z)
  : t * (list byte * option error) :=
  match bufio.Flush dev (buf s) (File_ s) with
  | (b, f, Some e) => (mk f (size s) b, ([], Some e))
  | (b, f, None) =>
      let s' := mk f (size s) b in
      match os.ReadAt f lenWidth (int64 pos) with
      | (_, Some e) => (s', ([], Some e))
      | (sz, None) =>
          if 2 ^ 63 <=? enc.Uint64 sz
          then (s', ([], Some (Panic "makeslice: len out of range")))
          else
            match os.ReadAt f (enc.Uint64 sz) (int64 (uint64 (pos + lenWidth))) with
            | (_, Some e) => (s', ([], Some e))
            | (bytes, None) => (s', (bytes, None))
            end
      end
  end.

(** [ReadAt] reads [n = len(p)] bytes beginning at the offset [off] in
    the store's file; the count it returns is the length of the bytes. *)
Definition ReadAt (dev : bool) (s : t) (n : Z) (off : Z)
  : t * (list byte * option error) :=
  match bufio.Flush dev (buf s) (File_ s) with
  | (b, f, Some e) => (mk f (size s) b, ([], Some e))
  | (b, f, None) => (mk f (size s) b, os.ReadAt_short f n off)
  end.

(** [Close] persists any buffered data before closing the file. *)
Definition Close (dev : bool) (d : disk) (s : t) : disk * t * option error :=
  match bufio.Flush dev (buf s) (File_ s) with
  | (b, f, Some e) => (d, mk f (size s) b, Some e)
  | (b, f, None) =>
      if closed f then (d, mk f (size s) b, Some ErrClosed)
      else (<[Name f := data f]> d,
            mk (mkFile (Name f) (data f) true) (size s) b, None)
  end.

Definition Name_ (s : t) : string := Name (File_ s).

End store.

(** ** index *)

Module index.

Record t : Type := mk {
  file : File;
  mmap : list byte;
  size : Z
}.

(** [newIndex] creates an index for the given file: the size of the file
    is saved, the file is grown to [MaxIndexBytes] and memory-mapped. *)
Definition newIndex (d : disk) (f : File) (MaxIndexBytes : Z)
  : disk * option t * option error :=
  let size := uint64 (len (data f)) in
  if int64 MaxIndexBytes <? 0 then (d, None, Some EINVAL)
  else
    let bytes := resize (int64 MaxIndexBytes) (data f) in
    let d' := <[Name f := bytes]> d in
    if int64 MaxIndexBytes =? 0 then (d', None, Some EINVAL)
    else (d', Some (mk (mkFile (Name f) bytes false) bytes size), None).

(** [Read] takes in an offset relative to the segment's base offset and
    returns the associated record's position in the store. *)
Definition Read (i : t) (in_ : Z) : Z * Z * option error :=
  if size i =? 0 then (0, 0, Some EOF)
  else
    let out :=
      if in_ =? -1 then uint32 (uint64 (size i / entWidth - 1))
      else uint32 in_ in
    let pos := uint64 (out * entWidth) in
    if size i <? uint64 (pos + entWidth) then (0, 0, Some EOF)
    else
      match slice (mmap i) pos (uint64 (pos + offWidth)),
            slice (mmap i) (uint64 (pos + offWidth)) (uint64 (pos + entWidth)) with
      | Some bo, Some bp => (enc.Uint32 bo, enc.Uint64 bp, None)
      | _, _ => (0, 0, Some (Panic "slice bounds out of range"))
      end.

(** [Write] appends the given offset and position to the index. *)
Definition Write (i : t) (off pos : Z) : t * option error :=
  if uint64 (len (mmap i)) <? uint64 (size i + entWidth) then (i, Some EOF)
  else
    match slice (mmap i) (size i) (uint64 (size i + offWidth)),
          slice (mmap i) (uint64 (size i + offWidth)) (uint64 (size i + entWidth)) with
    | Some _, Some _ =>
        let m1 := overwrite (mmap i) (size i) (enc.PutUint32 off) in
        let m2 := overwrite m1 (uint64 (size i + offWidth)) (enc.PutUint64 pos) in
        (mk (file i) m2 (uint64 (size i + uint64 entWidth)), None)
    | _, _ => (i, Some (Panic "slice bounds out of range"))
    end.

(** [Close] syncs the mapping and the file, truncates the file to the
    bytes that are in use and closes it. *)
Definition Close (d : disk) (i : t) : disk * t * option error :=
  if closed (file i) then (d, i, Some ErrClosed)
  else if int64 (size i) <? 0 then (<[Name (file i) := mmap i]> d, i, Some EINVAL)
  else
    let bytes := resize (int64 (size i)) (mmap i) in
    (<[Name (file i) := bytes]> d,
     mk (mkFile (Name (file i)) bytes true) (mmap i) (size i), None).

Definition Name_ (i : t) : string := Name (file i).

End index.

(** ** Records, their serialization, and the configuration *)

Module api.

(** Modelled from the spec: the generated [api.Record] (package api/v1):
    an opaque payload and an assignable 64-bit offset. *)
Record Record_ : Type := mk {
  Value : list byte;
  Offset : Z
}.

End api.

(** [proto.Marshal] and [proto.Unmarshal] on [api.Record], supplied by
    the collaborator. *)
Class Codec : Type := {
  (* the bytes, or [None] for an error *)
  Marshal : api.Record_ -> option (list byte);
  (* the record as filled in, and whether the bytes were well formed *)
  Unmarshal : list byte -> api.Record_ * bool
}.

(** The serialization is reversible, for an offset that is a [uint64]
    and bytes that fit a slice. *)
Class CodecLaws (C : Codec) : Prop := {
  Unmarshal_Marshal :
    forall r bs,
      0 <= api.Offset r < 2 ^ 64 ->
      Marshal r = Some bs ->
      len bs < 2 ^ 63 ->
      Unmarshal bs = (r, true)
}.

(** Modelled from the spec: [Config] (its declaration is not among the
    sources), the three options of [Config.Segment]. *)
Record Config : Type := mkConfig {
  MaxStoreBytes : Z;
  MaxIndexBytes : Z;
  InitialOffset : Z
}.

(** ** segment *)

Module segment.

Record t : Type := mk {
  store_ : store.t;
  index_ : index.t;
  baseOffset : Z;
  nextOffset : Z;
  config : Config
}.

(** [newSegment] opens (or creates) the store and the index file named
    after the base offset and derives the next offset from the last
    index entry. *)
Definition newSegment (d : disk) (baseOffset : Z) (c : Config)
  : disk * option t * option error :=
  let '(d1, storeFile) := os.OpenFile d (pretty baseOffset +:+ ".store") in
  let st := store.newStore storeFile in
  let '(d2, indexFile) := os.OpenFile d1 (pretty baseOffset +:+ ".index") in
  match index.newIndex d2 indexFile (MaxIndexBytes c) with
  | (d3, Some idx, None) =>
      match index.Read idx (-1) with
      | (_, _, Some (Panic m)) => (d3, None, Some (Panic m))
      | (_, _, Some _) => (d3, Some (mk st idx baseOffset baseOffset c), None)
      | (off, _, None) =>
          (d3, Some (mk st idx baseOffset (uint64 (baseOffset + off + 1)) c), None)
      end
  | (d3, _, e) => (d3, None, e)
  end.

Section WithCodec.
Context {codec : Codec}.

(** [Append] writes the record to the segment and returns the newly
    appended record's offset.  The record comes back with its offset
    field assigned. *)
Definition Append (dev_len dev_data : bool) (s : t) (record : api.Record_)
  : t * api.Record_ * (Z * option error) :=
  let currOffset := nextOffset s in
  let record := api.mk (api.Value record) currOffset in
  match Marshal record with
  | None => (s, record, (0, Some ErrCodec))
  | Some bytes =>
      match store.Append dev_len dev_data (store_ s) bytes with
      | (st, (_, _, Some _)) =>
          (mk st (index_ s) (baseOffset s) (nextOffset s) (config s),
           record, (0, None))
      | (st, (_, pos, None)) =>
          let relativeOffset := uint32 (uint64 (nextOffset s - baseOffset s)) in
          match index.Write (index_ s) relativeOffset pos with
          | (idx, Some e) =>
              (mk st idx (baseOffset s) (nextOffset s) (config s),
               record, (0, Some e))
          | (idx, None) =>
              (mk st idx (baseOffset s) (uint64 (nextOffset s + 1)) (config s),
               record, (currOffset, None))
          end
      end
  end.

(** [Read] returns the record for the given offset. *)
Definition Read (dev : bool) (s : t) (off : Z)
  : t * (option api.Record_ * option error) :=
  let relativeOffset := int64 (uint64 (off - baseOffset s)) in
  match index.Read (index_ s) relativeOffset with
  | (_, _, Some e) => (s, (None, Some e))
  | (_, pos, None) =>
      match store.Read dev (store_ s) pos with
      | (st, (_, Some e)) =>
          (mk st (index_ s) (baseOffset s) (nextOffset s) (config s),
           (None, Some e))
      | (st, (bytes, None)) =>
          let '(record, ok) := Unmarshal bytes in
          (mk st (index_ s) (baseOffset s) (nextOffset s) (config s),
           (Some record, if ok then None else Some ErrCodec))
      end
  end.

End WithCodec.

(** [IsMaxed] returns whether the segment has reached its max size. *)
Definition IsMaxed (s : t) : bool :=
  let isStoreMaxed := MaxStoreBytes (config s) <=? store.size (store_ s) in
  let isIndexMaxed := MaxIndexBytes (config s) <=? index.size (index_ s) in
  isStoreMaxed || isIndexMaxed.

Definition Close (dev : bool) (d : disk) (s : t) : disk * t * option error :=
  match index.Close d (index_ s) with
  | (d1, idx, Some e) =>
      (d1, mk (store_ s) idx (baseOffset s) (nextOffset s) (config s), Some e)
  | (d1, idx, None) =>
      match store.Close dev d1 (store_ s) with
      | (d2, st, e) =>
          (d2, mk st idx (baseOffset s) (nextOffset s) (config s), e)
      end
  end.

(** [Remove] closes the segment and removes the index and store files. *)
Definition Remove (dev : bool) (d : disk) (s : t) : disk * t * option error :=
  match Close dev d s with
  | (d1, s1, Some e) => (d1, s1, Some e)
  | (d1, s1, None) =>
      match os.Remove d1 (index.Name_ (index_ s1)) with
      | (d2, Some e) => (d2, s1, Some e)
      | (d2, None) =>
          match os.Remove d2 (store.Name_ (store_ s1)) with
          | (d3, e) => (d3, s1, e)
          end
      end
  end.

(** [nearestMultiple] returns the nearest and lesser multiple of [k] in
    [j]; dividing by zero panics. *)
Definition nearestMultiple (j k : Z) : Z * option error :=
  if k =? 0 then (0, Some (Panic "integer divide by zero"))
  else if 0 <=? j then (uint64 (j / k * k), None)
  else (uint64 (uint64 (uint64 (j - k) + 1) / k * k), None).

End segment.

(** ** Directory names: path.Ext, strings.TrimSuffix, strconv.ParseUint *)

(** The suffix of [s] that starts at its last dot, if there is a dot. *)
Fixpoint last_dot (s : string) : option string :=
  match s with
  | EmptyString => None
  | String c rest =>
      match last_dot rest with
      | Some e => Some e
      | None => if Ascii.eqb c (Ascii.ascii_of_nat 46) then Some s else None
      end
  end.

Definition Ext (name : string) : string := default EmptyString (last_dot name).

Definition TrimSuffix (s suffix : string) : string :=
  let n := (String.length s - String.length suffix)%nat in
  if (String.length suffix <=? String.length s)%nat
     && String.eqb (String.substring n (String.length suffix) s) suffix
  then String.substring 0 n s
  else s.

(** The loop of [strconv.ParseUint(s, 10, 0)] with the error dropped, as
    [setup] drops it: 0 after a syntax error, the largest [uint64] after
    a range error. *)
Fixpoint ParseUint_loop (s : string) (n : Z) : Z :=
  match s with
  | EmptyString => n
  | String c rest =>
      let d := Z.of_nat (Ascii.nat_of_ascii c) - 48 in
      if (0 <=? d) && (d <=? 9) then
        if (2 ^ 64 - 1) / 10 + 1 <=? n then 2 ^ 64 - 1
        else
          let n1 := n * 10 + d in
          if 2 ^ 64 - 1 <? n1 then 2 ^ 64 - 1 else ParseUint_loop rest n1
      else 0
  end.

Definition ParseUint (s : string) : Z := ParseUint_loop s 0.

(** ** io.Reader and io.MultiReader *)

Module io.

(** [io.Reader]: [Read(p)] with [n = len(p)] on a reader of type [R],
    in a state of type [S] that the reader shares with others; the bytes
    read come back, their length is the count. *)
Class Reader (S R : Type) : Type :=
  Read : S -> R -> Z -> S * R * (list byte * option error).


End io.

(** ** Log *)

Module Log.

(** A [*segment]: the address of a segment in the memory [mem]. *)
Definition ptr : Type := nat.

Record t : Type := mk {
  Dir : string;
  Config_ : Config;
  activeSegment : option ptr;
  segments : list ptr
}.

(** What the log operates on: the segments allocated so far, by address,
    and the files of the directory [Dir]. *)
Record world : Type := mkWorld {
  mem : list segment.t;
  files : disk
}.

(** [lg.newSegment] creates a new segment, appends it to the log's slice
    of segments, and makes the new segment the active one. *)
Definition newSegment (w : world) (lg : t) (offset : Z)
  : world * t * option error :=
  match segment.newSegment (files w) offset (Config_ lg) with
  | (d, Some seg, None) =>
      let p := length (mem w) in
      (mkWorld (mem w ++ [seg]) d,
       mk (Dir lg) (Config_ lg) (Some p) (segments lg ++ [p]), None)
  | (d, _, e) => (mkWorld (mem w) d, lg, e)
  end.

(** The loop [for i := 0; i < len(baseOffsets); i += 2]. *)
Fixpoint setup_loop (baseOffsets : list Z) (w : world) (lg : t)
  : world * t * option error :=
  match baseOffsets with
  | [] => (w, lg, None)
  | off :: rest =>
      match newSegment w lg off with
      | (w1, lg1, Some e) => (w1, lg1, Some e)
      | (w1, lg1, None) =>
          match rest with
          | [] => (w1, lg1, None)
          | _ :: rest => setup_loop rest w1 lg1
          end
      end
  end.

(** [setup] sets the log up for the segments that exist on disk or, if
    there are none, bootstraps the initial segment.  The order in which
    the directory is listed is immaterial: the base offsets are sorted. *)
Definition setup (w : world) (lg : t) : world * t * option error :=
  let names := (map_to_list (files w)).*1 in
  let baseOffsets := (fun name => ParseUint (TrimSuffix name (Ext name))) <$> names in
  let baseOffsets := merge_sort Z.le baseOffsets in
  match setup_loop baseOffsets w lg with
  | (w1, lg1, Some e) => (w1, lg1, Some e)
  | (w1, lg1, None) =>
      match segments lg1 with
      | [] => newSegment w1 lg1 (InitialOffset (Config_ lg1))
      | _ => (w1, lg1, None)
      end
  end.

(** [NewLog] sets the defaults of the configuration and sets up a log. *)
Definition NewLog (w : world) (dir : string) (c : Config)
  : world * t * option error :=
  let c := mkConfig (if MaxStoreBytes c =? 0 then 1024 else MaxStoreBytes c)
                    (MaxIndexBytes c) (InitialOffset c) in
  let c := mkConfig (MaxStoreBytes c)
                    (if MaxIndexBytes c =? 0 then 1024 else MaxIndexBytes c)
                    (InitialOffset c) in
  setup w (mk dir c None []).

(** The segment a pointer of the log refers to. *)
Definition deref (w : world) (p : ptr) : option segment.t := mem w !! p.

Definition set (w : world) (p : ptr) (s : segment.t) : world :=
  mkWorld (<[p := s]> (mem w)) (files w).

Section WithCodec.
Context {codec : Codec}.

(** [Append] appends a record to the log. *)
Definition Append (dev_len dev_data : bool) (w : world) (lg : t)
    (record : api.Record_)
  : world * t * api.Record_ * (Z * option error) :=
  match activeSegment lg with
  | None => (w, lg, record, (0, Some (Panic "nil pointer dereference")))
  | Some p =>
      match deref w p with
      | None => (w, lg, record, (0, Some (Panic "nil pointer dereference")))
      | Some seg =>
          match segment.Append dev_len dev_data seg record with
          | (seg1, record, (_, Some e)) =>
              (set w p seg1, lg, record, (0, Some e))
          | (seg1, record, (offset, None)) =>
              let w1 := set w p seg1 in
              if segment.IsMaxed seg1 then
                match newSegment w1 lg (uint64 (offset + 1)) with
                | (w2, lg2, e) => (w2, lg2, record, (offset, e))
                end
              else (w1, lg, record, (offset, None))
          end
      end
  end.

(** The loop of [Read]: the last segment of the list that covers the
    offset. *)
Definition find (w : world) (lg : t) (offset : Z) : option ptr :=
  foldl (fun s p =>
           match deref w p with
           | Some seg =>
               if (segment.baseOffset seg <=? offset)
                  && (offset <? segment.nextOffset seg)
               then Some p else s
           | None => s
           end) None (segments lg).

Definition outOfRange (offset : Z) : error :=
  ErrorString ("offset out of range: " +:+ pretty offset).

(** [Read] reads the record stored at the given offset. *)
Definition Read (dev : bool) (w : world) (lg : t) (offset : Z)
  : world * (option api.Record_ * option error) :=
  match find w lg offset with
  | None => (w, (None, Some (outOfRange offset)))
  | Some p =>
      match deref w p with
      | None => (w, (None, Some (Panic "nil pointer dereference")))
      | Some seg =>
          if segment.nextOffset seg <=? offset
          then (w, (None, Some (outOfRange offset)))
          else
            let '(seg1, r) := segment.Read dev seg offset in
            (set w p seg1, r)
      end
  end.

End WithCodec.

(** [LowestOffset] returns the lower bound of the offset range. *)
Definition LowestOffset (w : world) (lg : t) : Z * option error :=
  match head (segments lg) ≫= deref w with
  | Some seg => (segment.baseOffset seg, None)
  | None => (0, Some (Panic "index out of range"))
  end.

(** [HighestOffset] returns the upper bound of the offset range. *)
Definition HighestOffset (w : world) (lg : t) : Z * option error :=
  match last (segments lg) ≫= deref w with
  | Some seg =>
      let offset := segment.nextOffset seg in
      if offset =? 0 then (0, None) else (uint64 (offset - 1), None)
  | None => (0, Some (Panic "index out of range"))
  end.

(** The loop of [Truncate]: [kept] is the local slice [segments]. *)
Fixpoint Truncate_loop (dev : bool) (lowest : Z) (ps : list ptr)
    (kept : list ptr) (w : world) : world * list ptr * option error :=
  match ps with
  | [] => (w, kept, None)
  | p :: rest =>
      match deref w p with
      | None => (w, kept, Some (Panic "nil pointer dereference"))
      | Some s =>
          if segment.nextOffset s <=? uint64 (lowest + 1) then
            match segment.Remove dev (files w) s with
            | (d, s1, Some e) => (mkWorld (<[p := s1]> (mem w)) d, kept, Some e)
            | (d, s1, None) =>
                Truncate_loop dev lowest rest kept
                  (mkWorld (<[p := s1]> (mem w)) d)
            end
          else Truncate_loop dev lowest rest (kept ++ [p]) w
      end
  end.

(** [Truncate] removes all segments whose highest offset is lower than
    [lowest]. *)
Definition Truncate (dev : bool) (w : world) (lg : t) (lowest : Z)
  : world * t * option error :=
  match Truncate_loop dev lowest (segments lg) [] w with
  | (w1, _, Some e) => (w1, lg, Some e)
  | (w1, kept, None) =>
      (w1, mk (Dir lg) (Config_ lg) (activeSegment lg) kept, None)
  end.

(** The loop of [Close]: the segments are closed in order, up to the
    first one that fails. *)
Fixpoint Close_loop (dev : bool) (ps : list ptr) (w : world)
  : world * option error :=
  match ps with
  | [] => (w, None)
  | p :: rest =>
      match deref w p with
      | None => (w, Some (Panic "nil pointer dereference"))
      | Some s =>
          match segment.Close dev (files w) s with
          | (d, s1, Some e) => (mkWorld (<[p := s1]> (mem w)) d, Some e)
          | (d, s1, None) =>
              Close_loop dev rest (mkWorld (<[p := s1]> (mem w)) d)
          end
      end
  end.

(** [Close] iterates over the segments and closes them. *)
Definition Close (dev : bool) (w : world) (lg : t) : world * option error :=
  Close_loop dev (segments lg) w.

(** [Remove] closes the log and removes its data: [os.RemoveAll(lg.Dir)]
    leaves none of the files of the directory. *)
Definition Remove (dev : bool) (w : world) (lg : t) : world * option error :=
  match Close dev w lg with
  | (w1, Some e) => (w1, Some e)
  | (w1, None) => (mkWorld (mem w1) ∅, None)
  end.

(** [originReader] wraps the store of a segment: the store is the one
    the segment at [store_of] holds, [offset] is an [int64]. *)
Record originReader : Type := mkOriginReader {
  store_of : ptr;
  offset : Z
}.



(** [Reader] returns an [io.Reader] to read the whole log: the
    multi-reader of one [originReader] per segment, each at offset 0. *)
Definition Reader (lg : t) : list originReader :=
  (fun p => mkOriginReader p 0) <$> segments lg.

End Log.

(** ** A concrete serialization: the protobuf wire format of [Record]

    [message Record { bytes value = 1; uint64 offset = 2; }], used for
    the concrete runs below. *)

Module proto.

Fixpoint varint (fuel : nat) (v : Z) : list byte :=
  match fuel with
  | O => []
  | S k =>
      if v <? 128 then [byte_of_Z v]
      else byte_of_Z (Z.lor (Z.land v 127) 128) :: varint k (Z.shiftr v 7)
  end.

(** Reads a varint: its value and the bytes after it. *)
Fixpoint unvarint (fuel : nat) (bs : list byte) : option (Z * list byte) :=
  match fuel, bs with
  | S k, b :: rest =>
      let x := Z_of_byte b in
      if x <? 128 then Some (x, rest)
      else
        match unvarint k rest with
        | Some (hi, rest') => Some (Z.lor (Z.land x 127) (Z.shiftl hi 7), rest')
        | None => None
        end
  | _, _ => None
  end.

Definition marshal (r : api.Record_) : option (list byte) :=
  Some ((match api.Value r with
         | [] => []
         | v => byte_of_Z 10 :: varint 10 (len v) ++ v
         end) ++
        (if api.Offset r =? 0 then []
         else byte_of_Z 16 :: varint 10 (api.Offset r))).

Fixpoint fields (fuel : nat) (bs : list byte) (r : api.Record_)
  : api.Record_ * bool :=
  match fuel, bs with
  | _, [] => (r, true)
  | O, _ => (r, false)
  | S k, tag :: rest =>
      if Z_of_byte tag =? 10 then
        match unvarint 10 rest with
        | Some (n, rest') =>
            if n <=? len rest'
            then fields k (drop (Z.to_nat n) rest')
                   (api.mk (take (Z.to_nat n) rest') (api.Offset r))
            else (r, false)
        | None => (r, false)
        end
      else if Z_of_byte tag =? 16 then
        match unvarint 10 rest with
        | Some (v, rest') => fields k rest' (api.mk (api.Value r) v)
        | None => (r, false)
        end
      else (r, false)
  end.

Definition unmarshal (bs : list byte) : api.Record_ * bool :=
  fields (length bs) bs (api.mk [] 0).

Definition codec : Codec := {| Marshal := marshal; Unmarshal := unmarshal |}.

End proto.

(** * Notions used to state the properties *)

(** The entry [index.Read] selects: the last one for the sentinel -1,
    and the input as a [uint32] otherwise. *)
Definition entry_of (i : index.t) (in_ : Z) : Z :=
  uint32 (if in_ =? -1 then index.size i / 12 - 1 else in_).

(** [index.Read] with two distinct kinds of error: [Empty] for the empty
    index, [OutOfRange] for an entry beyond the size, and the decoded
    entry otherwise; the entry index is [(size / 12) - 1] for the
    sentinel -1 and the input itself when it is not negative. *)
Definition index_Read_distinct_kinds : Prop :=
  exists Empty OutOfRange : error,
    Empty <> OutOfRange
    /\ forall (i : index.t) (in_ : Z),
         let idx := if in_ =? -1 then index.size i / 12 - 1 else in_ in
         (index.size i = 0 -> (index.Read i in_).2 = Some Empty)
         /\ (index.size i <> 0 ->
             in_ = -1 \/ 0 <= in_ ->
             index.size i < idx * 12 + 12 ->
             (index.Read i in_).2 = Some OutOfRange)
         /\ (index.size i <> 0 ->
             in_ = -1 \/ 0 <= in_ ->
             idx * 12 + 12 <= index.size i ->
             exists bo bp,
               slice (index.mmap i) (idx * 12) (idx * 12 + 4) = Some bo
               /\ slice (index.mmap i) (idx * 12 + 4) (idx * 12 + 12) = Some bp
               /\ index.Read i in_ = (enc.Uint32 bo, enc.Uint64 bp, None)).

(** Whether the segment at [p] covers the offset:
    [baseOffset <= offset < nextOffset]. *)
Definition covers (w : Log.world) (offset : Z) (p : Log.ptr) : bool :=
  match Log.deref w p with
  | Some seg =>
      (segment.baseOffset seg <=? offset) && (offset <? segment.nextOffset seg)
  | None => false
  end.

(** Some segment of the log covers the offset. *)
Definition covered (w : Log.world) (lg : Log.t) (offset : Z) : Prop :=
  exists p, p ∈ Log.segments lg /\ covers w offset p = true.

(** The active segment is the last element of the list of segments. *)
Definition active_is_last (lg : Log.t) : Prop :=
  Log.activeSegment lg = last (Log.segments lg).

(** Whether [Truncate(lowest)] keeps the segment at [p]. *)
Definition kept (w : Log.world) (lowest : Z) (p : Log.ptr) : bool :=
  match Log.deref w p with
  | Some seg => negb (segment.nextOffset seg <=? uint64 (lowest + 1))
  | None => false
  end.

(** What identifies a segment: its offsets and the names of its files. *)
Definition ident (s : segment.t) : Z * Z * string * string :=
  (segment.baseOffset s, segment.nextOffset s,
   index.Name_ (segment.index_ s), store.Name_ (segment.store_ s)).

(** Two worlds whose segments have the same offsets and file names,
    address by address. *)
Definition same_ident (w w' : Log.world) : Prop :=
  forall p, ident <$> Log.deref w' p = ident <$> Log.deref w p.

(** What [Flush] leaves of a store whose writer has not failed and whose
    file is open. *)
Definition flushed (s : store.t) : store.t :=
  store.mk
    (mkFile (Name (store.File_ s))
       (data (store.File_ s) ++ bufio.pending (store.buf s)) false)
    (store.size s) (bufio.mkWriter [] None).

(** The store's bookkeeping: its size counts the bytes in the file and
    the bytes still in the writer, the file is open and the writer has
    not failed. *)
Record store_wf (s : store.t) : Prop := {
  swf_size : store.size s
             = len (data (store.File_ s)) + len (bufio.pending (store.buf s));
  swf_range : store.size s < 2 ^ 63;
  swf_err : bufio.err (store.buf s) = None;
  swf_open : closed (store.File_ s) = false
}.

(** The segment's bookkeeping: the index holds one 12-byte entry per
    offset between the base and the next offset, inside a mapping that
    does not exceed what a 32-bit relative offset can address. *)
Record segment_wf (s : segment.t) : Prop := {
  gwf_store : store_wf (segment.store_ s);
  gwf_base : 0 <= segment.baseOffset s;
  gwf_next : segment.baseOffset s <= segment.nextOffset s;
  gwf_range : segment.nextOffset s < 2 ^ 64 - 1;
  gwf_entries : index.size (segment.index_ s)
                = 12 * (segment.nextOffset s - segment.baseOffset s);
  gwf_fit : index.size (segment.index_ s)
            <= len (index.mmap (segment.index_ s));
  gwf_mmap : len (index.mmap (segment.index_ s)) <= 12 * 2 ^ 32
}.

(** No store or index file is named after an offset above [b]. *)
Definition no_files_above (d : disk) (b : Z) : Prop :=
  forall k, b < k ->
    d !! (pretty k +:+ ".store") = None /\ d !! (pretty k +:+ ".index") = None.

(** The state of a log that assigns [n] to its next record: the active
    segment is the last of the list, its bookkeeping is in order, and
    the directory holds no file of a later segment. *)
Definition log_inv (n : Z) (w : Log.world) (lg : Log.t) : Prop :=
  exists p seg,
    active_is_last lg
    /\ Log.activeSegment lg = Some p
    /\ Log.deref w p = Some seg
    /\ segment_wf seg
    /\ segment.nextOffset seg = n
    /\ segment.config seg = Log.Config_ lg
    /\ 0 < MaxIndexBytes (Log.Config_ lg) <= 12 * 2 ^ 32
    /\ no_files_above (Log.files w) (segment.baseOffset seg)
    /\ (forall q s, q ∈ Log.segments lg -> Log.deref w q = Some s ->
                     segment.nextOffset s <= n).

(** The bytes a record takes in the store under offset [n]: the length
    prefix and the serialized record. *)
Definition frame_size {codec : Codec} (r : api.Record_) (n : Z) : Z :=
  match Marshal (api.mk (api.Value r) n) with
  | Some bytes => 8 + len bytes
  | None => 0
  end.

(** The size of the store of the active segment. *)
Definition active_store_size (w : Log.world) (lg : Log.t) : Z :=
  match Log.activeSegment lg ≫= Log.deref w with
  | Some seg => store.size (segment.store_ seg)
  | None => 0
  end.

(** Appending the records one after the other, on a device that takes
    every write: the result of each append. *)
Fixpoint appends {codec : Codec} (w : Log.world) (lg : Log.t)
    (rs : list api.Record_) : list (Z * option error) :=
  match rs with
  | [] => []
  | r :: rs =>
      let '(w', lg', _, res) := Log.Append true true w lg r in
      res :: appends w' lg' rs
  end.

(** The offsets returned by the appends that succeeded. *)
Definition offsets (results : list (Z * option error)) : list Z :=
  omap (fun res : Z * option error =>
          match res.2 with None => Some res.1 | Some _ => None end) results.

(** * Concrete runs

    The scenario of the tests: a log opened on an empty directory, and
    the record ["hello world"], serialized in the protobuf wire format. *)

Module run.

Definition hello : api.Record_ :=
  api.mk (String.list_byte_of_string "hello world") 0.

(** A record whose payload does not fit the 4096 bytes a buffered
    writer holds, so that writing it reaches the device. *)
Definition big : api.Record_ := api.mk (replicate 5000 "x"%byte) 0.

Definition empty : Log.world := Log.mkWorld [] ∅.

(** [Config{}]: every option at its default. *)
Definition defaults : Config := mkConfig 0 0 0.

(** The configuration of [TestLog]: [MaxStoreBytes = 32]. *)
Definition small : Config := mkConfig 32 0 0.

(** A store and an index holding one 5-byte frame, as literals. *)
Definition store1 : store.t :=
  store.mk (mkFile "0.store" (enc.PutUint64 5 ++ String.list_byte_of_string "hello") false)
    13 bufio.NewWriter.

Definition index1 : index.t :=
  index.mk (mkFile "0.index" [] false)
    (enc.PutUint32 0 ++ enc.PutUint64 0 ++ replicate 24 x00) 12.

Definition segment1 : segment.t := segment.mk store1 index1 0 1 small.

(** A second segment, for the offsets from 1 on, holding one record. *)
Definition segment2 : segment.t :=
  segment.mk
    (store.mk (mkFile "1.store" (data (store.File_ store1)) false) 13
       bufio.NewWriter)
    (index.mk (mkFile "1.index" [] false) (index.mmap index1) 12)
    1 2 small.

Definition world2 : Log.world := Log.mkWorld [segment1; segment2] ∅.

Definition log2 : Log.t := Log.mk "log" small (Some 1%nat) [0%nat; 1%nat].

(** A configuration whose index limit is the 36 bytes of [index1], and
    [segment1] under it. *)
Definition mapped : Config := mkConfig 32 36 0.


(** An index whose mapping is full, and a segment that holds it. *)
Definition index_full : index.t :=
  index.mk (mkFile "0.index" [] false) (enc.PutUint32 0 ++ enc.PutUint64 0) 12.

Definition segment_full : segment.t := segment.mk store1 index_full 0 1 small.

(** An index limit that is not a multiple of 12: room for one entry. *)
Definition odd : Config := mkConfig 1024 16 0.

(** The log of [mapped] on an empty directory, and after one append of
    [hello]; the segment each of them holds. *)
Definition w0 : Log.world := (Log.NewLog empty "log" mapped).1.1.
Definition lg0 : Log.t := (Log.NewLog empty "log" mapped).1.2.
Definition seg_w0 : segment.t := default segment1 (Log.deref w0 0%nat).

Definition w1 : Log.world :=
  (@Log.Append proto.codec true true w0 lg0 hello).1.1.1.
Definition lg1 : Log.t :=
  (@Log.Append proto.codec true true w0 lg0 hello).1.1.2.
Definition seg_w1 : segment.t := default segment1 (Log.deref w1 0%nat).

(** The log of [odd] after one append of [hello]: its index is full. *)
Definition v1 : Log.world :=
  (@Log.Append proto.codec true true
     (Log.NewLog empty "log" odd).1.1 (Log.NewLog empty "log" odd).1.2
     hello).1.1.1.
Definition vg1 : Log.t :=
  (@Log.Append proto.codec true true
     (Log.NewLog empty "log" odd).1.1 (Log.NewLog empty "log" odd).1.2
     hello).1.1.2.
Definition seg_v1 : segment.t := default segment1 (Log.deref v1 0%nat).

End run.

(** Closed comparisons between numerals. *)
Ltac closed_arith :=
  vm_compute; repeat split; first [reflexivity | discriminate | congruence].

(** The bookkeeping of a closed term, by computation. *)
Ltac closed_wf := constructor; closed_arith.

(** * Notions used to state the further properties *)

(** What a store holds: the bytes of its file and, after them, those
    its writer has accepted and not yet written. *)
Definition content (s : store.t) : list byte :=
  data (store.File_ s) ++ bufio.pending (store.buf s).


(** The bookkeeping of a segment of a log configured with [c]: besides
    [segment_wf], its files are named after its base offset, its index
    file is open and mapped over [MaxIndexBytes] bytes, and the last
    entry of the index holds the last relative offset assigned. *)
Record seg_ok (c : Config) (s : segment.t) : Prop := {
  sok_wf : segment_wf s;
  sok_config : segment.config s = c;
  sok_store : store.Name_ (segment.store_ s)
              = pretty (segment.baseOffset s) +:+ ".store";
  sok_index : index.Name_ (segment.index_ s)
              = pretty (segment.baseOffset s) +:+ ".index";
  sok_open : closed (index.file (segment.index_ s)) = false;
  sok_mmap : len (index.mmap (segment.index_ s)) = MaxIndexBytes c;
  sok_last : index.size (segment.index_ s) = 0
             \/ exists pos,
                  index.Read (segment.index_ s) (-1)
                  = (segment.nextOffset s - segment.baseOffset s - 1, pos, None)
}.

(** Segments that follow one another: each one but the last holds a
    record, and the next one starts where it ends. *)
Fixpoint chain (l : list segment.t) : Prop :=
  match l with
  | s :: (s' :: _) as rest =>
      segment.baseOffset s < segment.nextOffset s
      /\ segment.nextOffset s = segment.baseOffset s'
      /\ chain rest
  | _ => True
  end.

(** The names of the two files of a segment with the given base. *)
Definition store_name (b : Z) : string := pretty b +:+ ".store".
Definition index_name (b : Z) : string := pretty b +:+ ".index".

(** The state of a log in working order: its pointers are distinct and
    point to the segments [segs], which follow one another and are each
    in order; the active segment is the last one; the directory holds
    the files of these segments and nothing else. *)
Definition log_ok (w : Log.world) (lg : Log.t) (segs : list segment.t) : Prop :=
  Forall2 (fun p s => Log.deref w p = Some s) (Log.segments lg) segs
  /\ segs <> []
  /\ NoDup (Log.segments lg)
  /\ active_is_last lg
  /\ Forall (seg_ok (Log.Config_ lg)) segs
  /\ chain segs
  /\ 0 < MaxIndexBytes (Log.Config_ lg) <= 12 * 2 ^ 32
  /\ MaxStoreBytes (Log.Config_ lg) <> 0
  /\ (forall name,
        is_Some (Log.files w !! name)
        <-> exists b, b ∈ segment.baseOffset <$> segs
                      /\ (name = store_name b \/ name = index_name b)).

(** The state after appending the records one after the other, on a
    device that takes every write. *)
Fixpoint append_all {codec : Codec} (w : Log.world) (lg : Log.t)
    (rs : list api.Record_) : Log.world * Log.t :=
  match rs with
  | [] => (w, lg)
  | r :: rs =>
      let '(w', lg', _, _) := Log.Append true true w lg r in
      append_all w' lg' rs
  end.

(** Whether a segment covers the offset. *)
Definition seg_covers (s : segment.t) (o : Z) : bool :=
  (segment.baseOffset s <=? o) && (o <? segment.nextOffset s).

(** Two segments that agree at an offset: both cover it or neither
    does, and when they do, what they read there is related by [P]. *)
Definition seg_rel {codec : Codec} (o : Z)
    (P : relation (option api.Record_ * option error)) (s s' : segment.t)
  : Prop :=
  seg_covers s' o = seg_covers s o
  /\ (seg_covers s o = true -> P (segment.Read true s o).2 (segment.Read true s' o).2).

(** The same, for pointers into two worlds. *)
Definition reads_rel {codec : Codec} (o : Z)
    (P : relation (option api.Record_ * option error))
    (w w' : Log.world) (q q' : Log.ptr) : Prop :=
  exists s s', Log.deref w q = Some s /\ Log.deref w' q' = Some s'
               /\ seg_rel o P s s'.

(** A read that returned a record returns the same record and error. *)
Definition keeps_record (x y : option api.Record_ * option error) : Prop :=
  forall rec e, x = (Some rec, e) -> y = (Some rec, e).

(** Each base offset twice: what the names of the files of a directory
    give, once sorted. *)
Fixpoint twice (l : list Z) : list Z :=
  match l with
  | [] => []
  | b :: l => b :: b :: twice l
  end.

(** The base offset [setup] reads off the name of a file. *)
Definition base_of_name (name : string) : Z :=
  ParseUint (TrimSuffix name (Ext name)).

(** A segment opened again: it is in order, with the offsets and the
    store content of the segment that was closed, and an index that
    reads the same. *)
Definition reopened (c : Config) (s s2 : segment.t) : Prop :=
  seg_ok c s2
  /\ segment.baseOffset s2 = segment.baseOffset s
  /\ segment.nextOffset s2 = segment.nextOffset s
  /\ content (segment.store_ s2) = content (segment.store_ s)
  /\ (forall in_, index.Read (segment.index_ s2) in_
                  = index.Read (segment.index_ s) in_).





(** * Properties *)

(** ** Bytes and big-endian numbers *)

Lemma Z_of_byte_range (b : byte) : 0 <= Z_of_byte b < 256.
Proof.
  unfold Z_of_byte. pose proof (Byte.to_N_bounded b). lia.
Qed.

Lemma Z_of_byte_of_Z (z : Z) : Z_of_byte (byte_of_Z z) = z mod 256.
Proof.
  unfold Z_of_byte, byte_of_Z.
  assert (Hr : 0 <= z mod 256 < 256) by (apply Z.mod_pos_bound; lia).
  destruct (Byte.of_N (Z.to_N (z mod 256))) as [b|] eqn:E; simpl.
  - apply Byte.to_of_N in E. rewrite E. lia.
  - apply Byte.of_N_None_iff in E. lia.
Qed.

Lemma lor_shiftl_low (n acc x : Z) :
  0 <= n -> 0 <= x < 2 ^ n -> Z.lor (Z.shiftl acc n) x = acc * 2 ^ n + x.
Proof.
  intros Hn Hx. rewrite Z.shiftl_mul_pow2 by lia.
  symmetry. apply Z.add_nocarry_lor.
  apply Z.bits_inj'. intros i Hi.
  rewrite Z.land_spec, Z.bits_0.
  destruct (Z.lt_ge_cases i n) as [Hlt|Hge].
  - rewrite Z.mul_pow2_bits_low by lia. reflexivity.
  - assert (Hb : Z.testbit x i = false).
    { destruct (Z.eq_dec x 0) as [->|Hne]; [apply Z.bits_0|].
      apply Z.bits_above_log2; [lia|].
      apply Z.lt_le_trans with n; [|lia].
      apply Z.log2_lt_pow2; lia. }
    rewrite Hb. apply andb_false_r.
Qed.

Lemma lor_shiftl_byte (acc x : Z) :
  0 <= x < 256 -> Z.lor (Z.shiftl acc 8) x = acc * 256 + x.
Proof. intros Hx. apply (lor_shiftl_low 8); [lia|exact Hx]. Qed.

Lemma Uint_fold (bs : list byte) (acc : Z) :
  fold_left (fun a x => Z.lor (Z.shiftl a 8) (Z_of_byte x)) bs acc
  = fold_left (fun a x => a * 256 + Z_of_byte x) bs acc.
Proof.
  revert acc. induction bs as [|b bs IH]; intros acc; simpl; [reflexivity|].
  rewrite lor_shiftl_byte by apply Z_of_byte_range. apply IH.
Qed.

Lemma length_PutUint (n : nat) (v : Z) : length (enc.PutUint n v) = n.
Proof. induction n as [|n IH]; simpl; [reflexivity|]. now rewrite IH. Qed.

Lemma Uint_PutUint_acc (n : nat) (v acc : Z) :
  fold_left (fun a x => a * 256 + Z_of_byte x) (enc.PutUint n v) acc
  = acc * 256 ^ Z.of_nat n + v mod 256 ^ Z.of_nat n.
Proof.
  revert acc. induction n as [|n IH]; intros acc.
  - simpl. rewrite Z.mod_1_r. lia.
  - cbn [enc.PutUint fold_left]. rewrite IH, Z_of_byte_of_Z.
    rewrite Z.shiftr_div_pow2 by lia.
    replace (2 ^ (8 * Z.of_nat n)) with (256 ^ Z.of_nat n)
      by (change 256 with (2 ^ 8); rewrite <- Z.pow_mul_r by lia; reflexivity).
    rewrite Nat2Z.inj_succ, Z.pow_succ_r by lia.
    assert (Hp : 0 < 256 ^ Z.of_nat n) by (apply Z.pow_pos_nonneg; lia).
    rewrite (Z.mul_comm 256 (256 ^ Z.of_nat n)).
    rewrite (Z.rem_mul_r v (256 ^ Z.of_nat n) 256) by lia.
    lia.
Qed.

(** Decoding what was encoded gives the value back, cut to the width. *)
Lemma Uint_PutUint (n : nat) (v : Z) :
  enc.Uint (enc.PutUint n v) = v mod 256 ^ Z.of_nat n.
Proof.
  unfold enc.Uint. rewrite Uint_fold, Uint_PutUint_acc. lia.
Qed.

Lemma Uint64_PutUint64 (v : Z) :
  0 <= v < 2 ^ 64 -> enc.Uint64 (enc.PutUint64 v) = v.
Proof.
  intros Hv. unfold enc.Uint64, enc.PutUint64. rewrite Uint_PutUint.
  change (256 ^ Z.of_nat 8) with (2 ^ 64). apply Z.mod_small. exact Hv.
Qed.

Lemma Uint32_PutUint32 (v : Z) :
  0 <= v < 2 ^ 32 -> enc.Uint32 (enc.PutUint32 v) = v.
Proof.
  intros Hv. unfold enc.Uint32, enc.PutUint32. rewrite Uint_PutUint.
  change (256 ^ Z.of_nat 4) with (2 ^ 32). apply Z.mod_small. exact Hv.
Qed.

(** ** Slices *)

Lemma len_app {A} (l k : list A) : len (l ++ k) = len l + len k.
Proof. unfold len. rewrite length_app. lia. Qed.

Lemma len_nonneg {A} (l : list A) : 0 <= len l.
Proof. unfold len. lia. Qed.

Lemma length_overwrite (l : list byte) (a : Z) (bs : list byte) :
  0 <= a -> a + len bs <= len l ->
  length (overwrite l a bs) = length l.
Proof.
  unfold overwrite, len. intros Ha Hb.
  rewrite !length_app, length_take, length_drop. lia.
Qed.

Lemma lookup_overwrite_lt (l : list byte) (a : Z) (bs : list byte) (j : nat) :
  0 <= a -> a + len bs <= len l -> (Z.of_nat j < a) ->
  overwrite l a bs !! j = l !! j.
Proof.
  unfold overwrite, len. intros Ha Hb Hj.
  rewrite lookup_app_l by (rewrite length_take; lia).
  apply lookup_take_lt. lia.
Qed.

Lemma lookup_overwrite_ge (l : list byte) (a : Z) (bs : list byte) (j : nat) :
  0 <= a -> a + len bs <= len l -> (a + len bs <= Z.of_nat j) ->
  overwrite l a bs !! j = l !! j.
Proof.
  unfold overwrite, len. intros Ha Hb Hj.
  rewrite lookup_app_r by (rewrite length_take; lia).
  rewrite lookup_app_r by (rewrite length_take; lia).
  rewrite lookup_drop, length_take. f_equal. lia.
Qed.

(** A slice is determined by the elements it covers. *)
Lemma slice_ext (l k : list byte) (a b : Z) :
  length l = length k ->
  (forall j : nat, a <= Z.of_nat j < b -> l !! j = k !! j) ->
  slice l a b = slice k a b.
Proof.
  intros Hlen Hext. unfold slice, len. rewrite Hlen.
  destruct ((0 <=? a) && (a <=? b) && (b <=? Z.of_nat (length k))) eqn:E;
    [|reflexivity].
  f_equal. apply list_eq. intros j.
  destruct (decide (j < Z.to_nat (b - a))%nat) as [Hj|Hj].
  - rewrite !lookup_take_lt, !lookup_drop by exact Hj. apply Hext.
    apply andb_prop in E as [E _]. apply andb_prop in E as [E1 E2]. lia.
  - rewrite !lookup_take_ge by lia. reflexivity.
Qed.

Lemma slice_Some (l : list byte) (a b : Z) :
  0 <= a <= b -> b <= len l ->
  slice l a b = Some (take (Z.to_nat (b - a)) (drop (Z.to_nat a) l)).
Proof.
  intros [Ha Hab] Hb. unfold slice.
  replace (0 <=? a) with true by (symmetry; apply Z.leb_le; lia).
  replace (a <=? b) with true by (symmetry; apply Z.leb_le; lia).
  replace (b <=? len l) with true by (symmetry; apply Z.leb_le; lia).
  reflexivity.
Qed.

(** Reading back the bytes an [overwrite] has put. *)
Lemma slice_overwrite_same (l : list byte) (a : Z) (bs : list byte) :
  0 <= a -> a + len bs <= len l ->
  slice (overwrite l a bs) a (a + len bs) = Some bs.
Proof.
  intros Ha Hb.
  assert (Hlen := length_overwrite l a bs Ha Hb).
  rewrite slice_Some by (unfold len in *; lia).
  f_equal. unfold overwrite, len in *.
  rewrite drop_app_length' by (rewrite length_take; lia).
  replace (Z.to_nat (a + Z.of_nat (length bs) - a)) with (length bs) by lia.
  apply take_app_length.
Qed.

(** ** Machine integers *)

Lemma uint64_small (z : Z) : 0 <= z < 2 ^ 64 -> uint64 z = z.
Proof. intros H. unfold uint64. apply Z.mod_small. exact H. Qed.

Lemma uint32_small (z : Z) : 0 <= z < 2 ^ 32 -> uint32 z = z.
Proof. intros H. unfold uint32. apply Z.mod_small. exact H. Qed.

Lemma uint32_range (z : Z) : 0 <= uint32 z < 2 ^ 32.
Proof. unfold uint32. apply Z.mod_pos_bound. lia. Qed.

Lemma uint32_le (z : Z) : 0 <= z -> uint32 z <= z.
Proof. intros H. unfold uint32. apply Z.mod_le; lia. Qed.

Lemma int64_small (z : Z) : 0 <= z < 2 ^ 63 -> int64 z = z.
Proof.
  intros H. unfold int64. rewrite uint64_small by lia.
  destruct (z <? 2 ^ 63) eqn:E; [reflexivity|]. apply Z.ltb_ge in E. lia.
Qed.

(** ** store.Append *)

Lemma store_Append_ok (s : store.t) (b : list byte) :
  bufio.err (store.buf s) = None ->
  store.Append true true s b
  = (store.mk (store.File_ s)
       (uint64 (store.size s + uint64 (len b + lenWidth)))
       (bufio.mkWriter
          (bufio.pending (store.buf s)
           ++ enc.PutUint64 (uint64 (len b)) ++ b) None),
     (uint64 (len b + lenWidth), store.size s, None)).
Proof.
  intros He. unfold store.Append, binary_Write, bufio.Write.
  rewrite He. cbn. rewrite <- app_assoc. reflexivity.
Qed.

Lemma store_Append_fails (dl dd : bool) (s : store.t) (b : list byte) :
  bufio.err (store.buf s) <> None \/ dl = false \/ dd = false ->
  exists s' e, store.Append dl dd s b = (s', (0, 0, Some e))
               /\ store.size s' = store.size s
               /\ store.File_ s' = store.File_ s.
Proof.
  intros H. unfold store.Append, binary_Write, bufio.Write.
  destruct (bufio.err (store.buf s)) as [e|] eqn:He.
  - cbn. eauto.
  - destruct dl; cbn; [|eauto].
    destruct dd; cbn; [|eauto].
    destruct H as [H|[H|H]]; congruence.
Qed.

(** C7. A successful [store.Append(b)] returns [(8 + len(b), pos)] with
    [pos] the size of the store before the call and adds [8 + len(b)] to
    the size; the call fails exactly when the length-prefix write or the
    payload write fails, and then the size is unchanged.  The size of the
    store and the length of [b] are within the ranges of a file size and
    of a slice, so that no 64-bit sum wraps. *)
Theorem store_Append_spec (dl dd : bool) (s : store.t) (b : list byte) :
  0 <= store.size s < 2 ^ 63 ->
  len b < 2 ^ 63 - 8 ->
  forall s' n pos e,
    store.Append dl dd s b = (s', (n, pos, e)) ->
    (e = None <-> bufio.err (store.buf s) = None /\ dl = true /\ dd = true)
    /\ (e = None ->
        n = 8 + len b /\ pos = store.size s
        /\ store.size s' = store.size s + (8 + len b))
    /\ (e <> None -> store.size s' = store.size s).
Proof.
  intros Hsz Hb s' n pos e HA.
  pose proof (len_nonneg b) as Hb0.
  destruct (decide (bufio.err (store.buf s) = None /\ dl = true /\ dd = true))
    as [(He & -> & ->)|Hno].
  - rewrite store_Append_ok in HA by exact He.
    inversion HA; subst; clear HA. unfold lenWidth. cbn [store.size].
    rewrite (uint64_small (len b + 8)) by lia.
    rewrite uint64_small by lia.
    repeat split; try lia; congruence.
  - destruct (store_Append_fails dl dd s b) as (s1 & e1 & H1 & H2 & _).
    { destruct (bufio.err (store.buf s)); [left; congruence|].
      destruct dl; [|right; left; reflexivity].
      destruct dd; [|right; right; reflexivity].
      exfalso. apply Hno. repeat split. }
    rewrite H1 in HA. inversion HA; subst; clear HA.
    split; [split; [congruence | intros H; contradiction]|].
    split; [congruence | intros _; exact H2].
Qed.

(** ** index.Read and index.Write *)

Lemma uint32_uint64 (z : Z) : uint32 (uint64 z) = uint32 z.
Proof.
  unfold uint32, uint64. apply Z.mod_mod_divide.
  exists (2 ^ 32). reflexivity.
Qed.

Lemma index_Read_unfold (i : index.t) (in_ : Z) :
  index.Read i in_ =
  if index.size i =? 0 then (0, 0, Some EOF)
  else if index.size i <? entry_of i in_ * 12 + 12 then (0, 0, Some EOF)
  else match slice (index.mmap i) (entry_of i in_ * 12) (entry_of i in_ * 12 + 4),
             slice (index.mmap i) (entry_of i in_ * 12 + 4) (entry_of i in_ * 12 + 12) with
       | Some bo, Some bp => (enc.Uint32 bo, enc.Uint64 bp, None)
       | _, _ => (0, 0, Some (Panic "slice bounds out of range"))
       end.
Proof.
  unfold index.Read, entry_of, entWidth, offWidth, posWidth.
  change (4 + 8) with 12.
  destruct (index.size i =? 0); [reflexivity|].
  assert (Hout : (if in_ =? -1 then uint32 (uint64 (index.size i / 12 - 1))
                  else uint32 in_)
                 = uint32 (if in_ =? -1 then index.size i / 12 - 1 else in_)).
  { destruct (in_ =? -1); [apply uint32_uint64 | reflexivity]. }
  rewrite Hout.
  set (out := uint32 _).
  pose proof (uint32_range (if in_ =? -1 then index.size i / 12 - 1 else in_)) as Hr.
  fold out in Hr.
  rewrite (uint64_small (out * 12)) by lia.
  rewrite (uint64_small (out * 12 + 12)) by lia.
  rewrite (uint64_small (out * 12 + 4)) by lia.
  reflexivity.
Qed.

(** C8 (amended). [index.Read(in)] fails with [io.EOF] when the index is
    empty; otherwise, with the entry index [(size / 12) - 1] for the
    sentinel -1 and [in] otherwise, taken as a [uint32], it fails with
    the same [io.EOF] when [size < index * 12 + 12], and otherwise (the
    entry lying in the mapped bytes) returns the pair decoded from the
    4 and the 8 bytes of that entry. *)
Theorem index_Read_spec (i : index.t) (in_ : Z) :
  (index.size i = 0 -> index.Read i in_ = (0, 0, Some EOF))
  /\ (index.size i <> 0 ->
      index.size i < entry_of i in_ * 12 + 12 ->
      index.Read i in_ = (0, 0, Some EOF))
  /\ (index.size i <> 0 ->
      entry_of i in_ * 12 + 12 <= index.size i ->
      index.size i <= len (index.mmap i) ->
      exists bo bp,
        slice (index.mmap i) (entry_of i in_ * 12) (entry_of i in_ * 12 + 4)
        = Some bo
        /\ slice (index.mmap i) (entry_of i in_ * 12 + 4)
             (entry_of i in_ * 12 + 12) = Some bp
        /\ length bo = 4%nat /\ length bp = 8%nat
        /\ index.Read i in_ = (enc.Uint32 bo, enc.Uint64 bp, None)).
Proof.
  rewrite index_Read_unfold.
  pose proof (uint32_range (if in_ =? -1 then index.size i / 12 - 1 else in_))
    as Hr.
  fold (entry_of i in_) in Hr.
  split; [|split].
  - intros ->. reflexivity.
  - intros Hne Hlt.
    destruct (index.size i =? 0) eqn:E0; [reflexivity|].
    destruct (index.size i <? entry_of i in_ * 12 + 12) eqn:E1; [reflexivity|].
    apply Z.ltb_ge in E1. lia.
  - intros Hne Hle Hmap.
    destruct (index.size i =? 0) eqn:E0; [apply Z.eqb_eq in E0; lia|].
    destruct (index.size i <? entry_of i in_ * 12 + 12) eqn:E1;
      [apply Z.ltb_lt in E1; lia|].
    rewrite !slice_Some by lia.
    eexists _, _. repeat split.
    + rewrite length_take, length_drop. unfold len in Hmap. lia.
    + rewrite length_take, length_drop. unfold len in Hmap. lia.
Qed.

Lemma index_Write_ok (i : index.t) (off pos : Z) :
  0 <= index.size i ->
  index.size i + 12 <= len (index.mmap i) ->
  len (index.mmap i) < 2 ^ 64 ->
  index.Write i off pos
  = (index.mk (index.file i)
       (overwrite (overwrite (index.mmap i) (index.size i) (enc.PutUint32 off))
          (index.size i + 4) (enc.PutUint64 pos))
       (index.size i + 12), None).
Proof.
  intros H0 Hfit Hlen. unfold index.Write, entWidth, offWidth, posWidth.
  change (4 + 8) with 12.
  rewrite (uint64_small (len (index.mmap i))) by (pose proof (len_nonneg (index.mmap i)); lia).
  rewrite (uint64_small 12) by lia.
  rewrite !(uint64_small (index.size i + _)) by lia.
  destruct (len (index.mmap i) <? index.size i + 12) eqn:E;
    [apply Z.ltb_lt in E; lia|].
  rewrite !slice_Some by lia. reflexivity.
Qed.

Lemma index_Write_mmap_length (i : index.t) (off pos : Z) :
  0 <= index.size i ->
  index.size i + 12 <= len (index.mmap i) ->
  length (overwrite (overwrite (index.mmap i) (index.size i) (enc.PutUint32 off))
            (index.size i + 4) (enc.PutUint64 pos))
  = length (index.mmap i).
Proof.
  intros H0 Hfit.
  assert (H1 : length (overwrite (index.mmap i) (index.size i) (enc.PutUint32 off))
               = length (index.mmap i)).
  { apply length_overwrite; [lia|]. unfold len at 1, enc.PutUint32.
    rewrite length_PutUint. lia. }
  rewrite length_overwrite; [exact H1|lia|].
  unfold len, enc.PutUint64 in *. rewrite length_PutUint, H1. lia.
Qed.

Lemma index_Write_mmap_frame (i : index.t) (off pos : Z) (j : nat) :
  0 <= index.size i ->
  index.size i + 12 <= len (index.mmap i) ->
  Z.of_nat j < index.size i \/ index.size i + 12 <= Z.of_nat j ->
  overwrite (overwrite (index.mmap i) (index.size i) (enc.PutUint32 off))
    (index.size i + 4) (enc.PutUint64 pos) !! j
  = index.mmap i !! j.
Proof.
  intros H0 Hfit Hj.
  assert (H1 : length (overwrite (index.mmap i) (index.size i) (enc.PutUint32 off))
               = length (index.mmap i)).
  { apply length_overwrite; [lia|]. unfold len at 1, enc.PutUint32.
    rewrite length_PutUint. lia. }
  assert (L4 : len (enc.PutUint32 off) = 4)
    by (unfold len, enc.PutUint32; rewrite length_PutUint; reflexivity).
  assert (L8 : len (enc.PutUint64 pos) = 8)
    by (unfold len, enc.PutUint64; rewrite length_PutUint; reflexivity).
  destruct Hj as [Hj|Hj].
  - rewrite lookup_overwrite_lt; [|lia|unfold len in *; lia|lia].
    apply lookup_overwrite_lt; lia.
  - rewrite lookup_overwrite_ge; [|lia|unfold len in *; lia|lia].
    apply lookup_overwrite_ge; lia.
Qed.

(** C10. For an index whose size is a multiple of 12 and whose mapping
    has room for one more entry, [index.Write(relOff, pos)] succeeds,
    changes only the bytes [size .. size + 12) of the mapping, advances
    the size by 12, and every entry below the old size reads as before. *)
Theorem index_Write_frame (i : index.t) (off pos : Z) :
  0 <= index.size i ->
  index.size i mod 12 = 0 ->
  index.size i + 12 <= len (index.mmap i) ->
  len (index.mmap i) < 2 ^ 64 ->
  exists i',
    index.Write i off pos = (i', None)
    /\ index.size i' = index.size i + 12
    /\ index.file i' = index.file i
    /\ length (index.mmap i') = length (index.mmap i)
    /\ (forall j : nat,
          Z.of_nat j < index.size i \/ index.size i + 12 <= Z.of_nat j ->
          index.mmap i' !! j = index.mmap i !! j)
    /\ (forall e, 0 <= e < index.size i / 12 ->
          index.Read i' e = index.Read i e).
Proof.
  intros H0 Hmod Hfit Hlen.
  eexists. split; [apply index_Write_ok; assumption|].
  cbn [index.size index.file index.mmap].
  split; [reflexivity|]. split; [reflexivity|].
  split; [apply index_Write_mmap_length; assumption|].
  split; [intros j Hj; apply index_Write_mmap_frame; assumption|].
  intros e He.
  assert (Hsz : index.size i = 12 * (index.size i / 12))
    by (apply Z.div_exact; lia).
  rewrite !index_Read_unfold. unfold entry_of. cbn [index.size index.mmap].
  destruct (e =? -1) eqn:E1; [apply Z.eqb_eq in E1; lia|].
  pose proof (uint32_range e) as Hr. pose proof (uint32_le e ltac:(lia)) as Hle.
  set (k := uint32 e) in *.
  destruct (index.size i + 12 =? 0) eqn:Ea; [apply Z.eqb_eq in Ea; lia|].
  destruct (index.size i =? 0) eqn:Eb; [apply Z.eqb_eq in Eb; lia|].
  destruct (index.size i + 12 <? k * 12 + 12) eqn:Ec; [apply Z.ltb_lt in Ec; lia|].
  destruct (index.size i <? k * 12 + 12) eqn:Ed; [apply Z.ltb_lt in Ed; lia|].
  rewrite (slice_ext _ (index.mmap i) (k * 12) (k * 12 + 4)).
  - rewrite (slice_ext _ (index.mmap i) (k * 12 + 4) (k * 12 + 12)).
    + reflexivity.
    + apply index_Write_mmap_length; assumption.
    + intros j Hj. apply index_Write_mmap_frame; [assumption..|lia].
  - apply index_Write_mmap_length; assumption.
  - intros j Hj. apply index_Write_mmap_frame; [assumption..|lia].
Qed.

(** ** Log.Read: routing an offset to its segment *)

Section LogRead.
Context {codec : Codec}.

Lemma find_step (w : Log.world) (offset : Z) (s : option Log.ptr) (p : Log.ptr) :
  match Log.deref w p with
  | Some seg =>
      if (segment.baseOffset seg <=? offset) && (offset <? segment.nextOffset seg)
      then Some p else s
  | None => s
  end = if covers w offset p then Some p else s.
Proof. unfold covers. destruct (Log.deref w p); reflexivity. Qed.

Lemma find_foldl (w : Log.world) (offset : Z) (ps : list Log.ptr)
    (s : option Log.ptr) :
  foldl (fun s p =>
           match Log.deref w p with
           | Some seg =>
               if (segment.baseOffset seg <=? offset)
                  && (offset <? segment.nextOffset seg)
               then Some p else s
           | None => s
           end) s ps
  = foldl (fun s p => if covers w offset p then Some p else s) s ps.
Proof.
  revert s. induction ps as [|p ps IH]; intros s; simpl; [reflexivity|].
  rewrite find_step. apply IH.
Qed.

(** The loop finds nothing exactly when no segment of the list covers
    the offset. *)
Lemma find_None_acc (w : Log.world) (offset : Z) (ps : list Log.ptr)
    (s : option Log.ptr) :
  foldl (fun s p => if covers w offset p then Some p else s) s ps = None
  <-> s = None /\ forall p, p ∈ ps -> covers w offset p = false.
Proof.
  revert s. induction ps as [|p ps IH]; intros s; simpl.
  - split; [intros ->; split; [reflexivity|]|intros [-> _]; reflexivity].
    intros p Hp. inversion Hp.
  - rewrite IH. split.
    + intros [Hs Hall]. destruct (covers w offset p) eqn:E; [discriminate|].
      split; [exact Hs|]. intros q Hq.
      apply elem_of_cons in Hq as [->|Hq]; [exact E|apply Hall, Hq].
    + intros [-> Hall]. rewrite (Hall p) by (left). split; [reflexivity|].
      intros q Hq. apply Hall. right. exact Hq.
Qed.

(** What the loop finds is a segment of the list that covers the
    offset (or the one it started from). *)
Lemma find_Some_acc (w : Log.world) (offset : Z) (ps : list Log.ptr)
    (s : option Log.ptr) (p : Log.ptr) :
  foldl (fun s p => if covers w offset p then Some p else s) s ps = Some p ->
  s = Some p \/ (p ∈ ps /\ covers w offset p = true).
Proof.
  revert s. induction ps as [|q ps IH]; intros s; simpl.
  - intros ->. left. reflexivity.
  - intros H. apply IH in H as [H|[H1 H2]].
    + destruct (covers w offset q) eqn:E.
      * inversion H; subst. right. split; [left|exact E].
      * left. exact H.
    + right. split; [right; exact H1|exact H2].
Qed.

Lemma find_None (w : Log.world) (lg : Log.t) (offset : Z) :
  Log.find w lg offset = None <-> ~ covered w lg offset.
Proof.
  unfold Log.find. rewrite find_foldl, find_None_acc. unfold covered. split.
  - intros [_ Hall] (p & Hp & Hc). rewrite (Hall p Hp) in Hc. discriminate.
  - intros Hno. split; [reflexivity|]. intros p Hp.
    destruct (covers w offset p) eqn:E; [|reflexivity].
    exfalso. apply Hno. exists p. split; assumption.
Qed.

Lemma find_Some (w : Log.world) (lg : Log.t) (offset : Z) (p : Log.ptr) :
  Log.find w lg offset = Some p ->
  p ∈ Log.segments lg /\ covers w offset p = true.
Proof.
  unfold Log.find. rewrite find_foldl. intros H.
  apply find_Some_acc in H as [H|H]; [discriminate|exact H].
Qed.

(** The errors of a segment's read are never the log's out-of-range
    error. *)
Lemma segment_Read_not_outOfRange (dev : bool) (seg : segment.t) (off o : Z) :
  (segment.Read dev seg off).2.2 <> Some (Log.outOfRange o).
Proof.
  unfold segment.Read.
  rewrite index_Read_unfold.
  destruct (index.size (segment.index_ seg) =? 0); [discriminate|].
  destruct (_ <? _); [discriminate|].
  destruct (slice _ _ _); [|discriminate].
  destruct (slice _ _ _); [|discriminate].
  unfold store.Read, bufio.Flush.
  destruct (bufio.err _) as [[]|]; [discriminate..|].
  assert (HR : forall f n o' bs e, os.ReadAt f n o' = (bs, Some e) ->
                                    e <> Log.outOfRange o).
  { intros f n o' bs e. unfold os.ReadAt.
    repeat match goal with
           | |- context [if ?b then _ else _] => destruct b
           | |- context [match ?x with Some _ => _ | None => _ end] => destruct x
           end; intros H; inversion H; discriminate. }
  destruct (bufio.pending _) as [|b0 pend].
  - destruct (os.ReadAt _ _ _) as [sz [e|]] eqn:E1; cbn.
    + intros H. inversion H. eapply HR; eauto.
    + destruct (2 ^ 63 <=? enc.Uint64 sz); [discriminate|].
      destruct (os.ReadAt _ (enc.Uint64 sz) _) as [bs [e|]] eqn:E2; cbn.
      * intros H. inversion H. eapply HR; eauto.
      * destruct (Unmarshal bs) as [r []]; discriminate.
  - destruct (closed _); [discriminate|].
    destruct dev; [|discriminate].
    destruct (os.ReadAt _ _ _) as [sz [e|]] eqn:E1; cbn.
    + intros H. inversion H. eapply HR; eauto.
    + destruct (2 ^ 63 <=? enc.Uint64 sz); [discriminate|].
      destruct (os.ReadAt _ (enc.Uint64 sz) _) as [bs [e|]] eqn:E2; cbn.
      * intros H. inversion H. eapply HR; eauto.
      * destruct (Unmarshal bs) as [r []]; discriminate.
Qed.

Lemma Log_Read_not_covered (dev : bool) (w : Log.world) (lg : Log.t)
    (offset : Z) :
  ~ covered w lg offset ->
  Log.Read dev w lg offset = (w, (None, Some (Log.outOfRange offset))).
Proof.
  intros H. apply find_None in H. unfold Log.Read. rewrite H. reflexivity.
Qed.

(** C5. [Log.Read(offset)] fails with the out-of-range error, whose
    message ends with the offset in decimal, if and only if no segment
    satisfies [baseOffset <= offset < nextOffset]; in particular, when no
    offset above [hi] is covered, [Read(hi + k)] fails so for every
    [k >= 1].  This holds whether or not the device takes the bytes that
    the read flushes. *)
Theorem Log_Read_outOfRange (dev : bool) (w : Log.world) (lg : Log.t)
    (offset : Z) :
  ((Log.Read dev w lg offset).2.2 = Some (Log.outOfRange offset)
   <-> ~ covered w lg offset)
  /\ Log.outOfRange offset
     = ErrorString ("offset out of range: " +:+ pretty offset)
  /\ (forall hi k,
        (forall o, covered w lg o -> o <= hi) ->
        1 <= k ->
        Log.Read dev w lg (hi + k)
        = (w, (None, Some (Log.outOfRange (hi + k))))).
Proof.
  split; [|split; [reflexivity|]].
  - split.
    + intros HR Hc. unfold Log.Read in HR.
      destruct (Log.find w lg offset) as [p|] eqn:Ef.
      * apply find_Some in Ef as [_ Hcov]. unfold covers in Hcov.
        destruct (Log.deref w p) as [seg|]; [|discriminate].
        apply andb_prop in Hcov as [_ Hlt]. apply Z.ltb_lt in Hlt.
        destruct (segment.nextOffset seg <=? offset) eqn:E;
          [apply Z.leb_le in E; lia|].
        pose proof (segment_Read_not_outOfRange dev seg offset offset) as Hne.
        destruct (segment.Read dev seg offset) as [seg1 r]. cbn in HR, Hne.
        contradiction.
      * apply find_None in Ef. contradiction.
    + intros Hc. rewrite Log_Read_not_covered by exact Hc. reflexivity.
  - intros hi k Hhi Hk. apply Log_Read_not_covered.
    intros Hc. apply Hhi in Hc. lia.
Qed.

End LogRead.

(** ** Log.HighestOffset *)

Lemma HighestOffset_last (w : Log.world) (lg : Log.t) (p : Log.ptr)
    (seg : segment.t) :
  last (Log.segments lg) = Some p ->
  Log.deref w p = Some seg ->
  0 <= segment.nextOffset seg < 2 ^ 64 ->
  Log.HighestOffset w lg
  = (if segment.nextOffset seg =? 0 then 0 else segment.nextOffset seg - 1,
     None).
Proof.
  intros Hlast Hd Hr. unfold Log.HighestOffset. rewrite Hlast. cbn.
  rewrite Hd. destruct (segment.nextOffset seg =? 0) eqn:E; [reflexivity|].
  apply Z.eqb_neq in E. rewrite uint64_small by lia. reflexivity.
Qed.

(** C9. For a log with at least one segment, [HighestOffset] returns 0
    when the next offset of the last segment is 0, and that next offset
    minus 1 otherwise. *)
Theorem HighestOffset_spec (w : Log.world) (lg : Log.t) (p : Log.ptr)
    (seg : segment.t) :
  last (Log.segments lg) = Some p ->
  Log.deref w p = Some seg ->
  0 <= segment.nextOffset seg < 2 ^ 64 ->
  Log.HighestOffset w lg
  = (if segment.nextOffset seg =? 0 then 0 else segment.nextOffset seg - 1,
     None).
Proof. exact (HighestOffset_last w lg p seg). Qed.

(** ** Log.Truncate true *)

Lemma segment_Close_same (d : disk) (s : segment.t) d' s' e :
  segment.Close true d s = (d', s', e) -> ident s' = ident s.
Proof.
  unfold segment.Close, ident, index.Name_, store.Name_.
  destruct (index.Close d (segment.index_ s)) as [[d1 idx] e1] eqn:EI.
  assert (Hi : Name (index.file idx) = Name (index.file (segment.index_ s))).
  { revert EI. unfold index.Close.
    destruct (closed _); [intros H; inversion H; reflexivity|].
    destruct (_ <? _); intros H; inversion H; reflexivity. }
  destruct e1 as [e1|].
  - intros H. inversion H; subst. cbn. rewrite Hi. reflexivity.
  - destruct (store.Close true d1 (segment.store_ s)) as [[d2 st] e2] eqn:ES.
    assert (Hs : Name (store.File_ st) = Name (store.File_ (segment.store_ s))).
    { revert ES. unfold store.Close, bufio.Flush.
      destruct (bufio.err _); [intros H; inversion H; reflexivity|].
      destruct (bufio.pending _);
        destruct (closed _); intros H; inversion H; reflexivity. }
    intros H. inversion H; subst. cbn. rewrite Hi, Hs. reflexivity.
Qed.

(** A successful [Remove] leaves no file under the two names of the
    segment, and touches no other file. *)
Lemma segment_Remove_same (d : disk) (s : segment.t) d' s' e :
  segment.Remove true d s = (d', s', e) ->
  ident s' = ident s
  /\ (e = None ->
      d' !! index.Name_ (segment.index_ s) = None
      /\ d' !! store.Name_ (segment.store_ s) = None
      /\ forall name,
           name <> index.Name_ (segment.index_ s) ->
           name <> store.Name_ (segment.store_ s) ->
           d' !! name = d !! name).
Proof.
  unfold segment.Remove.
  destruct (segment.Close true d s) as [[d1 s1] e1] eqn:EC.
  pose proof (segment_Close_same _ _ _ _ _ EC) as Hid.
  assert (Hnames : index.Name_ (segment.index_ s1) = index.Name_ (segment.index_ s)
                   /\ store.Name_ (segment.store_ s1) = store.Name_ (segment.store_ s))
    by (unfold ident in Hid; inversion Hid; auto).
  destruct Hnames as [Hni Hns]. rewrite Hni, Hns.
  destruct e1 as [e1|]; [intros H; inversion H; subst; split; [exact Hid|discriminate]|].
  assert (Hframe : forall name,
             name <> index.Name_ (segment.index_ s) ->
             name <> store.Name_ (segment.store_ s) ->
             d1 !! name = d !! name).
  { revert EC. unfold segment.Close, index.Close, store.Close, bufio.Flush,
      index.Name_, store.Name_.
    intros EC name H1 H2.
    destruct (closed (index.file _)); [inversion EC|].
    destruct (int64 _ <? 0); [inversion EC|].
    destruct (bufio.err _); [inversion EC|].
    destruct (bufio.pending _); destruct (closed (store.File_ _));
      inversion EC; subst; cbn [Name data] in *;
      rewrite ?lookup_insert_ne by congruence; reflexivity. }
  unfold os.Remove.
  destruct (d1 !! index.Name_ (segment.index_ s)) eqn:E1;
    [|intros H; inversion H; subst; split; [exact Hid|discriminate]].
  destruct (delete (index.Name_ (segment.index_ s)) d1
              !! store.Name_ (segment.store_ s)) eqn:E2;
    intros H; inversion H; subst; (split; [exact Hid|]); [|discriminate].
  intros _. split; [|split].
  - destruct (decide (store.Name_ (segment.store_ s)
                      = index.Name_ (segment.index_ s))) as [Heq|Hne].
    + rewrite <- Heq. apply lookup_delete_eq.
    + rewrite lookup_delete_ne by exact Hne. apply lookup_delete_eq.
  - apply lookup_delete_eq.
  - intros name H1 H2.
    rewrite !lookup_delete_ne by congruence. apply Hframe; assumption.
Qed.

Lemma same_ident_refl (w : Log.world) : same_ident w w.
Proof. intros p. reflexivity. Qed.

Lemma same_ident_trans (w1 w2 w3 : Log.world) :
  same_ident w1 w2 -> same_ident w2 w3 -> same_ident w1 w3.
Proof. intros H12 H23 p. rewrite H23. apply H12. Qed.

Lemma same_ident_update (w : Log.world) (p : Log.ptr) (s s1 : segment.t)
    (d : disk) :
  Log.deref w p = Some s ->
  ident s1 = ident s ->
  same_ident w (Log.mkWorld (<[p := s1]> (Log.mem w)) d).
Proof.
  intros Hd Hi q. unfold Log.deref in *. cbn.
  destruct (decide (p = q)) as [<-|Hne].
  - rewrite list_lookup_insert_eq by (eapply lookup_lt_Some; eauto).
    rewrite Hd. cbn. rewrite Hi. reflexivity.
  - rewrite list_lookup_insert_ne by exact Hne. reflexivity.
Qed.

Lemma same_ident_kept (w w' : Log.world) (lowest : Z) (p : Log.ptr) :
  same_ident w w' -> kept w' lowest p = kept w lowest p.
Proof.
  intros H. specialize (H p). unfold kept.
  destruct (Log.deref w' p), (Log.deref w p); cbn in H; try discriminate;
    [|reflexivity].
  unfold ident in H. inversion H. congruence.
Qed.

(** Names that are not in the directory stay out of it during the
    loop. *)
Lemma Truncate_loop_absent (lowest : Z) (ps : list Log.ptr) :
  forall (acc : list Log.ptr) (w w' : Log.world) (res : list Log.ptr)
         (name : string),
    Log.Truncate_loop true lowest ps acc w = (w', res, None) ->
    Log.files w !! name = None -> Log.files w' !! name = None.
Proof.
  induction ps as [|p ps IH]; intros acc w w' res name;
    cbn [Log.Truncate_loop].
  - intros H. inversion H; subst. auto.
  - destruct (Log.deref w p) as [s|]; [|discriminate].
    destruct (_ <=? _).
    + destruct (segment.Remove true (Log.files w) s) as [[d s1] [e|]] eqn:ER;
        [discriminate|].
      apply segment_Remove_same in ER as [_ HR].
      destruct (HR eq_refl) as (H1 & H2 & H3).
      intros H Hn. eapply IH; [exact H|]. cbn [Log.files].
      destruct (decide (name = index.Name_ (segment.index_ s))) as [->|N1];
        [exact H1|].
      destruct (decide (name = store.Name_ (segment.store_ s))) as [->|N2];
        [exact H2|].
      rewrite H3 by assumption. exact Hn.
    + apply IH.
Qed.

(** A successful run of the loop keeps, in order, the segments whose
    next offset is above [lowest + 1], changes no offset, and leaves no
    file of a segment it has removed. *)
Lemma Truncate_loop_ok (lowest : Z) (ps : list Log.ptr) :
  forall (acc : list Log.ptr) (w w' : Log.world) (res : list Log.ptr),
    Log.Truncate_loop true lowest ps acc w = (w', res, None) ->
    res = acc ++ List.filter (kept w lowest) ps
    /\ same_ident w w'
    /\ (forall p s, p ∈ ps -> Log.deref w p = Some s ->
          kept w lowest p = false ->
          Log.files w' !! index.Name_ (segment.index_ s) = None
          /\ Log.files w' !! store.Name_ (segment.store_ s) = None).
Proof.
  induction ps as [|p ps IH]; intros acc w w' res; cbn [Log.Truncate_loop].
  - intros H. inversion H; subst. cbn. rewrite app_nil_r.
    split; [reflexivity|]. split; [apply same_ident_refl|].
    intros p s Hp. inversion Hp.
  - destruct (Log.deref w p) as [s|] eqn:Hd; [|discriminate].
    assert (Hk : kept w lowest p
                 = negb (segment.nextOffset s <=? uint64 (lowest + 1)))
      by (unfold kept; rewrite Hd; reflexivity).
    cbn [List.filter]. rewrite Hk.
    destruct (segment.nextOffset s <=? uint64 (lowest + 1)) eqn:Ele;
      cbn [negb].
    + destruct (segment.Remove true (Log.files w) s) as [[d s1] [e|]] eqn:ER;
        [discriminate|].
      apply segment_Remove_same in ER as [Hid HR].
      destruct (HR eq_refl) as (H1 & H2 & H3).
      pose proof (same_ident_update w p s s1 d Hd Hid) as Hso.
      intros H. pose proof H as Hrun. apply IH in H as (-> & H2' & Hgone).
      split; [f_equal; apply filter_ext; intros q;
              apply same_ident_kept, Hso|].
      split; [eapply same_ident_trans; eauto|].
      intros q sq Hq Hdq Hkq.
      destruct (decide (q ∈ ps)) as [Hin|Hnotin].
      * pose proof (Hso q) as Hq1. rewrite Hdq in Hq1.
        destruct (Log.deref (Log.mkWorld (<[p:=s1]> (Log.mem w)) d) q)
          as [sq1|] eqn:Hdq1; [|discriminate].
        cbn in Hq1. unfold ident in Hq1.
        assert (Hn1 : index.Name_ (segment.index_ sq1)
                      = index.Name_ (segment.index_ sq)) by (inversion Hq1; auto).
        assert (Hn2 : store.Name_ (segment.store_ sq1)
                      = store.Name_ (segment.store_ sq)) by (inversion Hq1; auto).
        rewrite <- Hn1, <- Hn2. apply (Hgone q sq1 Hin Hdq1).
        rewrite (same_ident_kept _ _ lowest q Hso). exact Hkq.
      * apply elem_of_cons in Hq as [->|Hq]; [|contradiction].
        rewrite Hd in Hdq. inversion Hdq; subst sq.
        split; eapply Truncate_loop_absent; eauto.
    + intros H. apply IH in H as (-> & H2 & Hgone).
      split; [rewrite <- app_assoc; reflexivity|]. split; [exact H2|].
      intros q sq Hq Hdq Hkq.
      apply elem_of_cons in Hq as [->|Hq].
      * rewrite Hk in Hkq. discriminate.
      * apply (Hgone q sq Hq Hdq Hkq).
Qed.

Section LogTruncate.
Context {codec : Codec}.


End LogTruncate.

(** ** Reading back what was appended: store and index *)

Lemma slice_app_mid (l1 l2 l3 : list byte) :
  slice (l1 ++ l2 ++ l3) (len l1) (len l1 + len l2) = Some l2.
Proof.
  rewrite slice_Some.
  - f_equal. unfold len. rewrite Nat2Z.id.
    rewrite drop_app_length.
    replace (Z.to_nat _) with (length l2) by lia.
    apply take_app_length.
  - pose proof (len_nonneg l1). pose proof (len_nonneg l2). lia.
  - rewrite !len_app. pose proof (len_nonneg l3). lia.
Qed.

Lemma len_PutUint64 (v : Z) : len (enc.PutUint64 v) = 8.
Proof. unfold len, enc.PutUint64. rewrite length_PutUint. reflexivity. Qed.

Lemma len_PutUint32 (v : Z) : len (enc.PutUint32 v) = 4.
Proof. unfold len, enc.PutUint32. rewrite length_PutUint. reflexivity. Qed.

Lemma Flush_ok (w : bufio.Writer) (f : File) :
  bufio.err w = None -> closed f = false ->
  bufio.Flush true w f
  = (bufio.mkWriter [] None, mkFile (Name f) (data f ++ bufio.pending w) false,
     None).
Proof.
  destruct w as [pend e], f as [name bs c]. cbn. intros -> ->.
  destruct pend; [rewrite app_nil_r|]; reflexivity.
Qed.

(** A writer that holds no bytes has nothing to hand to the device. *)
Lemma Flush_empty (dev : bool) (w : bufio.Writer) (f : File) :
  bufio.err w = None -> bufio.pending w = [] ->
  bufio.Flush dev w f = (w, f, None).
Proof.
  destruct w as [pend e]. cbn. intros -> ->. reflexivity.
Qed.

(** Bytes that the device refuses stay in the writer, and the file is
    as it was. *)
Lemma Flush_refused (w : bufio.Writer) (f : File) :
  bufio.err w = None -> closed f = false -> bufio.pending w <> [] ->
  bufio.Flush false w f
  = (bufio.mkWriter (bufio.pending w) (Some bufio.Refused), f, Some ErrDevice).
Proof.
  destruct w as [pend e], f as [name bs c]. cbn. intros -> -> Hp.
  destruct pend; [contradiction|reflexivity].
Qed.

(** A frame of the store, wherever it lies, is read at its position. *)
Lemma store_Read_frame (s : store.t) (pre b post : list byte) :
  bufio.err (store.buf s) = None ->
  closed (store.File_ s) = false ->
  data (store.File_ s) ++ bufio.pending (store.buf s)
  = pre ++ enc.PutUint64 (len b) ++ b ++ post ->
  len pre + 8 + len b < 2 ^ 63 ->
  store.Read true s (len pre) = (flushed s, (b, None)).
Proof.
  intros He Ho Hdata Hfit.
  pose proof (len_nonneg b) as Hb. pose proof (len_nonneg pre) as Hp.
  unfold store.Read. rewrite Flush_ok by assumption.
  fold (flushed s).
  unfold os.ReadAt, lenWidth. cbn [closed data].
  rewrite (int64_small (len pre)) by lia.
  destruct (len pre <? 0) eqn:E0; [apply Z.ltb_lt in E0; lia|].
  cbn [Z.eqb]. rewrite Hdata.
  rewrite <- (len_PutUint64 (len b)) at 1.
  rewrite slice_app_mid.
  rewrite Uint64_PutUint64 by lia.
  destruct (2 ^ 63 <=? len b) eqn:E1; [apply Z.leb_le in E1; lia|].
  rewrite (uint64_small (len pre + 8)) by lia.
  rewrite (int64_small (len pre + 8)) by lia.
  destruct (len pre + 8 <? 0) eqn:E2; [apply Z.ltb_lt in E2; lia|].
  destruct (len b =? 0) eqn:E3.
  - apply Z.eqb_eq in E3. destruct b; [reflexivity|].
    unfold len in E3. cbn in E3. lia.
  - replace (pre ++ enc.PutUint64 (len b) ++ b ++ post)
      with ((pre ++ enc.PutUint64 (len b)) ++ b ++ post)
      by (rewrite <- app_assoc; reflexivity).
    replace (len pre + 8) with (len (pre ++ enc.PutUint64 (len b)))
      by (rewrite len_app, len_PutUint64; reflexivity).
    rewrite slice_app_mid. reflexivity.
Qed.


(** A frame that was appended is read back at the position the append
    returned. *)
Lemma store_Read_Append (s : store.t) (b : list byte) :
  store_wf s ->
  store.size s + 8 + len b < 2 ^ 63 ->
  exists s1,
    store.Append true true s b = (s1, (8 + len b, store.size s, None))
    /\ store.size s1 = store.size s + 8 + len b
    /\ store_wf s1
    /\ store.Read true s1 (store.size s) = (flushed s1, (b, None)).
Proof.
  intros [Hsz Hr He Ho] Hfit.
  pose proof (len_nonneg b) as Hb.
  pose proof (len_nonneg (data (store.File_ s))) as Hd.
  pose proof (len_nonneg (bufio.pending (store.buf s))) as Hp.
  rewrite store_Append_ok by exact He.
  unfold lenWidth.
  rewrite (uint64_small (len b + 8)) by lia.
  rewrite (uint64_small (store.size s + (len b + 8))) by lia.
  rewrite (uint64_small (len b)) by lia.
  eexists. split; [do 3 f_equal; lia|].
  split; [cbn; lia|]. split.
  - constructor; cbn [store.size store.File_ store.buf bufio.pending bufio.err];
      try assumption; try reflexivity; [|lia].
    rewrite !len_app, len_PutUint64. lia.
  - rewrite Hsz, <- len_app.
    apply store_Read_frame with (post := []);
      cbn [store.size store.File_ store.buf bufio.pending bufio.err];
      try assumption; try reflexivity.
    + rewrite app_nil_r, <- !app_assoc. reflexivity.
    + rewrite len_app. lia.
Qed.

Lemma index_Write_None_room (i i' : index.t) (off pos : Z) :
  0 <= index.size i < 2 ^ 64 - 12 ->
  len (index.mmap i) < 2 ^ 64 ->
  index.Write i off pos = (i', None) ->
  index.size i + 12 <= len (index.mmap i).
Proof.
  intros Hs Hl. unfold index.Write, entWidth, offWidth, posWidth.
  change (4 + 8) with 12.
  rewrite (uint64_small (len (index.mmap i)))
    by (pose proof (len_nonneg (index.mmap i)); lia).
  rewrite (uint64_small (index.size i + 12)) by lia.
  destruct (len (index.mmap i) <? index.size i + 12) eqn:E; [discriminate|].
  apply Z.ltb_ge in E. intros _. exact E.
Qed.

Lemma slice_overwrite_entry (m : list byte) (a : Z) (b4 b8 : list byte) :
  0 <= a -> a + 12 <= len m -> len b4 = 4 -> len b8 = 8 ->
  slice (overwrite (overwrite m a b4) (a + 4) b8) a (a + 4) = Some b4
  /\ slice (overwrite (overwrite m a b4) (a + 4) b8) (a + 4) (a + 12) = Some b8.
Proof.
  intros Ha Hfit H4 H8.
  assert (L1 : length (overwrite m a b4) = length m)
    by (apply length_overwrite; lia).
  assert (L1' : len (overwrite m a b4) = len m) by (unfold len; congruence).
  split.
  - rewrite (slice_ext _ (overwrite m a b4)).
    + replace (a + 4) with (a + len b4) by lia.
      apply slice_overwrite_same; lia.
    + apply length_overwrite; lia.
    + intros j Hj. apply lookup_overwrite_lt; lia.
  - replace (a + 12) with (a + 4 + len b8) by lia.
    apply slice_overwrite_same; lia.
Qed.

(** The entry that was written is the one read back at its index. *)
Lemma index_Write_Read (i i' : index.t) (k off pos : Z) :
  index.size i = 12 * k -> 0 <= k < 2 ^ 32 ->
  len (index.mmap i) < 2 ^ 64 ->
  0 <= off < 2 ^ 32 -> 0 <= pos < 2 ^ 64 ->
  index.Write i off pos = (i', None) ->
  index.size i' = index.size i + 12
  /\ length (index.mmap i') = length (index.mmap i)
  /\ index.size i + 12 <= len (index.mmap i)
  /\ index.Read i' k = (off, pos, None).
Proof.
  intros Hsz Hk Hl Hoff Hpos HW.
  assert (Hroom := index_Write_None_room i i' off pos ltac:(lia) Hl HW).
  rewrite index_Write_ok in HW by lia.
  inversion HW; subst i'; clear HW. cbn [index.size index.mmap].
  split; [reflexivity|].
  split; [apply index_Write_mmap_length; lia|].
  split; [exact Hroom|].
  rewrite index_Read_unfold. unfold entry_of. cbn [index.size index.mmap].
  destruct (k =? -1) eqn:E1; [apply Z.eqb_eq in E1; lia|].
  rewrite (uint32_small k) by lia.
  destruct (index.size i + 12 =? 0) eqn:Ea; [apply Z.eqb_eq in Ea; lia|].
  destruct (index.size i + 12 <? k * 12 + 12) eqn:Ec;
    [apply Z.ltb_lt in Ec; lia|].
  replace (k * 12) with (index.size i) by lia.
  destruct (slice_overwrite_entry (index.mmap i) (index.size i)
              (enc.PutUint32 off) (enc.PutUint64 pos))
    as [S1 S2]; [lia|lia|apply len_PutUint32|apply len_PutUint64|].
  rewrite S1, S2.
  rewrite Uint32_PutUint32, Uint64_PutUint64 by lia. reflexivity.
Qed.

(** ** Appending to a segment and reading the record back *)

Section SegmentRoundTrip.
Context {codec : Codec} {laws : CodecLaws codec}.

(** When the store and the index take the record, the segment assigns
    its next offset, advances by one, and reads the record back at the
    offset it assigned. *)
Lemma segment_Append_Read (s s1 : segment.t) (r r1 : api.Record_) (o : Z) :
  segment_wf s ->
  (forall bytes,
      Marshal (api.mk (api.Value r) (segment.nextOffset s)) = Some bytes ->
      store.size (segment.store_ s) + 8 + len bytes < 2 ^ 63) ->
  segment.Append true true s r = (s1, r1, (o, None)) ->
  o = segment.nextOffset s
  /\ r1 = api.mk (api.Value r) o
  /\ segment.nextOffset s1 = o + 1
  /\ segment.baseOffset s1 = segment.baseOffset s
  /\ segment.config s1 = segment.config s
  /\ store.size (segment.store_ s) < store.size (segment.store_ s1)
  /\ index.size (segment.index_ s1) = index.size (segment.index_ s) + 12
  /\ (segment.nextOffset s1 < 2 ^ 64 - 1 -> segment_wf s1)
  /\ exists s2,
       segment.Read true s1 o = (s2, (Some r1, None))
       /\ segment.baseOffset s2 = segment.baseOffset s1
       /\ segment.nextOffset s2 = segment.nextOffset s1.
Proof.
  intros [Hst Hb Hn Hr Hent Hfit Hmm] Hsize.
  unfold segment.Append.
  destruct (Marshal (api.mk (api.Value r) (segment.nextOffset s)))
    as [bytes|] eqn:EM; [|discriminate].
  specialize (Hsize bytes eq_refl).
  destruct (store_Read_Append (segment.store_ s) bytes Hst Hsize)
    as (st1 & HA & Hsz1 & Hwf1 & HRd).
  rewrite HA.
  set (rel := segment.nextOffset s - segment.baseOffset s) in *.
  pose proof (len_nonneg bytes) as Hlb.
  destruct (index.Write (segment.index_ s) (uint32 (uint64 rel))
              (store.size (segment.store_ s)))
    as [idx1 [e|]] eqn:EW; [discriminate|].
  assert (Hrel : 0 <= rel < 2 ^ 32).
  { apply index_Write_None_room in EW; lia. }
  rewrite (uint64_small rel), (uint32_small rel) in EW by lia.
  assert (Hpos : 0 <= store.size (segment.store_ s) < 2 ^ 64).
  { destruct Hst as [Hs1 Hs2 _ _].
    pose proof (len_nonneg (data (store.File_ (segment.store_ s)))).
    pose proof (len_nonneg (bufio.pending (store.buf (segment.store_ s)))).
    lia. }
  destruct (index_Write_Read _ _ rel rel _ Hent Hrel ltac:(lia) Hrel Hpos EW)
    as (Hsz' & Hlen' & Hroom & HRi).
  rewrite (uint64_small (segment.nextOffset s + 1)) by lia.
  intros H. inversion H; subst s1 r1 o; clear H.
  cbn [segment.nextOffset segment.baseOffset segment.config segment.store_
       segment.index_].
  split; [reflexivity|]. split; [reflexivity|]. split; [reflexivity|].
  split; [reflexivity|]. split; [reflexivity|].
  split; [lia|]. split; [exact Hsz'|]. split.
  - intros Hr'. constructor;
      cbn [segment.nextOffset segment.baseOffset segment.config segment.store_
           segment.index_]; try assumption; try lia.
    unfold len in *. rewrite Hlen'. lia.
    unfold len in *. rewrite Hlen'. lia.
  - unfold segment.Read.
    cbn [segment.nextOffset segment.baseOffset segment.config segment.store_
         segment.index_].
    fold rel. rewrite (uint64_small rel) by lia.
    rewrite (int64_small rel) by lia. rewrite HRi, HRd.
    rewrite (Unmarshal_Marshal
               (api.mk (api.Value r) (segment.nextOffset s)) bytes
               ltac:(cbn; lia) EM ltac:(lia)).
    eexists. split; [reflexivity|]. split; reflexivity.
Qed.

End SegmentRoundTrip.

(** ** The active segment and the list of segments *)

Lemma segment_newSegment_base (d d' : disk) (off : Z) (c : Config)
    (seg : segment.t) (e : option error) :
  segment.newSegment d off c = (d', Some seg, e) ->
  e = None /\ segment.baseOffset seg = off /\ segment.config seg = c.
Proof.
  unfold segment.newSegment.
  destruct (os.OpenFile d _) as [d1 sf].
  destruct (os.OpenFile d1 _) as [d2 xf].
  destruct (index.newIndex d2 xf (MaxIndexBytes c)) as [[d3 [idx|]] [e1|]];
    try discriminate.
  destruct (index.Read idx (-1)) as [[o1 p1] [[]|]];
    intros H; inversion H; subst; auto.
Qed.

Lemma Log_newSegment_ok (w w' : Log.world) (lg lg' : Log.t) (off : Z) :
  Log.newSegment w lg off = (w', lg', None) ->
  exists seg,
    Log.mem w' = Log.mem w ++ [seg]
    /\ Log.segments lg' = Log.segments lg ++ [length (Log.mem w)]
    /\ Log.activeSegment lg' = Some (length (Log.mem w))
    /\ Log.Config_ lg' = Log.Config_ lg
    /\ segment.baseOffset seg = off
    /\ segment.config seg = Log.Config_ lg.
Proof.
  unfold Log.newSegment.
  destruct (segment.newSegment (Log.files w) off (Log.Config_ lg))
    as [[d [seg|]] e] eqn:E.
  - apply segment_newSegment_base in E as (-> & Hb & Hc).
    intros H. inversion H; subst. exists seg. cbn.
    repeat split; first [reflexivity | assumption].
  - destruct e; intros H; inversion H.
    (* no segment and no error does not happen *)
    subst. exfalso. revert E. unfold segment.newSegment.
    destruct (os.OpenFile _ _) as [d1 sf].
    destruct (os.OpenFile d1 _) as [d2 xf].
    unfold index.newIndex.
    destruct (int64 _ <? 0); [discriminate|].
    destruct (int64 _ =? 0); [discriminate|].
    destruct (index.Read _ (-1)) as [[o1 p1] [[]|]]; discriminate.
Qed.

Lemma Log_newSegment_active (w w' : Log.world) (lg lg' : Log.t) (off : Z)
    (e : option error) :
  active_is_last lg ->
  Log.newSegment w lg off = (w', lg', e) ->
  active_is_last lg'.
Proof.
  intros Hal. destruct e as [e|].
  - unfold Log.newSegment.
    destruct (segment.newSegment _ _ _) as [[d [seg|]] e1] eqn:E.
    + apply segment_newSegment_base in E as (-> & _). discriminate.
    + intros H. inversion H; subst. exact Hal.
  - intros H. apply Log_newSegment_ok in H as (seg & _ & Hs & Ha & _).
    unfold active_is_last. rewrite Ha, Hs. symmetry. apply last_snoc.
Qed.

Lemma setup_loop_active (offs : list Z) :
  forall (w w' : Log.world) (lg lg' : Log.t) (e : option error),
    active_is_last lg ->
    Log.setup_loop offs w lg = (w', lg', e) ->
    active_is_last lg'.
Proof.
  (* the loop steps by two: the claim is carried for a list and for the
     list with one more element in front *)
  enough (Hboth :
    (forall w w' lg lg' e, active_is_last lg ->
       Log.setup_loop offs w lg = (w', lg', e) -> active_is_last lg')
    /\ (forall x w w' lg lg' e, active_is_last lg ->
          Log.setup_loop (x :: offs) w lg = (w', lg', e) -> active_is_last lg'))
    by apply Hboth.
  induction offs as [|y offs [IH1 IH2]].
  - split.
    + intros w w' lg lg' e Hal H. inversion H; subst. exact Hal.
    + intros x w w' lg lg' e Hal. cbn.
      destruct (Log.newSegment w lg x) as [[w1 lg1] e1] eqn:EN.
      apply Log_newSegment_active in EN; [|exact Hal].
      destruct e1; intros H; inversion H; subst; exact EN.
  - split; [exact (IH2 y)|].
    intros x w w' lg lg' e Hal. cbn [Log.setup_loop].
    destruct (Log.newSegment w lg x) as [[w1 lg1] e1] eqn:EN.
    apply Log_newSegment_active in EN; [|exact Hal].
    destruct e1; [intros H; inversion H; subst; exact EN|].
    apply IH1. exact EN.
Qed.

(** After [setup], and so after [NewLog], the active segment is the
    last of the list. *)
Lemma setup_active (w w' : Log.world) (lg lg' : Log.t) (e : option error) :
  active_is_last lg ->
  Log.setup w lg = (w', lg', e) ->
  active_is_last lg'.
Proof.
  intros Hal. unfold Log.setup.
  destruct (Log.setup_loop _ w lg) as [[w1 lg1] e1] eqn:EL.
  apply setup_loop_active in EL; [|exact Hal].
  destruct e1; [intros H; inversion H; subst; exact EL|].
  destruct (Log.segments lg1) eqn:ES.
  - intros H. eapply Log_newSegment_active; eauto.
  - intros H. inversion H; subst. exact EL.
Qed.

Lemma NewLog_active (w w' : Log.world) (dir : string) (c : Config)
    (lg' : Log.t) (e : option error) :
  Log.NewLog w dir c = (w', lg', e) -> active_is_last lg'.
Proof.
  unfold Log.NewLog. apply setup_active. reflexivity.
Qed.

Section LogAppend.
Context {codec : Codec}.

(** [Append] keeps the active segment at the end of the list. *)
Lemma Log_Append_active (dl dd : bool) (w w' : Log.world) (lg lg' : Log.t)
    (r r' : api.Record_) (res : Z * option error) :
  active_is_last lg ->
  Log.Append dl dd w lg r = (w', lg', r', res) ->
  active_is_last lg'.
Proof.
  intros Hal. unfold Log.Append.
  destruct (Log.activeSegment lg) as [p|];
    [|intros H; inversion H; subst; exact Hal].
  destruct (Log.deref w p) as [seg|];
    [|intros H; inversion H; subst; exact Hal].
  destruct (segment.Append dl dd seg r) as [[seg1 r1] [o [e|]]];
    [intros H; inversion H; subst; exact Hal|].
  destruct (segment.IsMaxed seg1);
    [|intros H; inversion H; subst; exact Hal].
  destruct (Log.newSegment _ lg _) as [[w2 lg2] e2] eqn:EN.
  intros H. inversion H; subst. eapply Log_newSegment_active; eauto.
Qed.

End LogAppend.

(** [Truncate] keeps the active segment at the end of the list as long
    as it keeps the active segment. *)
Lemma Truncate_active (w w' : Log.world) (lg lg' : Log.t) (lowest : Z)
    (p : Log.ptr) :
  active_is_last lg ->
  Log.activeSegment lg = Some p ->
  kept w lowest p = true ->
  Log.Truncate true w lg lowest = (w', lg', None) ->
  active_is_last lg'.
Proof.
  intros Hal Ha Hk. unfold Log.Truncate.
  destruct (Log.Truncate_loop true _ _ _ _) as [[w1 res] [e|]] eqn:EL;
    [discriminate|].
  apply Truncate_loop_ok in EL as (-> & _ & _).
  intros H. inversion H; subst. unfold active_is_last in *. cbn.
  rewrite Ha in *. symmetry in Hal. apply last_Some in Hal as [l Hl].
  rewrite Hl, List.filter_app. cbn. rewrite Hk. symmetry. apply last_snoc.
Qed.

(** ** Appending to the log and reading the record back *)

Lemma deref_set_same (w : Log.world) (p : Log.ptr) (s s1 : segment.t) :
  Log.deref w p = Some s -> Log.deref (Log.set w p s1) p = Some s1.
Proof.
  unfold Log.deref, Log.set. cbn. intros H.
  apply list_lookup_insert_eq. eapply lookup_lt_Some; eauto.
Qed.

Lemma deref_set_other (w : Log.world) (p q : Log.ptr) (s1 : segment.t) :
  p <> q -> Log.deref (Log.set w p s1) q = Log.deref w q.
Proof.
  unfold Log.deref, Log.set. cbn. intros H.
  apply list_lookup_insert_ne. exact H.
Qed.

Lemma Log_newSegment_mem (w w' : Log.world) (lg lg' : Log.t) (off : Z)
    (e : option error) (q : Log.ptr) :
  Log.newSegment w lg off = (w', lg', e) ->
  (q < length (Log.mem w))%nat ->
  Log.deref w' q = Log.deref w q.
Proof.
  unfold Log.newSegment, Log.deref.
  destruct (segment.newSegment _ _ _) as [[d [seg|]] [e1|]];
    intros H Hq; inversion H; subst; cbn; try reflexivity.
  apply lookup_app_l. exact Hq.
Qed.

Section LogAppendFrame.
Context {codec : Codec}.

(** Only the active segment receives an append: every other segment that
    exists is left as it was. *)
Lemma Log_Append_only_active (dl dd : bool) (w w' : Log.world)
    (lg lg' : Log.t) (r r' : api.Record_) (res : Z * option error)
    (p q : Log.ptr) :
  Log.activeSegment lg = Some p ->
  q <> p ->
  (q < length (Log.mem w))%nat ->
  Log.Append dl dd w lg r = (w', lg', r', res) ->
  Log.deref w' q = Log.deref w q.
Proof.
  intros Ha Hne Hq. unfold Log.Append. rewrite Ha.
  destruct (Log.deref w p) as [seg|];
    [|intros H; inversion H; subst; reflexivity].
  assert (Hset : forall s1, Log.deref (Log.set w p s1) q = Log.deref w q)
    by (intros s1; apply deref_set_other; congruence).
  destruct (segment.Append dl dd seg r) as [[seg1 r1] [o [e|]]];
    [intros H; inversion H; subst; apply Hset|].
  destruct (segment.IsMaxed seg1);
    [|intros H; inversion H; subst; apply Hset].
  destruct (Log.newSegment _ lg _) as [[w2 lg2] e2] eqn:EN.
  intros H. inversion H; subst.
  rewrite (Log_newSegment_mem _ _ _ _ _ _ q EN); [apply Hset|].
  unfold Log.set. cbn. rewrite length_insert. exact Hq.
Qed.

End LogAppendFrame.

Section LogRoundTrip.
Context {codec : Codec} {laws : CodecLaws codec}.

Lemma find_snoc (w : Log.world) (lg : Log.t) (l : list Log.ptr) (p : Log.ptr)
    (offset : Z) :
  Log.segments lg = l ++ [p] ->
  covers w offset p = true ->
  Log.find w lg offset = Some p.
Proof.
  intros Hs Hc. unfold Log.find. rewrite find_foldl, Hs, foldl_snoc, Hc.
  reflexivity.
Qed.

Lemma find_snoc2 (w : Log.world) (lg : Log.t) (l : list Log.ptr)
    (p q : Log.ptr) (offset : Z) :
  Log.segments lg = (l ++ [p]) ++ [q] ->
  covers w offset p = true ->
  covers w offset q = false ->
  Log.find w lg offset = Some p.
Proof.
  intros Hs Hc Hq. unfold Log.find.
  rewrite find_foldl, Hs, !foldl_snoc, Hc, Hq. reflexivity.
Qed.

(** When the device takes the record, [Append] returns the next offset
    of the active segment, and a [Read] of that offset returns the
    record with its payload. *)
Lemma Log_Append_Read (w w' : Log.world) (lg lg' : Log.t)
    (r r' : api.Record_) (o : Z) (p : Log.ptr) (seg : segment.t) :
  active_is_last lg ->
  Log.activeSegment lg = Some p ->
  Log.deref w p = Some seg ->
  segment_wf seg ->
  (forall bytes,
      Marshal (api.mk (api.Value r) (segment.nextOffset seg)) = Some bytes ->
      store.size (segment.store_ seg) + 8 + len bytes < 2 ^ 63) ->
  Log.Append true true w lg r = (w', lg', r', (o, None)) ->
  o = segment.nextOffset seg
  /\ r' = api.mk (api.Value r) o
  /\ exists w'', Log.Read true w' lg' o = (w'', (Some r', None)).
Proof.
  intros Hal Ha Hd Hwf Hsize. unfold Log.Append. rewrite Ha, Hd.
  destruct (segment.Append true true seg r) as [[seg1 r1] [o1 [e|]]] eqn:EA;
    [discriminate|].
  destruct (segment_Append_Read seg seg1 r r1 o1 Hwf Hsize EA)
    as (Ho & Hr & Hn1 & Hb1 & _ & _ & _ & _ & s2 & HR & _).
  pose proof Hwf as [_ Hb Hn Hrg _ _ _].
  assert (Hc1 : forall w0, Log.deref w0 p = Some seg1 -> covers w0 o1 p = true).
  { intros w0 H0. unfold covers. rewrite H0, Hb1, Hn1.
    apply andb_true_intro. split; [apply Z.leb_le|apply Z.ltb_lt]; lia. }
  assert (Hread : forall w0 lg0,
             Log.find w0 lg0 o1 = Some p -> Log.deref w0 p = Some seg1 ->
             exists w'', Log.Read true w0 lg0 o1 = (w'', (Some r1, None))).
  { intros w0 lg0 Hf H0. unfold Log.Read. rewrite Hf, H0, Hn1.
    destruct (o1 + 1 <=? o1) eqn:E; [apply Z.leb_le in E; lia|].
    rewrite HR. eauto. }
  unfold active_is_last in Hal. rewrite Ha in Hal. symmetry in Hal.
  apply last_Some in Hal as [l Hl].
  pose proof (deref_set_same w p seg seg1 Hd) as Hd1.
  destruct (segment.IsMaxed seg1).
  - destruct (Log.newSegment (Log.set w p seg1) lg (uint64 (o1 + 1)))
      as [[w2 lg2] e2] eqn:EN.
    intros H.
    assert (w2 = w' /\ lg2 = lg' /\ r1 = r' /\ o1 = o /\ e2 = None)
      as (-> & -> & <- & <- & ->) by (inversion H; auto).
    clear H.
    apply Log_newSegment_ok in EN as (segn & Hm & Hs & _ & _ & Hbn & _).
    split; [exact Ho|]. split; [exact Hr|].
    assert (Hd2 : Log.deref w' p = Some seg1).
    { unfold Log.deref in *. rewrite Hm. apply lookup_app_l_Some. exact Hd1. }
    apply Hread; [|exact Hd2].
    apply find_snoc2 with (l := l) (q := length (Log.mem (Log.set w p seg1))).
    + rewrite Hs, Hl. reflexivity.
    + apply Hc1, Hd2.
    + unfold covers, Log.deref. rewrite Hm.
      rewrite lookup_app_r by lia. rewrite Nat.sub_diag. cbn.
      rewrite Hbn, uint64_small by lia.
      destruct (o1 + 1 <=? o1) eqn:E; [apply Z.leb_le in E; lia|reflexivity].
  - intros H.
    assert (Log.set w p seg1 = w' /\ lg = lg' /\ r1 = r' /\ o1 = o)
      as (<- & <- & <- & <-) by (inversion H; auto).
    clear H.
    split; [exact Ho|]. split; [exact Hr|].
    apply Hread; [|exact Hd1].
    apply find_snoc with (l := l); [exact Hl|]. apply Hc1, Hd1.
Qed.

End LogRoundTrip.

(** ** A log on an empty directory: the offsets it assigns *)

Lemma String_length_app (a b : string) :
  String.length (a +:+ b) = (String.length a + String.length b)%nat.
Proof. induction a as [|c a IH]; simpl; [reflexivity|]. now rewrite IH. Qed.

(** Two names with suffixes of the same length are equal only if their
    stems are. *)
Lemma String_app_inj_l (a b s s' : string) :
  String.length s = String.length s' ->
  a +:+ s = b +:+ s' -> a = b.
Proof.
  intros Hlen. revert b. induction a as [|c a IH]; intros [|c' b] H.
  - reflexivity.
  - apply (f_equal String.length) in H.
    rewrite !String_length_app in H. simpl in H. lia.
  - apply (f_equal String.length) in H.
    rewrite !String_length_app in H. simpl in H. lia.
  - change (String c (a +:+ s) = String c' (b +:+ s')) in H.
    injection H as -> H. f_equal. apply IH. exact H.
Qed.

Lemma file_name_ne (k k' : Z) (s s' : string) :
  String.length s = String.length s' ->
  k <> k' -> pretty k +:+ s <> pretty k' +:+ s'.
Proof.
  intros Hlen Hne H. apply String_app_inj_l in H; [|exact Hlen].
  apply Hne. exact (pretty_Z_inj _ _ H).
Qed.

Lemma store_index_name_ne (k : Z) :
  pretty k +:+ ".store" <> pretty k +:+ ".index".
Proof. intros H. apply String.app_inj in H. discriminate. Qed.

Lemma len_resize (n : Z) (l : list byte) : 0 <= n -> len (resize n l) = n.
Proof.
  intros Hn. unfold len, resize.
  rewrite length_app, length_take, length_replicate. lia.
Qed.

(** A segment created where no file of its name exists is empty and in
    order, and only its two files are added to the directory. *)
Lemma segment_newSegment_fresh (d : disk) (off : Z) (c : Config) :
  d !! (pretty off +:+ ".store") = None ->
  d !! (pretty off +:+ ".index") = None ->
  0 < MaxIndexBytes c <= 12 * 2 ^ 32 ->
  0 <= off < 2 ^ 64 - 1 ->
  exists d' seg,
    segment.newSegment d off c = (d', Some seg, None)
    /\ segment_wf seg
    /\ segment.nextOffset seg = off
    /\ segment.baseOffset seg = off
    /\ segment.config seg = c
    /\ store.size (segment.store_ seg) = 0
    /\ (forall name,
          name <> pretty off +:+ ".store" -> name <> pretty off +:+ ".index" ->
          d' !! name = d !! name).
Proof.
  intros Hs Hi HM Hoff. unfold segment.newSegment, os.OpenFile.
  rewrite Hs. cbv beta iota zeta.
  rewrite lookup_insert_ne by apply store_index_name_ne. rewrite Hi.
  cbv beta iota zeta.
  unfold index.newIndex. cbn [data Name].
  rewrite (int64_small (MaxIndexBytes c)) by lia.
  destruct (MaxIndexBytes c <? 0) eqn:E0; [apply Z.ltb_lt in E0; lia|].
  destruct (MaxIndexBytes c =? 0) eqn:E1; [apply Z.eqb_eq in E1; lia|].
  unfold index.Read at 1. cbn [index.size].
  change (uint64 (len [])) with 0. cbn [Z.eqb].
  eexists _, _. split; [reflexivity|].
  split; [|split; [reflexivity|split; [reflexivity|split; [reflexivity|
           split; [reflexivity|]]]]].
  - constructor; cbn [segment.store_ segment.index_ segment.baseOffset
                      segment.nextOffset index.size index.mmap]; try lia.
    + constructor; cbn; try reflexivity; lia.
    + rewrite len_resize by lia. lia.
    + rewrite len_resize by lia. lia.
  - intros name Hn1 Hn2.
    rewrite !lookup_insert_ne by (intros Heq; symmetry in Heq; contradiction).
    reflexivity.
Qed.

Section LogStep.
Context {codec : Codec} {laws : CodecLaws codec}.

(** The outcomes of [segment.Append] when the device takes the bytes:
    the record is appended under the next offset, or the append fails
    and the next offset stays. *)
Lemma segment_Append_cases (s s1 : segment.t) (r r1 : api.Record_) (o : Z)
    (e : option error) :
  segment_wf s ->
  (forall bytes,
      Marshal (api.mk (api.Value r) (segment.nextOffset s)) = Some bytes ->
      store.size (segment.store_ s) + 8 + len bytes < 2 ^ 63) ->
  segment.Append true true s r = (s1, r1, (o, e)) ->
  segment.baseOffset s1 = segment.baseOffset s
  /\ segment.config s1 = segment.config s
  /\ store.size (segment.store_ s1)
     <= store.size (segment.store_ s) + frame_size r (segment.nextOffset s)
  /\ match e with
     | None => o = segment.nextOffset s
               /\ segment.nextOffset s1 = segment.nextOffset s + 1
               /\ (segment.nextOffset s1 < 2 ^ 64 - 1 -> segment_wf s1)
     | Some _ => segment.nextOffset s1 = segment.nextOffset s /\ segment_wf s1
     end.
Proof.
  intros Hwf Hsize HA.
  assert (Hsz : store.size (segment.store_ s1)
                <= store.size (segment.store_ s)
                   + frame_size r (segment.nextOffset s)).
  { revert HA. unfold segment.Append, frame_size.
    destruct (Marshal _) as [bytes|] eqn:EM.
    - specialize (Hsize bytes eq_refl).
      destruct (store_Read_Append (segment.store_ s) bytes
                  (gwf_store _ Hwf) Hsize) as (st1 & HS & Hsz1 & _).
      rewrite HS.
      destruct (index.Write _ _ _) as [idx [e1|]];
        intros H; inversion H; subst; cbn; lia.
    - intros H. inversion H; subst. lia. }
  destruct e as [e|].
  - revert HA. unfold segment.Append.
    destruct (Marshal _) as [bytes|] eqn:EM.
    + specialize (Hsize bytes eq_refl).
      pose proof Hwf as [Hst Hb Hn Hr Hent Hfit Hmm].
      destruct (store_Read_Append (segment.store_ s) bytes Hst Hsize)
        as (st1 & HS & Hsz1 & Hwf1 & _).
      rewrite HS.
      destruct (index.Write _ _ _) as [idx [e1|]] eqn:EW; [|discriminate].
      intros H. inversion H; subst; clear H. cbn.
      split; [reflexivity|]. split; [reflexivity|].
      split; [exact Hsz|]. split; [reflexivity|].
      assert (idx = segment.index_ s) as ->.
      { revert EW. unfold index.Write.
        destruct (_ <? _); [intros H; inversion H; reflexivity|].
        destruct (slice _ _ _); [|intros H; inversion H; reflexivity].
        destruct (slice _ _ _); intros H; inversion H; reflexivity. }
      constructor; cbn; assumption.
    + intros H. inversion H; subst; clear H. auto.
  - destruct (segment_Append_Read s s1 r r1 o Hwf Hsize HA)
      as (Ho & _ & Hn1 & Hb1 & Hc1 & _ & _ & Hwf1 & _).
    split; [exact Hb1|]. split; [exact Hc1|]. split; [exact Hsz|].
    split; [exact Ho|]. split; [lia|exact Hwf1].
Qed.

(** One step of the log.  In a state that assigns [n] next, an append
    the device takes either succeeds, returns [n] and leaves a state
    that assigns [n + 1], or fails and leaves a state that still
    assigns [n]; the store of the active segment grows by one frame at
    most. *)
Lemma Log_Append_step (n : Z) (w w' : Log.world) (lg lg' : Log.t)
    (r r' : api.Record_) (o : Z) (e : option error) :
  log_inv n w lg ->
  n < 2 ^ 64 - 2 ->
  active_store_size w lg + frame_size r n < 2 ^ 63 ->
  Log.Append true true w lg r = (w', lg', r', (o, e)) ->
  active_store_size w' lg' <= active_store_size w lg + frame_size r n
  /\ match e with
     | None => o = n /\ log_inv (n + 1) w' lg'
     | Some _ => log_inv n w' lg'
     end.
Proof.
  intros (p & seg & Hal & Ha & Hd & Hwf & Hn & Hc & HM & Hfresh & Hall)
    Hrange Hsize.
  unfold Log.Append. rewrite Ha, Hd.
  assert (Hact : active_store_size w lg = store.size (segment.store_ seg))
    by (unfold active_store_size; rewrite Ha; cbn; rewrite Hd; reflexivity).
  rewrite Hact in *.
  assert (Hf0 : 0 <= frame_size r n).
  { unfold frame_size. destruct (Marshal _) as [bs|]; [|lia].
    pose proof (len_nonneg bs). lia. }
  destruct (segment.Append true true seg r) as [[seg1 r1] [o1 e1]] eqn:EA.
  assert (Hsz : forall bytes,
             Marshal (api.mk (api.Value r) (segment.nextOffset seg)) = Some bytes ->
             store.size (segment.store_ seg) + 8 + len bytes < 2 ^ 63).
  { intros bytes HMb. rewrite Hn in HMb. unfold frame_size in Hsize.
    rewrite HMb in Hsize. lia. }
  destruct (segment_Append_cases seg seg1 r r1 o1 e1 Hwf Hsz EA)
    as (Hb1 & Hc1 & Hs1 & Hcase).
  rewrite Hn in Hs1.
  pose proof (deref_set_same w p seg seg1 Hd) as Hd1.
  assert (Hall1 : forall q s,
             q ∈ Log.segments lg -> Log.deref (Log.set w p seg1) q = Some s ->
             segment.nextOffset s <= Z.max n (segment.nextOffset seg1)).
  { intros q s Hq Hs. destruct (decide (p = q)) as [<-|Hne].
    - rewrite Hd1 in Hs. inversion Hs; subst. lia.
    - rewrite deref_set_other in Hs by exact Hne.
      specialize (Hall q s Hq Hs). lia. }
  assert (Hact1 : forall lg0, Log.activeSegment lg0 = Some p ->
             active_store_size (Log.set w p seg1) lg0
             = store.size (segment.store_ seg1)).
  { intros lg0 H0. unfold active_store_size. rewrite H0. cbn.
    rewrite Hd1. reflexivity. }
  destruct e1 as [e1|].
  - intros H. inversion H; subst; clear H.
    split; [rewrite (Hact1 _ Ha); exact Hs1|].
    destruct Hcase as [Hn1 Hwf1].
    exists p, seg1.
    split; [exact Hal|]. split; [exact Ha|]. split; [exact Hd1|].
    split; [exact Hwf1|]. split; [exact Hn1|]. split; [congruence|].
    split; [exact HM|].
    split; [cbn [Log.set Log.files]; rewrite Hb1; exact Hfresh|].
    intros q s Hq Hs. specialize (Hall1 q s Hq Hs). lia.
  - destruct Hcase as (Ho1 & Hn1 & Hwf1).
    specialize (Hwf1 ltac:(lia)).
    pose proof Hwf as [_ Hb0 Hbn _ _ _ _].
    destruct (segment.IsMaxed seg1).
    + destruct (Hfresh (o1 + 1) ltac:(lia)) as [Hfs Hfi].
      destruct (segment_newSegment_fresh (Log.files w) (o1 + 1)
                  (Log.Config_ lg) Hfs Hfi HM ltac:(lia))
        as (d' & segn & HN & Hwfn & Hnn & Hbn' & Hcn & Hsn & Hd').
      unfold Log.newSegment. cbn [Log.set Log.files Log.mem].
      rewrite (uint64_small (o1 + 1)) by lia. rewrite HN.
      intros H. inversion H; subst w' lg' r' o e; clear H.
      assert (Hdn : Log.deref
                (Log.mkWorld (<[p:=seg1]> (Log.mem w) ++ [segn]) d')
                (length (<[p:=seg1]> (Log.mem w))) = Some segn).
      { unfold Log.deref. cbn. rewrite lookup_app_r by lia.
        rewrite Nat.sub_diag. reflexivity. }
      split.
      { unfold active_store_size at 1. cbn [Log.activeSegment]. cbn [mbind option_bind].
        rewrite Hdn, Hsn.
        destruct Hwf as [[Hq _ _ _] _ _ _ _ _ _].
        pose proof (len_nonneg (data (store.File_ (segment.store_ seg)))).
        pose proof (len_nonneg (bufio.pending (store.buf (segment.store_ seg)))).
        lia. }
      split; [lia|].
      exists (length (<[p:=seg1]> (Log.mem w))), segn.
      split; [unfold active_is_last; cbn; symmetry; apply last_snoc|].
      split; [reflexivity|]. split; [exact Hdn|].
      split; [exact Hwfn|]. split; [lia|]. split; [exact Hcn|].
      split; [exact HM|]. split.
      { intros k Hk. cbn [Log.files]. rewrite Hbn' in Hk.
        rewrite !Hd' by (apply file_name_ne; [reflexivity|lia]).
        apply Hfresh. lia. }
      intros q s Hq Hs. cbn [Log.segments] in Hq.
      apply elem_of_app in Hq as [Hq|Hq].
      * destruct (decide (q < length (<[p:=seg1]> (Log.mem w)))%nat) as [Hlt|Hge].
        -- unfold Log.deref in Hs. cbn [Log.mem] in Hs.
           rewrite lookup_app_l in Hs by exact Hlt.
           specialize (Hall1 q s Hq Hs). lia.
        -- unfold Log.deref in Hs. cbn [Log.mem] in Hs.
           rewrite lookup_app_r in Hs by lia.
           destruct (q - length (<[p:=seg1]> (Log.mem w)))%nat;
             [|destruct n0; discriminate].
           inversion Hs; subst. lia.
      * apply list_elem_of_singleton in Hq. subst q.
        rewrite Hdn in Hs. inversion Hs; subst. lia.
    + intros H. inversion H; subst; clear H.
      split; [rewrite (Hact1 _ Ha); exact Hs1|].
      split; [reflexivity|].
      exists p, seg1.
      split; [exact Hal|]. split; [exact Ha|]. split; [exact Hd1|].
      split; [exact Hwf1|]. split; [lia|]. split; [congruence|].
      split; [exact HM|].
      split; [cbn [Log.set Log.files]; rewrite Hb1; exact Hfresh|].
      intros q s Hq Hs. specialize (Hall1 q s Hq Hs). lia.
Qed.

Lemma offsets_cons (o : Z) (e : option error) (rest : list (Z * option error)) :
  offsets ((o, e) :: rest)
  = match e with None => o :: offsets rest | Some _ => offsets rest end.
Proof. destruct e; reflexivity. Qed.

(** The offsets of a run of appends.  From a state that assigns [n]
    next, on a device that takes every write, the appends that succeed
    return [n], [n + 1], [n + 2], ... in this order. *)
Lemma appends_offsets (B : Z) (rs : list api.Record_) :
  (forall r k, r ∈ rs -> frame_size r k <= B) ->
  forall (n : Z) (w : Log.world) (lg : Log.t),
    log_inv n w lg ->
    n + len rs < 2 ^ 64 - 1 ->
    active_store_size w lg + len rs * B < 2 ^ 63 ->
    offsets (appends w lg rs)
    = seqZ n (len (offsets (appends w lg rs))).
Proof.
  induction rs as [|r rs IH]; intros HB n w lg Hinv Hn HS; [reflexivity|].
  assert (HB0 : 0 <= B).
  { specialize (HB r 0 ltac:(left)). unfold frame_size in HB.
    destruct (Marshal _) as [bs|]; [pose proof (len_nonneg bs)|]; lia. }
  assert (Hlen : len (r :: rs) = 1 + len rs) by (unfold len; cbn; lia).
  rewrite Hlen in *. pose proof (len_nonneg rs) as Hl0.
  cbn [appends].
  destruct (Log.Append true true w lg r) as [[[w' lg'] r'] [o e]] eqn:EA.
  pose proof (HB r n ltac:(left)) as HBr.
  destruct (Log_Append_step n w w' lg lg' r r' o e Hinv ltac:(lia)
              ltac:(nia) EA) as [Hsz Hcase].
  assert (HB' : forall r0 k, r0 ∈ rs -> frame_size r0 k <= B)
    by (intros r0 k H0; apply HB; right; exact H0).
  rewrite offsets_cons.
  destruct e as [e|].
  - apply IH; [exact HB'|exact Hcase|lia|nia].
  - destruct Hcase as [-> Hinv'].
    pose proof (IH HB' (n + 1) w' lg' Hinv' ltac:(lia) ltac:(nia)) as IHm.
    set (m := offsets (appends w' lg' rs)) in *.
    replace (len (n :: m)) with (Z.succ (len m)) by (unfold len; cbn; lia).
    rewrite (seqZ_cons n (Z.succ (len m))) by (pose proof (len_nonneg m); lia).
    rewrite Z.pred_succ. f_equal. exact IHm.
Qed.

End LogStep.

(** [NewLog] on an empty directory: the log assigns the initial offset
    of its configuration next. *)
Lemma NewLog_inv (dir : string) (c : Config) :
  0 <= MaxIndexBytes c <= 12 * 2 ^ 32 ->
  0 <= InitialOffset c < 2 ^ 64 - 1 ->
  exists w lg,
    Log.NewLog (Log.mkWorld [] ∅) dir c = (w, lg, None)
    /\ log_inv (InitialOffset c) w lg
    /\ Log.segments lg = [0%nat]
    /\ active_store_size w lg = 0.
Proof.
  intros HM HI. unfold Log.NewLog, Log.setup.
  cbn [Log.files Log.mem MaxStoreBytes MaxIndexBytes InitialOffset].
  rewrite map_to_list_empty. cbn [fmap list_fmap]. cbn.
  set (c' := mkConfig _ _ _).
  assert (HM' : 0 < MaxIndexBytes c' <= 12 * 2 ^ 32).
  { subst c'. cbn. destruct (MaxIndexBytes c =? 0) eqn:E; [lia|].
    apply Z.eqb_neq in E. lia. }
  destruct (segment_newSegment_fresh ∅ (InitialOffset c) c'
              (lookup_empty _) (lookup_empty _) HM' HI)
    as (d' & seg & HN & Hwf & Hn & Hb & Hc & Hs0 & Hd').
  unfold Log.newSegment. cbn [Log.files Log.mem Log.Config_ InitialOffset].
  change (InitialOffset c') with (InitialOffset c). rewrite HN.
  eexists _, _. split; [reflexivity|].
  split; [|split; [reflexivity|exact Hs0]].
  exists 0%nat, seg.
  split; [reflexivity|]. split; [reflexivity|]. split; [reflexivity|].
  split; [exact Hwf|]. split; [exact Hn|]. split; [exact Hc|].
  split; [exact HM'|]. split.
  { intros k Hk. cbn [Log.files]. rewrite Hb in Hk.
    rewrite !Hd' by (apply file_name_ne; [reflexivity|lia]).
    split; apply lookup_empty. }
  intros q s Hq Hs. cbn [Log.segments app] in Hq.
  apply list_elem_of_singleton in Hq. subst q.
  unfold Log.deref in Hs. cbn in Hs. inversion Hs; subst. lia.
Qed.

(** In such a state [HighestOffset] is the offset assigned last, and a
    read at or above the next offset is out of range. *)
Lemma log_inv_HighestOffset (n : Z) (w : Log.world) (lg : Log.t) :
  log_inv n w lg ->
  Log.HighestOffset w lg = (if n =? 0 then 0 else n - 1, None).
Proof.
  intros (p & seg & Hal & Ha & Hd & Hwf & Hn & _).
  unfold active_is_last in Hal. rewrite Ha in Hal. symmetry in Hal.
  rewrite (HighestOffset_last w lg p seg Hal Hd), Hn; [reflexivity|].
  destruct Hwf as [_ Hb Hbn Hr _ _ _]. lia.
Qed.

Lemma log_inv_Read_beyond {codec : Codec} (n k : Z) (w : Log.world)
    (lg : Log.t) :
  log_inv n w lg -> 0 <= k ->
  Log.Read true w lg (n + k) = (w, (None, Some (Log.outOfRange (n + k)))).
Proof.
  intros (p & seg & _ & _ & _ & _ & _ & _ & _ & _ & Hall) Hk.
  apply Log_Read_not_covered. intros (q & Hq & Hc). unfold covers in Hc.
  destruct (Log.deref w q) as [s|] eqn:Hs; [|discriminate].
  apply andb_prop in Hc as [_ Hlt]. apply Z.ltb_lt in Hlt.
  specialize (Hall q s Hq Hs). lia.
Qed.

Section FreshLog.
Context {codec : Codec} {laws : CodecLaws codec}.

(** Monotonic offsets, where the store takes every record.  On a log
    opened on an empty directory, the appends that succeed return the
    initial offset of the configuration, then each time the offset
    before plus one. *)
Lemma NewLog_appends_offsets (dir : string) (c : Config) (B : Z)
    (rs : list api.Record_) (w : Log.world) (lg : Log.t) :
  0 <= MaxIndexBytes c <= 12 * 2 ^ 32 ->
  0 <= InitialOffset c ->
  InitialOffset c + len rs < 2 ^ 64 - 1 ->
  (forall r k, r ∈ rs -> frame_size r k <= B) ->
  len rs * B < 2 ^ 63 ->
  Log.NewLog (Log.mkWorld [] ∅) dir c = (w, lg, None) ->
  offsets (appends w lg rs)
  = seqZ (InitialOffset c) (len (offsets (appends w lg rs))).
Proof.
  intros HM HI Hn HB HS HN.
  pose proof (len_nonneg rs) as Hl.
  destruct (NewLog_inv dir c HM ltac:(lia)) as (w0 & lg0 & HN0 & Hinv & _ & Hs0).
  rewrite HN in HN0. inversion HN0; subst w0 lg0; clear HN0.
  apply (appends_offsets B rs HB); [exact Hinv|exact Hn|lia].
Qed.

End FreshLog.

(** ** The protobuf serialization is reversible *)

Lemma land_127 (v : Z) : Z.land v 127 = v mod 128.
Proof. change 127 with (Z.ones 7). rewrite Z.land_ones by lia. reflexivity. Qed.

Lemma lor_low7 (x hi : Z) :
  0 <= x < 128 -> Z.lor x (Z.shiftl hi 7) = hi * 128 + x.
Proof.
  intros Hx. rewrite Z.lor_comm. apply (lor_shiftl_low 7); [lia|exact Hx].
Qed.

Lemma unvarint_varint (fuel : nat) :
  forall (v : Z) (rest : list byte),
    fuel <> O -> 0 <= v < 2 ^ (7 * Z.of_nat fuel) ->
    proto.unvarint fuel (proto.varint fuel v ++ rest) = Some (v, rest).
Proof.
  induction fuel as [|k IH]; intros v rest Hf Hv; [contradiction|].
  cbn [proto.varint proto.unvarint].
  destruct (v <? 128) eqn:E.
  - apply Z.ltb_lt in E. cbn [app].
    rewrite Z_of_byte_of_Z, Z.mod_small by lia.
    replace (v <? 128) with true by (symmetry; apply Z.ltb_lt; lia).
    reflexivity.
  - apply Z.ltb_ge in E. cbn [app].
    rewrite Z_of_byte_of_Z, land_127.
    assert (Hm : 0 <= v mod 128 < 128) by (apply Z.mod_pos_bound; lia).
    assert (Hfirst : Z.lor (v mod 128) 128 = 128 + v mod 128).
    { change 128 with (Z.shiftl 1 7) at 2. rewrite lor_low7 by lia. lia. }
    rewrite Hfirst.
    rewrite (Z.mod_small (128 + v mod 128)) by lia.
    replace (128 + v mod 128 <? 128) with false
      by (symmetry; apply Z.ltb_ge; lia).
    rewrite Z.shiftr_div_pow2 by lia. change (2 ^ 7) with 128.
    assert (Hq : 1 <= v / 128) by (apply Z.div_le_lower_bound; lia).
    assert (Hqu : v / 128 < 2 ^ (7 * Z.of_nat k)).
    { apply Z.div_lt_upper_bound; [lia|].
      replace (7 * Z.of_nat (S k)) with (7 + 7 * Z.of_nat k) in Hv by lia.
      rewrite Z.pow_add_r in Hv by lia. change (2 ^ 7) with 128 in Hv. lia. }
    rewrite IH; [|intros ->; cbn in Hqu; lia|lia].
    f_equal. f_equal.
    rewrite land_127.
    replace ((128 + v mod 128) mod 128) with (v mod 128).
    + rewrite lor_low7 by lia.
      pose proof (Z.div_mod v 128 ltac:(lia)). lia.
    + replace (128 + v mod 128) with (v mod 128 + 1 * 128) by lia.
      rewrite Z.mod_add by lia. symmetry. apply Z.mod_mod. lia.
Qed.

Lemma len_varint_pos (fuel : nat) (v : Z) :
  fuel <> O -> (1 <= length (proto.varint fuel v))%nat.
Proof.
  destruct fuel as [|k]; [contradiction|]. intros _. cbn.
  destruct (v <? 128); cbn; lia.
Qed.

Lemma proto_fields_value (fuel : nat) (v rest : list byte) (r : api.Record_) :
  (0 < fuel)%nat -> v <> [] -> len v < 2 ^ 63 ->
  proto.fields fuel (byte_of_Z 10 :: proto.varint 10 (len v) ++ v ++ rest) r
  = proto.fields (Nat.pred fuel) rest (api.mk v (api.Offset r)).
Proof.
  intros Hf Hv Hl. destruct fuel as [|fuel]; [lia|]. cbn [proto.fields Nat.pred].
  change (Z_of_byte (byte_of_Z 10) =? 10) with true. cbv iota.
  pose proof (len_nonneg v) as H0.
  rewrite unvarint_varint; [|discriminate|].
  - rewrite len_app.
    replace (len v <=? len v + len rest) with true
      by (symmetry; apply Z.leb_le; pose proof (len_nonneg rest); lia).
    unfold len. rewrite Nat2Z.id, drop_app_length, take_app_length.
    reflexivity.
  - split; [lia|]. apply Z.lt_trans with (2 ^ 63); [lia|reflexivity].
Qed.

Lemma proto_fields_offset (fuel : nat) (o : Z) (rest : list byte)
    (r : api.Record_) :
  (0 < fuel)%nat -> 0 <= o < 2 ^ 64 ->
  proto.fields fuel (byte_of_Z 16 :: proto.varint 10 o ++ rest) r
  = proto.fields (Nat.pred fuel) rest (api.mk (api.Value r) o).
Proof.
  intros Hf Ho. destruct fuel as [|fuel]; [lia|]. cbn [proto.fields Nat.pred].
  change (Z_of_byte (byte_of_Z 16) =? 10) with false.
  change (Z_of_byte (byte_of_Z 16) =? 16) with true. cbv iota.
  rewrite unvarint_varint; [reflexivity|discriminate|].
  split; [lia|]. apply Z.lt_trans with (2 ^ 64); [lia|reflexivity].
Qed.

Lemma proto_fields_nil (fuel : nat) (r : api.Record_) :
  proto.fields fuel [] r = (r, true).
Proof. destruct fuel; reflexivity. Qed.

Lemma proto_laws : CodecLaws proto.codec.
Proof.
  constructor. intros [v o] bs Ho HM Hl. cbn in Ho.
  cbn [Marshal proto.codec] in HM. unfold proto.marshal in HM.
  cbn [api.Value api.Offset] in HM. apply (inj Some) in HM. subst bs.
  cbn [Unmarshal proto.codec]. unfold proto.unmarshal.
  destruct (o =? 0) eqn:E.
  - apply Z.eqb_eq in E. subst o. rewrite app_nil_r in *.
    destruct v as [|b v]; [reflexivity|].
    set (val := b :: v) in *.
    set (fuel := length _).
    assert (Hfuel : (0 < fuel)%nat) by (subst fuel; cbn [length]; lia).
    clearbody fuel.
    replace (proto.varint 10 (len val) ++ val)
      with (proto.varint 10 (len val) ++ val ++ [])
      by (rewrite app_nil_r; reflexivity).
    rewrite proto_fields_value; [apply proto_fields_nil|exact Hfuel|discriminate|].
    unfold len in *. cbn [length] in Hl. rewrite length_app in Hl. lia.
  - set (tail := byte_of_Z 16 :: proto.varint 10 o).
    assert (Htail : forall fuel r, (0 < fuel)%nat ->
               proto.fields fuel tail r = (api.mk (api.Value r) o, true)).
    { intros fuel r Hf. subst tail.
      rewrite <- (app_nil_r (proto.varint 10 o)).
      rewrite proto_fields_offset by lia. apply proto_fields_nil. }
    destruct v as [|b v].
    + cbn [app]. apply Htail. subst tail. cbn [length]. lia.
    + set (val := b :: v) in *. fold tail in Hl.
      set (fuel := length _).
      assert (Hfuel : (1 < fuel)%nat).
      { subst fuel tail. cbn [length]. rewrite length_app. cbn [length]. lia. }
      clearbody fuel.
      replace ((byte_of_Z 10 :: proto.varint 10 (len val) ++ val) ++ tail)
        with (byte_of_Z 10 :: proto.varint 10 (len val) ++ val ++ tail)
        by (cbn [app]; rewrite <- app_assoc; reflexivity).
      rewrite proto_fields_value; [|lia|discriminate|].
      * apply (Htail _ (api.mk val 0)). lia.
      * rewrite len_app in Hl. pose proof (len_nonneg tail).
        unfold len in *. cbn [length] in Hl. rewrite length_app in Hl. lia.
Qed.

Global Existing Instance proto_laws.

(** ** The designed behaviour, on the scenario of the tests *)

Section OnFreshLog.
Context {codec : Codec} {laws : CodecLaws codec}.

(** Round trip, where the store takes the record: in a state that
    assigns [n] next, an append the device takes and that succeeds
    returns [n], and a read of [n] returns the record appended. *)
Lemma log_inv_Append_Read (n : Z) (w w' : Log.world) (lg lg' : Log.t)
    (r r' : api.Record_) (o : Z) :
  log_inv n w lg ->
  active_store_size w lg + frame_size r n < 2 ^ 63 ->
  Log.Append true true w lg r = (w', lg', r', (o, None)) ->
  o = n
  /\ exists w'',
       Log.Read true w' lg' o = (w'', (Some (api.mk (api.Value r) n), None)).
Proof.
  intros (p & seg & Hal & Ha & Hd & Hwf & Hn & _) Hsize HA.
  assert (Hact : active_store_size w lg = store.size (segment.store_ seg))
    by (unfold active_store_size; rewrite Ha; cbn; rewrite Hd; reflexivity).
  destruct (Log_Append_Read w w' lg lg' r r' o p seg Hal Ha Hd Hwf) as
    (Ho & Hr & w'' & HR); [|exact HA|].
  - intros bytes HM. rewrite Hn in HM. unfold frame_size in Hsize.
    rewrite HM in Hsize. lia.
  - subst o r'. rewrite Hn. split; [reflexivity|].
    exists w''. rewrite <- Hn. exact HR.
Qed.

End OnFreshLog.

Lemma length_varint (fuel : nat) (v : Z) :
  (length (proto.varint fuel v) <= fuel)%nat.
Proof.
  revert v. induction fuel as [|k IH]; intros v; cbn; [lia|].
  destruct (v <? 128); cbn; [lia|]. specialize (IH (Z.shiftr v 7)). lia.
Qed.

(** A frame of the record ["hello world"] takes 32 bytes at most. *)
Lemma frame_size_hello (k : Z) : @frame_size proto.codec run.hello k <= 32.
Proof.
  unfold frame_size. cbn [Marshal proto.codec]. unfold proto.marshal.
  cbn [api.Value api.Offset run.hello].
  set (v := String.list_byte_of_string "hello world").
  assert (Hv : len (byte_of_Z 10 :: proto.varint 10 (len v) ++ v) = 13)
    by reflexivity.
  destruct v as [|b v'] eqn:Ev; [discriminate|]. rewrite <- Ev in *.
  rewrite len_app, Hv.
  destruct (k =? 0); [unfold len; cbn; lia|].
  pose proof (length_varint 10 k). unfold len. cbn [length]. lia.
Qed.

(** The scenario of [testInitExisting] and [testTruncate]: three records
    appended to a new log get the offsets 0, 1 and 2. *)
Lemma three_appends_consecutive (w : Log.world) (lg : Log.t) :
  Log.NewLog run.empty "log" run.small = (w, lg, None) ->
  let results := @appends proto.codec w lg [run.hello; run.hello; run.hello] in
  offsets results = seqZ 0 (len (offsets results)).
Proof.
  intros EN.
  apply (@NewLog_appends_offsets proto.codec _ "log" run.small 32);
    [closed_arith|closed_arith|closed_arith| |closed_arith|exact EN].
  intros r k Hr.
  repeat (apply elem_of_cons in Hr as [->|Hr]; [apply frame_size_hello|]).
  inversion Hr.
Qed.

Lemma three_appends_offsets :
  let '(w, lg, e) := Log.NewLog run.empty "log" run.small in
  e = None
  /\ @appends proto.codec w lg [run.hello; run.hello; run.hello]
     = [(0, None); (1, None); (2, None)].
Proof.
  vm_compute. split; reflexivity.
Qed.

(** The scenario of [testAppendRead]: the record appended to a new log
    is read back at offset 0. *)
Lemma hello_roundtrip :
  let codec := proto.codec in
  let '(w, lg, _) := Log.NewLog run.empty "log" run.small in
  let '(w1, lg1, _, res) := Log.Append true true w lg run.hello in
  res = (0, None)
  /\ (Log.Read true w1 lg1 0).2 = (Some run.hello, None).
Proof.
  vm_compute. split; reflexivity.
Qed.

(** ** The store's error is dropped by the segment *)

Section Swallow.
Context {codec : Codec}.

(** When the store's append fails, [segment.Append] returns offset 0 and
    no error, and leaves the next offset and the index as they were. *)
Lemma segment_Append_swallows (dl dd : bool) (s : segment.t)
    (r : api.Record_) (bytes : list byte) :
  Marshal (api.mk (api.Value r) (segment.nextOffset s)) = Some bytes ->
  bufio.err (store.buf (segment.store_ s)) <> None \/ dl = false \/ dd = false ->
  exists s1,
    segment.Append dl dd s r
    = (s1, api.mk (api.Value r) (segment.nextOffset s), (0, None))
    /\ segment.nextOffset s1 = segment.nextOffset s
    /\ segment.baseOffset s1 = segment.baseOffset s
    /\ segment.index_ s1 = segment.index_ s
    /\ store.size (segment.store_ s1) = store.size (segment.store_ s).
Proof.
  intros HM Hfail. unfold segment.Append. rewrite HM.
  destruct (store_Append_fails dl dd (segment.store_ s) bytes Hfail)
    as (st & e & HA & Hsz & _).
  rewrite HA. eexists. split; [reflexivity|]. cbn. auto.
Qed.

End Swallow.

(** C2, on the code.  A record larger than the writer's buffer is
    appended to a new log and the device refuses its bytes: the store's
    append fails with the device's error, the segment's append returns
    [(0, nil)], and so does the log's append. *)
Theorem store_error_swallowed :
  let codec := proto.codec in
  let '(w, lg, _) := Log.NewLog run.empty "log" run.defaults in
  match Log.deref w 0%nat, Marshal run.big with
  | Some seg, Some bytes =>
      (store.Append true false (segment.store_ seg) bytes).2
      = (0, 0, Some ErrDevice)
      /\ (segment.Append true false seg run.big).2 = (0, None)
      /\ (Log.Append true false w lg run.big).2 = (0, None)
  | _, _ => False
  end.
Proof.
  vm_compute. repeat split; reflexivity.
Qed.

(** C1, on the code.  That append reports success and offset 0, and a
    read of offset 0 on the log it leaves finds no record. *)
Theorem roundtrip_broken_by_swallowed_error :
  let codec := proto.codec in
  let '(w, lg, _) := Log.NewLog run.empty "log" run.defaults in
  let '(w1, lg1, _, res) := Log.Append true false w lg run.big in
  res = (0, None)
  /\ (Log.Read true w1 lg1 0).2 = (None, Some (Log.outOfRange 0)).
Proof.
  vm_compute. split; reflexivity.
Qed.

(** C3, on the code.  A first append returns offset 0; a second one,
    whose bytes the device refuses, reports success and offset 0
    again. *)
Theorem offsets_repeat_after_swallowed_error :
  let codec := proto.codec in
  let '(w, lg, _) := Log.NewLog run.empty "log" run.defaults in
  let '(w1, lg1, _, res1) := Log.Append true true w lg run.hello in
  let '(w2, lg2, _, res2) := Log.Append true false w1 lg1 run.big in
  res1 = (0, None) /\ res2 = (0, None).
Proof.
  vm_compute. split; reflexivity.
Qed.

(** C4, on the code.  After one append, [Truncate(0)] removes the only
    segment: the list of segments is empty while the active segment is
    still the removed one, which takes the next append; the record it
    returns offset 1 for cannot be read. *)
Theorem active_segment_dangles_after_Truncate :
  let codec := proto.codec in
  let '(w, lg, _) := Log.NewLog run.empty "log" run.defaults in
  let '(w1, lg1, _, res1) := Log.Append true true w lg run.hello in
  let '(w2, lg2, e2) := Log.Truncate true w1 lg1 0 in
  let '(w3, lg3, _, res3) := Log.Append true true w2 lg2 run.hello in
  res1 = (0, None) /\ active_is_last lg1
  /\ e2 = None
  /\ Log.segments lg2 = [] /\ Log.activeSegment lg2 = Some 0%nat
  /\ ~ active_is_last lg2
  /\ res3 = (1, None)
  /\ (Log.Read true w3 lg3 1).2 = (None, Some (Log.outOfRange 1))
  /\ Log.LowestOffset w2 lg2 = (0, Some (Panic "index out of range")).
Proof.
  vm_compute. repeat split; try reflexivity. discriminate.
Qed.

(** ** The properties at concrete inputs *)

(** C7 at a store of 13 bytes and a one-byte record. *)
Lemma store_Append_spec_witness :
  let r := store.Append true true run.store1 [x00] in
  (r.2.2 = None
   <-> bufio.err (store.buf run.store1) = None /\ true = true /\ true = true)
  /\ (r.2.2 = None ->
      r.2.1.1 = 8 + len [x00] /\ r.2.1.2 = store.size run.store1
      /\ store.size r.1 = store.size run.store1 + (8 + len [x00]))
  /\ (r.2.2 <> None -> store.size r.1 = store.size run.store1).
Proof.
  apply (store_Append_spec true true run.store1 [x00]);
    [closed_arith | closed_arith | reflexivity].
Defined.

(** C8, as worded.  The empty index and an entry beyond the size fail
    with one and the same error, [io.EOF]. *)
Lemma index_Read_kinds_not_distinct : ~ index_Read_distinct_kinds.
Proof.
  intros (Empty & OutOfRange & Hne & H).
  destruct (H (index.mk (mkFile "0.index" [] false) [] 0) 0) as [H1 _].
  destruct (H run.index1 1) as (_ & H2 & _).
  specialize (H1 eq_refl).
  specialize (H2 ltac:(discriminate) ltac:(right; lia) ltac:(closed_arith)).
  apply Hne. vm_compute in H1, H2. congruence.
Qed.

(** The input goes through [uint32(in)]: in an index of one entry, the
    input [2^32] reads entry 0, where an entry index of [2^32] would be
    beyond the size. *)
Lemma index_Read_truncates_input :
  index.Read run.index1 (2 ^ 32) = index.Read run.index1 0
  /\ (index.Read run.index1 (2 ^ 32)).2 = None
  /\ index.size run.index1 < 2 ^ 32 * 12 + 12.
Proof. closed_arith. Qed.

(** C8 (amended) at the first entry of an index of one entry. *)
Lemma index_Read_spec_witness :
  exists bo bp,
    slice (index.mmap run.index1) (entry_of run.index1 0 * 12)
      (entry_of run.index1 0 * 12 + 4) = Some bo
    /\ slice (index.mmap run.index1) (entry_of run.index1 0 * 12 + 4)
         (entry_of run.index1 0 * 12 + 12) = Some bp
    /\ length bo = 4%nat /\ length bp = 8%nat
    /\ index.Read run.index1 0 = (enc.Uint32 bo, enc.Uint64 bp, None).
Proof.
  apply (proj2 (proj2 (index_Read_spec run.index1 0)));
    [closed_arith | closed_arith | closed_arith].
Defined.

(** C10 at an index of one entry with room for two more. *)
Lemma index_Write_frame_witness :
  exists i',
    index.Write run.index1 1 13 = (i', None)
    /\ index.size i' = index.size run.index1 + 12
    /\ index.file i' = index.file run.index1
    /\ length (index.mmap i') = length (index.mmap run.index1)
    /\ (forall j : nat,
          Z.of_nat j < index.size run.index1
          \/ index.size run.index1 + 12 <= Z.of_nat j ->
          index.mmap i' !! j = index.mmap run.index1 !! j)
    /\ (forall e, 0 <= e < index.size run.index1 / 12 ->
          index.Read i' e = index.Read run.index1 e).
Proof.
  apply (index_Write_frame run.index1 1 13);
    [closed_arith | reflexivity | closed_arith | closed_arith].
Defined.

(** C9 at a log of two segments, the last one ending at offset 1. *)
Lemma HighestOffset_spec_witness :
  Log.HighestOffset run.world2 run.log2
  = (if segment.nextOffset run.segment2 =? 0 then 0
     else segment.nextOffset run.segment2 - 1, None).
Proof.
  apply (HighestOffset_spec run.world2 run.log2 1%nat run.segment2);
    [reflexivity | reflexivity | closed_arith].
Defined.

(** C5 at the same log: a read of offset 2 is out of range. *)
Lemma Log_Read_outOfRange_witness :
  @Log.Read proto.codec true run.world2 run.log2 (1 + 1)
  = (run.world2, (None, Some (Log.outOfRange (1 + 1)))).
Proof.
  apply (proj2 (proj2 (@Log_Read_outOfRange proto.codec true run.world2
                         run.log2 0))
           1 1); [|lia].
  intros o (p & Hp & Hc). simpl in Hp.
  apply elem_of_cons in Hp as [->|Hp];
    [|apply elem_of_cons in Hp as [->|Hp]; [|inversion Hp]].
  - unfold covers in Hc. simpl in Hc.
    apply andb_prop in Hc as [_ Hc]. apply Z.ltb_lt in Hc. lia.
  - unfold covers in Hc. simpl in Hc.
    apply andb_prop in Hc as [_ Hc]. apply Z.ltb_lt in Hc. lia.
Defined.

(** * Further properties: the store *)

Lemma slice_app_l (l k : list byte) (a b : Z) (bs : list byte) :
  slice l a b = Some bs -> slice (l ++ k) a b = Some bs.
Proof.
  unfold slice. intros H.
  destruct (_ && _) eqn:E; [|discriminate].
  apply andb_prop in E as [E E3]. apply andb_prop in E as [E1 E2].
  apply Z.leb_le in E1. apply Z.leb_le in E2. apply Z.leb_le in E3.
  assert (E4 : (b <=? len (l ++ k)) = true).
  { apply Z.leb_le. rewrite len_app. pose proof (len_nonneg k). lia. }
  apply Z.leb_le in E1 as E1'. apply Z.leb_le in E2 as E2'.
  rewrite E1', E2', E4. cbn [andb].
  rewrite <- H. f_equal.
  rewrite drop_app_le by (unfold len in E3; lia).
  rewrite take_app_le; [reflexivity|].
  rewrite length_drop. unfold len in E3. lia.
Qed.

Lemma os_ReadAt_app (f : File) (k : list byte) (n off : Z) (bs : list byte) :
  os.ReadAt f n off = (bs, None) ->
  os.ReadAt (mkFile (Name f) (data f ++ k) (closed f)) n off = (bs, None).
Proof.
  unfold os.ReadAt. cbn [closed data].
  destruct (off <? 0); [discriminate|].
  destruct (n =? 0); [trivial|].
  destruct (closed f); [discriminate|].
  destruct (slice (data f) off (off + n)) as [x|] eqn:E; [|discriminate].
  intros H. rewrite (slice_app_l _ _ _ _ _ E). exact H.
Qed.


Lemma store_Read_content (s : store.t) (pos : Z) :
  bufio.err (store.buf s) = None ->
  closed (store.File_ s) = false ->
  store.Read true s pos
  = (flushed s,
     let f := mkFile (Name (store.File_ s)) (content s) false in
     match os.ReadAt f lenWidth (int64 pos) with
     | (_, Some e) => ([], Some e)
     | (sz, None) =>
         if 2 ^ 63 <=? enc.Uint64 sz
         then ([], Some (Panic "makeslice: len out of range"))
         else
           match os.ReadAt f (enc.Uint64 sz) (int64 (uint64 (pos + lenWidth))) with
           | (_, Some e) => ([], Some e)
           | (bytes, None) => (bytes, None)
           end
     end).
Proof.
  intros He Ho. unfold store.Read. rewrite Flush_ok by assumption.
  fold (flushed s). unfold content. cbv zeta.
  destruct (os.ReadAt _ lenWidth (int64 pos)) as [sz [e|]]; [reflexivity|].
  destruct (2 ^ 63 <=? enc.Uint64 sz); [reflexivity|].
  destruct (os.ReadAt _ (enc.Uint64 sz) _) as [bytes [e|]]; reflexivity.
Qed.

Lemma store_Append_content (s : store.t) (b : list byte) :
  store_wf s ->
  store.size s + 8 + len b < 2 ^ 63 ->
  exists s1,
    store.Append true true s b = (s1, (8 + len b, store.size s, None))
    /\ store_wf s1
    /\ store.size s1 = store.size s + 8 + len b
    /\ Name (store.File_ s1) = Name (store.File_ s)
    /\ content s1 = content s ++ enc.PutUint64 (len b) ++ b.
Proof.
  intros Hwf Hfit.
  destruct (store_Read_Append s b Hwf Hfit) as (s1 & HA & Hsz & Hwf1 & _).
  exists s1. split; [exact HA|]. split; [exact Hwf1|]. split; [exact Hsz|].
  destruct Hwf as [Hs Hr He Ho].
  rewrite store_Append_ok in HA by exact He.
  apply (f_equal fst) in HA. cbn [fst] in HA. subst s1.
  unfold content. cbn [store.File_ store.buf bufio.pending].
  split; [reflexivity|].
  pose proof (len_nonneg b).
  pose proof (len_nonneg (data (store.File_ s))).
  pose proof (len_nonneg (bufio.pending (store.buf s))).
  rewrite (uint64_small (len b)) by lia.
  rewrite <- !app_assoc. reflexivity.
Qed.

(** X1.  Round trip of the store: on a store whose bookkeeping is in
    order and a device that takes the bytes, [Append] returns the frame
    size [8 + len b] and the position [size], and [Read] at that position
    returns the bytes [b], whether or not the frame has left the buffer. *)
Theorem store_roundtrip (s : store.t) (b : list byte) :
  store_wf s ->
  store.size s + 8 + len b < 2 ^ 63 ->
  exists s1,
    store.Append true true s b = (s1, (8 + len b, store.size s, None))
    /\ store_wf s1
    /\ (store.Read true s1 (store.size s)).2 = (b, None).
Proof.
  intros Hwf Hfit.
  destruct (store_Read_Append s b Hwf Hfit) as (s1 & HA & _ & Hwf1 & HR).
  exists s1. rewrite HR. auto.
Qed.

(** X2.  The store is append-only: a record that [Read] returns at a
    position is returned at that position after any further [Append]. *)
Theorem store_Read_stable (s s1 s2 : store.t) (pos : Z) (b b2 : list byte)
    (res : Z * Z * option error) :
  store_wf s ->
  store.size s + 8 + len b2 < 2 ^ 63 ->
  store.Read true s pos = (s1, (b, None)) ->
  store.Append true true s b2 = (s2, res) ->
  (store.Read true s2 pos).2 = (b, None).
Proof.
  intros Hwf Hfit HR HA.
  destruct (store_Append_content s b2 Hwf Hfit) as (s2' & HA' & Hwf2 & _ & Hn & Hc).
  rewrite HA' in HA. apply (f_equal fst) in HA. cbn [fst] in HA. subst s2'.
  destruct Hwf as [Hs Hr He Ho]. destruct Hwf2 as [Hs2 Hr2 He2 Ho2].
  rewrite store_Read_content in HR by assumption.
  rewrite store_Read_content by assumption.
  apply (f_equal snd) in HR. cbn [snd] in HR. cbn [snd].
  cbv zeta in HR. cbv zeta. rewrite Hc, Hn.
  set (f := mkFile (Name (store.File_ s)) (content s) false) in *.
  set (k := enc.PutUint64 (len b2) ++ b2).
  change (mkFile (Name (store.File_ s)) (content s ++ k) false)
    with (mkFile (Name f) (data f ++ k) (closed f)).
  destruct (os.ReadAt f lenWidth (int64 pos)) as [sz [e|]] eqn:E1;
    [discriminate|].
  rewrite (os_ReadAt_app f k _ _ _ E1).
  destruct (2 ^ 63 <=? enc.Uint64 sz); [discriminate|].
  destruct (os.ReadAt f (enc.Uint64 sz) _) as [bytes [e|]] eqn:E2;
    [discriminate|].
  rewrite (os_ReadAt_app f k _ _ _ E2). exact HR.
Qed.


Lemma store_ReadAt_content (s : store.t) (n off : Z) :
  bufio.err (store.buf s) = None ->
  closed (store.File_ s) = false ->
  store.ReadAt true s n off
  = (flushed s,
     os.ReadAt_short (mkFile (Name (store.File_ s)) (content s) false) n off).
Proof.
  intros He Ho. unfold store.ReadAt. rewrite Flush_ok by assumption.
  reflexivity.
Qed.

Lemma len_take_drop (l : list byte) (n off : Z) :
  0 <= off -> 0 <= n ->
  len (take (Z.to_nat n) (drop (Z.to_nat off) l))
  = Z.min n (Z.max 0 (len l - off)).
Proof.
  intros Ho Hn. unfold len. rewrite length_take, length_drop. lia.
Qed.

(** What [ReadAt] returns on a store in order: the bytes of the content
    from [off] on, at most [n], and [io.EOF] when they are fewer. *)
Lemma store_ReadAt_wf (s : store.t) (n off : Z) :
  store_wf s -> 0 <= off -> 0 < n ->
  store.ReadAt true s n off
  = (flushed s,
     (take (Z.to_nat n) (drop (Z.to_nat off) (content s)),
      if off + n <=? store.size s then None else Some EOF)).
Proof.
  intros [Hs Hr He Ho] Hoff Hn.
  rewrite store_ReadAt_content by assumption. f_equal.
  unfold os.ReadAt_short. cbn [closed data].
  destruct (off <? 0) eqn:E0; [apply Z.ltb_lt in E0; lia|].
  destruct (n =? 0) eqn:E1; [apply Z.eqb_eq in E1; lia|].
  f_equal. rewrite len_take_drop by lia.
  assert (Hc : len (content s) = store.size s).
  { unfold content. rewrite len_app. lia. }
  rewrite Hc.
  destruct (off + n <=? store.size s) eqn:E2.
  - apply Z.leb_le in E2.
    destruct (_ <? n) eqn:E3; [apply Z.ltb_lt in E3; lia|reflexivity].
  - apply Z.leb_gt in E2.
    destruct (_ <? n) eqn:E3; [reflexivity|apply Z.ltb_ge in E3; lia].
Qed.


Lemma take_drop_app_mid (l1 l2 l3 : list byte) :
  take (length l2) (drop (length l1) (l1 ++ l2 ++ l3)) = l2.
Proof.
  rewrite drop_app_length. rewrite take_app_length. reflexivity.
Qed.

(** X5.  The frame of a record can be read with [ReadAt], as the test
    of the store does: after [Append] of [b] at position [pos], 8 bytes
    at [pos] are the big-endian length of [b], and [len b] bytes at
    [pos + 8] are [b]. *)
Theorem store_ReadAt_frame (s : store.t) (b : list byte) :
  store_wf s ->
  store.size s + 8 + len b < 2 ^ 63 ->
  exists s1 pos,
    store.Append true true s b = (s1, (8 + len b, pos, None))
    /\ (store.ReadAt true s1 lenWidth pos).2 = (enc.PutUint64 (len b), None)
    /\ enc.Uint64 (enc.PutUint64 (len b)) = len b
    /\ (store.ReadAt true s1 (len b) (pos + 8)).2 = (b, None).
Proof.
  intros Hwf Hfit.
  destruct (store_Append_content s b Hwf Hfit) as (s1 & HA & Hwf1 & Hsz & _ & Hc).
  exists s1, (store.size s). split; [exact HA|].
  pose proof (len_nonneg b) as Hb.
  assert (Hlen : len (content s) = store.size s).
  { destruct Hwf as [Hs _ _ _]. unfold content. rewrite len_app. lia. }
  assert (H0 : 0 <= store.size s).
  { rewrite <- Hlen. apply len_nonneg. }
  split; [|split].
  - rewrite store_ReadAt_wf by (try assumption; unfold lenWidth; lia).
    cbn [snd]. unfold lenWidth. rewrite Hsz.
    destruct (store.size s + 8 <=? store.size s + 8 + len b) eqn:E;
      [|apply Z.leb_gt in E; lia].
    f_equal. rewrite Hc.
    replace (Z.to_nat 8) with (length (enc.PutUint64 (len b)))
      by (unfold enc.PutUint64; rewrite length_PutUint; reflexivity).
    replace (Z.to_nat (store.size s)) with (length (content s))
      by (unfold len in Hlen; lia).
    apply take_drop_app_mid.
  - apply Uint64_PutUint64. lia.
  - destruct (Z.eq_dec (len b) 0) as [Hz|Hnz].
    + destruct b; [|unfold len in Hz; cbn in Hz; lia].
      destruct Hwf1 as [? ? He1 Ho1].
      rewrite store_ReadAt_content by assumption. cbn [snd].
      unfold os.ReadAt_short.
      destruct (store.size s + 8 <? 0) eqn:E; [apply Z.ltb_lt in E; lia|].
      reflexivity.
    + rewrite store_ReadAt_wf by (try assumption; lia).
      cbn [snd]. rewrite Hsz.
      destruct (store.size s + 8 + len b <=? store.size s + 8 + len b) eqn:E;
        [|apply Z.leb_gt in E; lia].
      f_equal. rewrite Hc.
      replace (content s ++ enc.PutUint64 (len b) ++ b)
        with ((content s ++ enc.PutUint64 (len b)) ++ b ++ [])
        by (rewrite app_nil_r, <- app_assoc; reflexivity).
      replace (Z.to_nat (len b)) with (length b) by (unfold len; lia).
      replace (Z.to_nat (store.size s + 8))
        with (length (content s ++ enc.PutUint64 (len b))).
      * apply take_drop_app_mid.
      * unfold enc.PutUint64. rewrite length_app, length_PutUint. unfold len in Hlen. lia.
Qed.

Lemma store_Close_ok (d : disk) (s : store.t) :
  bufio.err (store.buf s) = None ->
  closed (store.File_ s) = false ->
  store.Close true d s
  = (<[store.Name_ s := content s]> d,
     store.mk (mkFile (store.Name_ s) (content s) true) (store.size s)
       (bufio.mkWriter [] None),
     None).
Proof.
  intros He Ho. unfold store.Close. rewrite Flush_ok by assumption.
  reflexivity.
Qed.


(** * Further properties: the index *)

Lemma slice_agree (l k : list byte) (a b : Z) :
  0 <= a <= b -> b <= len l -> b <= len k ->
  (forall j : nat, a <= Z.of_nat j < b -> l !! j = k !! j) ->
  slice l a b = slice k a b.
Proof.
  intros Hab Hl Hk Hext. rewrite !slice_Some by assumption.
  f_equal. apply list_eq. intros j.
  destruct (decide (j < Z.to_nat (b - a))%nat) as [Hj|Hj].
  - rewrite !lookup_take_lt, !lookup_drop by exact Hj. apply Hext. lia.
  - rewrite !lookup_take_ge by lia. reflexivity.
Qed.

(** [Read] looks at the size and at the bytes below the size only. *)
Lemma index_Read_agree (i i2 : index.t) (in_ : Z) :
  index.size i2 = index.size i ->
  0 <= index.size i ->
  index.size i <= len (index.mmap i) ->
  index.size i <= len (index.mmap i2) ->
  (forall j : nat, Z.of_nat j < index.size i ->
                   index.mmap i2 !! j = index.mmap i !! j) ->
  index.Read i2 in_ = index.Read i in_.
Proof.
  intros Hsz H0 Hl Hl2 Hext.
  rewrite !index_Read_unfold. unfold entry_of. rewrite Hsz.
  set (k := uint32 _).
  pose proof (uint32_range (if in_ =? -1 then index.size i / 12 - 1 else in_)) as Hr.
  fold k in Hr.
  destruct (index.size i =? 0); [reflexivity|].
  destruct (index.size i <? k * 12 + 12) eqn:E; [reflexivity|].
  apply Z.ltb_ge in E.
  rewrite (slice_agree (index.mmap i2) (index.mmap i) (k * 12) (k * 12 + 4))
    by (try lia; intros j Hj; apply Hext; lia).
  rewrite (slice_agree (index.mmap i2) (index.mmap i) (k * 12 + 4) (k * 12 + 12))
    by (try lia; intros j Hj; apply Hext; lia).
  reflexivity.
Qed.

(** A write leaves the entries that precede it as they read. *)
Lemma index_Write_Read_old (i i' : index.t) (off pos e : Z) :
  0 <= index.size i ->
  index.size i + 12 <= len (index.mmap i) ->
  len (index.mmap i) < 2 ^ 64 ->
  index.Write i off pos = (i', None) ->
  0 <= e -> e * 12 + 12 <= index.size i ->
  index.Read i' e = index.Read i e.
Proof.
  intros H0 Hfit Hlen HW He0 He.
  rewrite index_Write_ok in HW by assumption.
  apply (f_equal fst) in HW. cbn [fst] in HW. subst i'.
  rewrite !index_Read_unfold. unfold entry_of. cbn [index.size index.mmap].
  destruct (e =? -1) eqn:E1; [apply Z.eqb_eq in E1; lia|].
  pose proof (uint32_range e) as Hr. pose proof (uint32_le e ltac:(lia)) as Hle.
  set (k := uint32 e) in *.
  destruct (index.size i + 12 =? 0) eqn:Ea; [apply Z.eqb_eq in Ea; lia|].
  destruct (index.size i =? 0) eqn:Eb; [apply Z.eqb_eq in Eb; lia|].
  destruct (index.size i + 12 <? k * 12 + 12) eqn:Ec; [apply Z.ltb_lt in Ec; lia|].
  destruct (index.size i <? k * 12 + 12) eqn:Ed; [apply Z.ltb_lt in Ed; lia|].
  rewrite (slice_ext _ (index.mmap i) (k * 12) (k * 12 + 4)).
  - rewrite (slice_ext _ (index.mmap i) (k * 12 + 4) (k * 12 + 12)).
    + reflexivity.
    + apply index_Write_mmap_length; assumption.
    + intros j Hj. apply index_Write_mmap_frame; [assumption..|lia].
  - apply index_Write_mmap_length; assumption.
  - intros j Hj. apply index_Write_mmap_frame; [assumption..|lia].
Qed.

(** X7.  Round trip of the index: in an index of [k] entries with room
    for one more, [Write(off, pos)] succeeds, and both [Read(k)] and
    [Read(-1)], the last entry, return [(off, pos)]. *)
Theorem index_roundtrip (i : index.t) (k off pos : Z) :
  index.size i = 12 * k -> 0 <= k ->
  index.size i + 12 <= len (index.mmap i) ->
  len (index.mmap i) <= 12 * 2 ^ 32 ->
  0 <= off < 2 ^ 32 -> 0 <= pos < 2 ^ 64 ->
  exists i',
    index.Write i off pos = (i', None)
    /\ index.size i' = 12 * (k + 1)
    /\ index.Read i' k = (off, pos, None)
    /\ index.Read i' (-1) = (off, pos, None).
Proof.
  intros Hsz Hk Hroom Hlen Hoff Hpos.
  destruct (index.Write i off pos) as [i' e] eqn:HW.
  assert (e = None) as ->.
  { rewrite index_Write_ok in HW by lia. congruence. }
  destruct (index_Write_Read i i' k off pos Hsz ltac:(lia) ltac:(lia) Hoff Hpos HW)
    as (Hs' & _ & _ & HR).
  exists i'. split; [reflexivity|]. split; [lia|]. split; [exact HR|].
  rewrite <- HR. rewrite !index_Read_unfold.
  assert (Hent : entry_of i' (-1) = entry_of i' k).
  { unfold entry_of. rewrite Z.eqb_refl.
    destruct (k =? -1) eqn:E; [apply Z.eqb_eq in E; lia|].
    f_equal. rewrite Hs', Hsz.
    replace (12 * k + 12) with ((k + 1) * 12) by lia.
    rewrite Z.div_mul by lia. lia. }
  rewrite Hent. reflexivity.
Qed.

(** X8.  A full index refuses the write: when the size is within the
    mapping, [Write] returns [io.EOF] exactly when fewer than 12 bytes
    of the mapping are free, it returns no other error, and a write
    that fails leaves the index as it was. *)
Theorem index_Write_full (i : index.t) (off pos : Z) :
  0 <= index.size i <= len (index.mmap i) ->
  len (index.mmap i) < 2 ^ 64 - 12 ->
  ((index.Write i off pos).2 = Some EOF
   <-> len (index.mmap i) < index.size i + 12)
  /\ ((index.Write i off pos).2 <> Some EOF -> (index.Write i off pos).2 = None)
  /\ ((index.Write i off pos).2 <> None -> (index.Write i off pos).1 = i).
Proof.
  intros Hs Hl.
  destruct (Z.lt_ge_cases (len (index.mmap i)) (index.size i + 12)) as [Hfull|Hroom].
  - assert (HW : index.Write i off pos = (i, Some EOF)).
    { unfold index.Write, entWidth, offWidth, posWidth.
      change (4 + 8) with 12.
      rewrite (uint64_small (len (index.mmap i))) by lia.
      rewrite (uint64_small (index.size i + 12)) by lia.
      destruct (len (index.mmap i) <? index.size i + 12) eqn:E;
        [reflexivity|apply Z.ltb_ge in E; lia]. }
    rewrite HW. cbn [fst snd]. split; [tauto|]. split; [congruence|reflexivity].
  - rewrite index_Write_ok by lia. cbn [fst snd].
    split; [split; [discriminate|lia]|]. split; [reflexivity|congruence].
Qed.

Lemma lookup_resize_lt (n : Z) (l : list byte) (j : nat) :
  0 <= n -> Z.of_nat j < n -> Z.of_nat j < len l ->
  resize n l !! j = l !! j.
Proof.
  intros Hn Hj Hl. unfold resize.
  rewrite lookup_app_l by (rewrite length_take; unfold len in Hl; lia).
  apply lookup_take_lt. lia.
Qed.

(** What [index.Close] and a later [newIndex] on the file make of an
    index whose size lies within the mapping. *)
Lemma index_Close_newIndex (d : disk) (i : index.t) (M : Z) :
  closed (index.file i) = false ->
  0 <= index.size i <= len (index.mmap i) ->
  index.size i <= M -> 0 < M < 2 ^ 63 ->
  exists i',
    index.Close d i
    = (<[index.Name_ i := resize (index.size i) (index.mmap i)]> d, i', None)
    /\ index.Name_ i' = index.Name_ i
    /\ index.size i' = index.size i
    /\ index.mmap i' = index.mmap i
    /\ closed (index.file i') = true
    /\ forall d1,
         d1 !! index.Name_ i = Some (resize (index.size i) (index.mmap i)) ->
         exists i2,
           index.newIndex d1 (os.OpenFile d1 (index.Name_ i)).2 M
           = (<[index.Name_ i := index.mmap i2]> d1, Some i2, None)
           /\ (os.OpenFile d1 (index.Name_ i)).1 = d1
           /\ index.Name_ i2 = index.Name_ i
           /\ closed (index.file i2) = false
           /\ index.size i2 = index.size i
           /\ len (index.mmap i2) = M
           /\ (forall j : nat, Z.of_nat j < index.size i ->
                  index.mmap i2 !! j = index.mmap i !! j)
           /\ forall in_, index.Read i2 in_ = index.Read i in_.
Proof.
  intros Ho Hs HM HM0.
  assert (Hs63 : index.size i < 2 ^ 63) by lia.
  unfold index.Close. rewrite Ho.
  rewrite (int64_small (index.size i)) by lia.
  destruct (index.size i <? 0) eqn:E0; [apply Z.ltb_lt in E0; lia|].
  eexists. split; [reflexivity|].
  cbn [index.Name_ index.file index.size index.mmap Name closed].
  split; [reflexivity|]. split; [reflexivity|]. split; [reflexivity|].
  split; [reflexivity|].
  intros d1 Hd1. unfold os.OpenFile. fold (index.Name_ i). rewrite Hd1.
  cbn [fst snd]. unfold index.newIndex. cbn [data Name].
  rewrite (int64_small M) by lia.
  destruct (M <? 0) eqn:E1; [apply Z.ltb_lt in E1; lia|].
  destruct (M =? 0) eqn:E2; [apply Z.eqb_eq in E2; lia|].
  rewrite len_resize by lia. rewrite (uint64_small (index.size i)) by lia.
  set (bytes := resize M (resize (index.size i) (index.mmap i))).
  exists (index.mk (mkFile (index.Name_ i) bytes false) bytes (index.size i)).
  split; [reflexivity|]. unfold bytes.
  cbn [index.Name_ index.file index.size index.mmap Name closed].
  split; [reflexivity|]. split; [reflexivity|]. split; [reflexivity|].
  split; [reflexivity|].
  split; [apply len_resize; lia|].
  assert (Hext : forall j : nat, Z.of_nat j < index.size i ->
            resize M (resize (index.size i) (index.mmap i)) !! j
            = index.mmap i !! j).
  { intros j Hj.
    rewrite lookup_resize_lt by (try lia; rewrite len_resize by lia; lia).
    apply lookup_resize_lt; lia. }
  split; [exact Hext|].
  intros in_. apply index_Read_agree; cbn [index.size index.mmap];
    [reflexivity|lia|lia|rewrite len_resize by lia; lia|exact Hext].
Qed.

(** X9.  Closing and reopening an index: [Close] cuts the file to the
    bytes in use, and [newIndex] on that file, with a limit that holds
    them, gives an index of the same size, mapped over [M] bytes, in
    which every [Read] returns what it returned before the close. *)
Theorem index_Close_reopen (d : disk) (i : index.t) (M : Z) :
  closed (index.file i) = false ->
  0 <= index.size i <= len (index.mmap i) ->
  index.size i <= M -> 0 < M < 2 ^ 63 ->
  exists d' i' d2 i2,
    index.Close d i = (d', i', None)
    /\ (exists bytes, d' !! index.Name_ i = Some bytes
                      /\ len bytes = index.size i)
    /\ (forall name, name <> index.Name_ i -> d' !! name = d !! name)
    /\ index.newIndex d' (os.OpenFile d' (index.Name_ i)).2 M
       = (d2, Some i2, None)
    /\ index.size i2 = index.size i
    /\ len (index.mmap i2) = M
    /\ forall in_, index.Read i2 in_ = index.Read i in_.
Proof.
  intros Ho Hs HM HM0.
  destruct (index_Close_newIndex d i M Ho Hs HM HM0)
    as (i' & HC & _ & _ & _ & _ & Hre).
  destruct (Hre (<[index.Name_ i := resize (index.size i) (index.mmap i)]> d)
              (lookup_insert_eq _ _ _))
    as (i2 & HN & _ & _ & _ & Hsz & Hlen & _ & HR).
  do 4 eexists. split; [exact HC|].
  split.
  { eexists. split; [apply lookup_insert_eq|]. apply len_resize. lia. }
  split; [intros name Hne; apply lookup_insert_ne; congruence|].
  split; [exact HN|]. auto.
Qed.

(** * Further properties: the segment *)

(** X10.  [nearestMultiple(j, k)] with [k > 0] is the greatest multiple
    of [k] that does not exceed [j]; with [k = 0] it panics. *)
Theorem nearestMultiple_spec (j k : Z) :
  0 <= j < 2 ^ 64 -> 0 <= k < 2 ^ 64 ->
  (k = 0 -> (segment.nearestMultiple j k).2
            = Some (Panic "integer divide by zero"))
  /\ (0 < k ->
      exists m, segment.nearestMultiple j k = (m, None)
                /\ m mod k = 0 /\ m <= j < m + k).
Proof.
  intros Hj Hk. split.
  - intros ->. reflexivity.
  - intros Hpos. unfold segment.nearestMultiple.
    destruct (k =? 0) eqn:E; [apply Z.eqb_eq in E; lia|].
    destruct (0 <=? j) eqn:E1; [|apply Z.leb_gt in E1; lia].
    pose proof (Z.mul_div_le j k Hpos) as Hle.
    pose proof (Z.mod_pos_bound j k Hpos) as Hm.
    pose proof (Z.div_mod j k ltac:(lia)) as Hdm.
    assert (H0 : 0 <= j / k * k).
    { apply Z.mul_nonneg_nonneg; [apply Z.div_pos; lia|lia]. }
    exists (j / k * k). rewrite uint64_small by lia.
    split; [reflexivity|]. split; [apply Z.mod_mul; lia|]. lia.
Qed.

Lemma index_Write_fail_same (i i' : index.t) (off pos : Z) (e : error) :
  index.Write i off pos = (i', Some e) -> i' = i.
Proof.
  unfold index.Write.
  destruct (_ <? _); [intros H; inversion H; reflexivity|].
  destruct (slice _ _ _); [|intros H; inversion H; reflexivity].
  destruct (slice _ _ _); intros H; inversion H; reflexivity.
Qed.

Lemma os_ReadAt_data (f g : File) (n off : Z) :
  data f = data g -> closed f = closed g ->
  os.ReadAt f n off = os.ReadAt g n off.
Proof. intros Hd Hc. unfold os.ReadAt. rewrite Hd, Hc. reflexivity. Qed.

(** [store.Read] depends on the content of the store only. *)
Lemma store_Read_same_content (s s' : store.t) (pos : Z) :
  store_wf s -> store_wf s' -> content s' = content s ->
  (store.Read true s' pos).2 = (store.Read true s pos).2.
Proof.
  intros [_ _ He Ho] [_ _ He' Ho'] Hc.
  rewrite !store_Read_content by assumption. cbn [snd]. cbv zeta.
  rewrite Hc.
  rewrite (os_ReadAt_data
             (mkFile (Name (store.File_ s')) (content s) false)
             (mkFile (Name (store.File_ s)) (content s) false))
    by reflexivity.
  destruct (os.ReadAt _ lenWidth (int64 pos)) as [sz [e|]]; [reflexivity|].
  destruct (2 ^ 63 <=? enc.Uint64 sz); [reflexivity|].
  rewrite (os_ReadAt_data
             (mkFile (Name (store.File_ s')) (content s) false)
             (mkFile (Name (store.File_ s)) (content s) false))
    by reflexivity.
  reflexivity.
Qed.

(** A read that succeeds keeps its result when the content grows. *)
Lemma store_Read_grow (s s' : store.t) (pos : Z) (b k : list byte) :
  store_wf s -> store_wf s' -> content s' = content s ++ k ->
  (store.Read true s pos).2 = (b, None) ->
  (store.Read true s' pos).2 = (b, None).
Proof.
  intros [_ _ He Ho] [_ _ He' Ho'] Hc.
  rewrite !store_Read_content by assumption. cbn [snd]. cbv zeta.
  rewrite Hc.
  set (f := mkFile (Name (store.File_ s)) (content s) false).
  rewrite (os_ReadAt_data
             (mkFile (Name (store.File_ s')) (content s ++ k) false)
             (mkFile (Name f) (data f ++ k) (closed f)))
    by reflexivity.
  destruct (os.ReadAt f lenWidth (int64 pos)) as [sz [e|]] eqn:E1;
    [discriminate|].
  rewrite (os_ReadAt_app f k _ _ _ E1).
  destruct (2 ^ 63 <=? enc.Uint64 sz); [discriminate|].
  rewrite (os_ReadAt_data
             (mkFile (Name (store.File_ s')) (content s ++ k) false)
             (mkFile (Name f) (data f ++ k) (closed f)))
    by reflexivity.
  destruct (os.ReadAt f (enc.Uint64 sz) _) as [bytes [e|]] eqn:E2;
    [discriminate|].
  rewrite (os_ReadAt_app f k _ _ _ E2). trivial.
Qed.

Section SegmentStep.
Context {codec : Codec}.

(** [segment.Append] on a segment in order, for a record that
    serializes to [bytes], on a device that takes them: the store takes
    the frame, and the outcome is that of the write to the index. *)
Lemma segment_Append_unfold (s : segment.t) (r : api.Record_)
    (bytes : list byte) :
  segment_wf s ->
  Marshal (api.mk (api.Value r) (segment.nextOffset s)) = Some bytes ->
  store.size (segment.store_ s) + 8 + len bytes < 2 ^ 63 ->
  exists st1,
    store_wf st1
    /\ store.size st1 = store.size (segment.store_ s) + 8 + len bytes
    /\ store.Name_ st1 = store.Name_ (segment.store_ s)
    /\ content st1
       = content (segment.store_ s) ++ enc.PutUint64 (len bytes) ++ bytes
    /\ segment.Append true true s r
       = match index.Write (segment.index_ s)
                 (uint32 (uint64 (segment.nextOffset s - segment.baseOffset s)))
                 (store.size (segment.store_ s)) with
         | (_, Some e) =>
             (segment.mk st1 (segment.index_ s) (segment.baseOffset s)
                (segment.nextOffset s) (segment.config s),
              api.mk (api.Value r) (segment.nextOffset s), (0, Some e))
         | (idx, None) =>
             (segment.mk st1 idx (segment.baseOffset s)
                (segment.nextOffset s + 1) (segment.config s),
              api.mk (api.Value r) (segment.nextOffset s),
              (segment.nextOffset s, None))
         end.
Proof.
  intros Hwf HM Hsize. pose proof Hwf as [Hst Hb Hn Hr Hent Hfit Hmm].
  destruct (store_Append_content (segment.store_ s) bytes Hst Hsize)
    as (st1 & HA & Hwf1 & Hsz1 & Hn1 & Hc1).
  exists st1. split; [exact Hwf1|]. split; [exact Hsz1|].
  split; [exact Hn1|]. split; [exact Hc1|].
  unfold segment.Append. rewrite HM, HA.
  destruct (index.Write _ _ _) as [idx [e|]] eqn:EW.
  - apply index_Write_fail_same in EW. subst idx. reflexivity.
  - rewrite (uint64_small (segment.nextOffset s + 1)) by lia. reflexivity.
Qed.

End SegmentStep.

Lemma index_Read_last (i : index.t) (k : Z) :
  index.size i = 12 * (k + 1) -> 0 <= k < 2 ^ 32 ->
  index.Read i (-1) = index.Read i k.
Proof.
  intros Hsz Hk. rewrite !index_Read_unfold.
  assert (Hent : entry_of i (-1) = entry_of i k).
  { unfold entry_of. rewrite Z.eqb_refl.
    destruct (k =? -1) eqn:E; [apply Z.eqb_eq in E; lia|].
    f_equal. rewrite Hsz.
    replace (12 * (k + 1)) with ((k + 1) * 12) by lia.
    rewrite Z.div_mul by lia. lia. }
  rewrite Hent. reflexivity.
Qed.

Section SegmentOk.
Context {codec : Codec}.

(** One append to a segment in order, on a device that takes the
    bytes: the segment stays in order, its base stays, its store grows
    at the end, and the index entries it had read as before. *)
Lemma seg_ok_Append (c : Config) (s s1 : segment.t) (r r1 : api.Record_)
    (o : Z) (e : option error) :
  seg_ok c s ->
  segment.nextOffset s < 2 ^ 64 - 2 ->
  (forall bytes,
      Marshal (api.mk (api.Value r) (segment.nextOffset s)) = Some bytes ->
      store.size (segment.store_ s) + 8 + len bytes < 2 ^ 63) ->
  segment.Append true true s r = (s1, r1, (o, e)) ->
  seg_ok c s1
  /\ segment.baseOffset s1 = segment.baseOffset s
  /\ match e with
     | None => o = segment.nextOffset s
               /\ segment.nextOffset s1 = segment.nextOffset s + 1
     | Some _ => segment.nextOffset s1 = segment.nextOffset s
     end
  /\ store_wf (segment.store_ s1)
  /\ (exists k, content (segment.store_ s1) = content (segment.store_ s) ++ k)
  /\ (forall j, 0 <= j < segment.nextOffset s - segment.baseOffset s ->
        index.Read (segment.index_ s1) j = index.Read (segment.index_ s) j).
Proof.
  intros [Hwf Hc Hsn Hin Hop Hmm Hlast] Hrange Hsize HA.
  pose proof Hwf as [Hst Hb Hn Hr Hent Hfit Hmm'].
  destruct (Marshal (api.mk (api.Value r) (segment.nextOffset s)))
    as [bytes|] eqn:EM.
  - specialize (Hsize bytes eq_refl).
    destruct (segment_Append_unfold s r bytes Hwf EM Hsize)
      as (st1 & Hwf1 & Hsz1 & Hn1 & Hc1 & HA').
    rewrite HA' in HA. clear HA'.
    set (rel := segment.nextOffset s - segment.baseOffset s) in *.
    destruct (index.Write (segment.index_ s) (uint32 (uint64 rel))
                (store.size (segment.store_ s))) as [idx [ew|]] eqn:EW.
    + inversion HA; subst s1 r1 o e; clear HA.
      cbn [segment.store_ segment.index_ segment.baseOffset
           segment.nextOffset segment.config].
      split.
      { constructor;
          cbn [segment.store_ segment.index_ segment.baseOffset
               segment.nextOffset segment.config]; try assumption.
        - constructor;
            cbn [segment.store_ segment.index_ segment.baseOffset
                 segment.nextOffset segment.config]; assumption.
        - congruence. }
      split; [reflexivity|]. split; [reflexivity|]. split; [exact Hwf1|].
      split; [eexists; exact Hc1|]. reflexivity.
    + assert (Hroom : index.size (segment.index_ s) + 12
                     <= len (index.mmap (segment.index_ s))).
      { eapply (index_Write_None_room (segment.index_ s) idx); [lia|lia|exact EW]. }
      assert (Hrel : 0 <= rel < 2 ^ 32) by lia.
      rewrite (uint64_small rel), (uint32_small rel) in EW by lia.
      assert (Hpos : 0 <= store.size (segment.store_ s) < 2 ^ 64).
      { destruct Hst as [Hs1 Hs2 _ _].
        pose proof (len_nonneg (data (store.File_ (segment.store_ s)))).
        pose proof (len_nonneg (bufio.pending (store.buf (segment.store_ s)))).
        lia. }
      destruct (index_Write_Read _ _ rel rel _ Hent Hrel ltac:(lia) Hrel Hpos EW)
        as (Hsz' & Hlen' & _ & HRi).
      assert (Hfile : index.file idx = index.file (segment.index_ s)).
      { rewrite index_Write_ok in EW by lia.
        apply (f_equal fst) in EW. cbn [fst] in EW. subst idx. reflexivity. }
      assert (Hlenz : len (index.mmap idx) = len (index.mmap (segment.index_ s)))
        by (unfold len; congruence).
      inversion HA; subst s1 r1 o e; clear HA.
      cbn [segment.store_ segment.index_ segment.baseOffset
           segment.nextOffset segment.config].
      split.
      { constructor;
          cbn [segment.store_ segment.index_ segment.baseOffset
               segment.nextOffset segment.config]; try assumption.
        - constructor;
            cbn [segment.store_ segment.index_ segment.baseOffset
                 segment.nextOffset segment.config]; try assumption; lia.
        - congruence.
        - unfold index.Name_ in *. congruence.
        - congruence.
        - congruence.
        - right. exists (store.size (segment.store_ s)).
          rewrite (index_Read_last idx rel) by lia.
          rewrite HRi. f_equal. f_equal. lia. }
      split; [reflexivity|]. split; [split; reflexivity|].
      split; [exact Hwf1|]. split; [eexists; exact Hc1|].
      intros j Hj.
      eapply (index_Write_Read_old (segment.index_ s) idx);
        [lia|exact Hroom|lia|exact EW|lia|fold rel in Hj; lia].
  - unfold segment.Append in HA. rewrite EM in HA.
    inversion HA; subst s1 r1 o e; clear HA.
    split; [constructor; assumption|]. split; [reflexivity|].
    split; [reflexivity|]. split; [exact Hst|].
    split; [exists []; symmetry; apply app_nil_r|]. reflexivity.
Qed.

(** A record that a segment reads stays readable, with the same
    result, after an append to the segment. *)
Lemma segment_Read_stable (c : Config) (s s1 : segment.t) (r r1 : api.Record_)
    (o : Z) (e : option error) (o' : Z) (rec : api.Record_)
    (e' : option error) :
  seg_ok c s ->
  segment.nextOffset s < 2 ^ 64 - 2 ->
  (forall bytes,
      Marshal (api.mk (api.Value r) (segment.nextOffset s)) = Some bytes ->
      store.size (segment.store_ s) + 8 + len bytes < 2 ^ 63) ->
  segment.Append true true s r = (s1, r1, (o, e)) ->
  segment.baseOffset s <= o' < segment.nextOffset s ->
  (segment.Read true s o').2 = (Some rec, e') ->
  (segment.Read true s1 o').2 = (Some rec, e').
Proof.
  intros Hok Hrange Hsize HA Ho' HR.
  destruct (seg_ok_Append c s s1 r r1 o e Hok Hrange Hsize HA)
    as (Hok1 & Hb1 & _ & Hwf1 & [k Hk] & Hidx).
  destruct Hok as [Hwf _ _ _ _ _ _].
  pose proof Hwf as [Hst Hb Hn Hr Hent Hfit Hmm'].
  revert HR. unfold segment.Read. rewrite Hb1.
  set (rel := o' - segment.baseOffset s).
  assert (Hrel : 0 <= rel < 2 ^ 32) by (unfold rel; lia).
  rewrite (uint64_small rel), (int64_small rel) by lia.
  rewrite (Hidx rel) by (unfold rel; lia).
  destruct (index.Read (segment.index_ s) rel) as [[out pos] [ei|]];
    [discriminate|].
  destruct (store.Read true (segment.store_ s) pos) as [st [bytes [es|]]] eqn:ER;
    [discriminate|].
  assert (HR1 : (store.Read true (segment.store_ s1) pos).2 = (bytes, None)).
  { apply (store_Read_grow (segment.store_ s) _ pos bytes k Hst Hwf1 Hk).
    rewrite ER. reflexivity. }
  destruct (store.Read true (segment.store_ s1) pos) as [st' [bytes' [es'|]]];
    cbn [snd] in HR1; [discriminate|].
  inversion HR1; subst bytes'.
  destruct (Unmarshal bytes) as [record ok]. cbn [snd]. trivial.
Qed.

End SegmentOk.

Lemma index_Write_no_room (i : index.t) (off pos : Z) :
  0 <= index.size i -> index.size i + 12 < 2 ^ 64 ->
  len (index.mmap i) < index.size i + 12 ->
  index.Write i off pos = (i, Some EOF).
Proof.
  intros H0 H1 H2. pose proof (len_nonneg (index.mmap i)).
  unfold index.Write, entWidth, offWidth, posWidth.
  change (4 + 8) with 12.
  rewrite (uint64_small (len (index.mmap i))) by lia.
  rewrite (uint64_small (index.size i + 12)) by lia.
  destruct (len (index.mmap i) <? index.size i + 12) eqn:E;
    [reflexivity|apply Z.ltb_ge in E; lia].
Qed.

Lemma len_content (s : store.t) : store_wf s -> len (content s) = store.size s.
Proof. intros [Hs _ _ _]. unfold content. rewrite len_app. lia. Qed.

Lemma store_size_nonneg (s : store.t) : store_wf s -> 0 <= store.size s.
Proof. intros H. rewrite <- (len_content s H). apply len_nonneg. Qed.

(** [segment.Read] depends on the base offset, on what the index reads
    and on the content of the store. *)
Lemma segment_Read_same {codec : Codec} (s s2 : segment.t) (o : Z) :
  segment.baseOffset s2 = segment.baseOffset s ->
  (forall in_, index.Read (segment.index_ s2) in_
               = index.Read (segment.index_ s) in_) ->
  store_wf (segment.store_ s) -> store_wf (segment.store_ s2) ->
  content (segment.store_ s2) = content (segment.store_ s) ->
  (segment.Read true s2 o).2 = (segment.Read true s o).2.
Proof.
  intros Hb Hi Hw Hw2 Hc. unfold segment.Read. rewrite Hb, Hi.
  destruct (index.Read _ _) as [[out pos] [e|]]; [reflexivity|].
  pose proof (store_Read_same_content _ _ pos Hw Hw2 Hc) as HR.
  destruct (store.Read true (segment.store_ s2) pos) as [st2 [b2 e2]].
  destruct (store.Read true (segment.store_ s) pos) as [st [b e]].
  cbn [snd] in HR. inversion HR; subst b2 e2.
  destruct e as [e|]; [reflexivity|].
  destruct (Unmarshal b). reflexivity.
Qed.

(** Closing a segment in order: both files are written out. *)
Lemma segment_Close_ok (c : Config) (d : disk) (s : segment.t) :
  seg_ok c s ->
  exists s',
    segment.Close true d s
    = (<[store_name (segment.baseOffset s) := content (segment.store_ s)]>
         (<[index_name (segment.baseOffset s) :=
              resize (index.size (segment.index_ s))
                (index.mmap (segment.index_ s))]> d),
       s', None)
    /\ ident s' = ident s
    /\ closed (index.file (segment.index_ s')) = true.
Proof.
  intros [Hwf Hc Hsn Hin Hop Hmm Hlast].
  pose proof Hwf as [Hst Hb Hn Hr Hent Hfit Hmm'].
  unfold segment.Close, index.Close. rewrite Hop.
  assert (H0 : 0 <= index.size (segment.index_ s)) by lia.
  rewrite (int64_small (index.size (segment.index_ s))) by lia.
  destruct (index.size (segment.index_ s) <? 0) eqn:E;
    [apply Z.ltb_lt in E; lia|].
  destruct Hst as [_ _ He Ho].
  rewrite store_Close_ok by assumption.
  unfold index.Name_ in Hin. rewrite Hin, Hsn.
  eexists. split; [reflexivity|]. split; [|reflexivity].
  unfold ident, index.Name_, store.Name_ in *. cbn. congruence.
Qed.

(** Opening a segment on the files that closing it has left. *)
Lemma segment_reopen (c : Config) (s : segment.t) (d1 : disk) :
  seg_ok c s ->
  0 < MaxIndexBytes c <= 12 * 2 ^ 32 ->
  d1 !! store_name (segment.baseOffset s) = Some (content (segment.store_ s)) ->
  d1 !! index_name (segment.baseOffset s)
  = Some (resize (index.size (segment.index_ s)) (index.mmap (segment.index_ s))) ->
  exists s2,
    segment.newSegment d1 (segment.baseOffset s) c
    = (<[index_name (segment.baseOffset s) := index.mmap (segment.index_ s2)]> d1,
       Some s2, None)
    /\ seg_ok c s2
    /\ segment.baseOffset s2 = segment.baseOffset s
    /\ segment.nextOffset s2 = segment.nextOffset s
    /\ content (segment.store_ s2) = content (segment.store_ s)
    /\ (forall in_, index.Read (segment.index_ s2) in_
                    = index.Read (segment.index_ s) in_).
Proof.
  intros [Hwf Hc Hsn Hin Hop Hmm Hlast] HM Hds Hdi.
  pose proof Hwf as [Hst Hb Hn Hr Hent Hfit Hmm'].
  set (b := segment.baseOffset s) in *.
  set (idx := segment.index_ s) in *.
  destruct (index_Close_newIndex ∅ idx (MaxIndexBytes c) Hop
              ltac:(lia) ltac:(lia) ltac:(lia))
    as (_ & _ & _ & _ & _ & _ & Hre).
  rewrite Hin in Hre.
  destruct (Hre d1 Hdi) as (i2 & HN & HO1 & Hn2 & Ho2 & Hs2 & Hl2 & _ & HR2).
  clear Hre.
  unfold segment.newSegment. unfold store_name, index_name in *.
  unfold os.OpenFile at 1. rewrite Hds.
  rewrite (surjective_pairing (os.OpenFile d1 (pretty b +:+ ".index"))).
  rewrite HO1, HN.
  set (st2 := store.newStore (mkFile (pretty b +:+ ".store") (content (segment.store_ s)) false)).
  assert (Hlc := len_content _ Hst).
  assert (Hs0 := store_size_nonneg _ Hst).
  assert (Hst63 : store.size (segment.store_ s) < 2 ^ 63) by (destruct Hst; assumption).
  assert (Hwf2 : store_wf st2).
  { unfold st2, store.newStore. cbn [data].
    rewrite Hlc, uint64_small by lia.
    constructor; cbn; try reflexivity; try lia.
    unfold len at 2. cbn. lia. }
  assert (Hc2 : content st2 = content (segment.store_ s)) by apply app_nil_r.
  assert (Hname2 : store.Name_ st2 = pretty b +:+ ".store") by reflexivity.
  clearbody st2.
  assert (Hcases : index.size idx = 0 /\ segment.nextOffset s = b
                   \/ exists pos, index.Read i2 (-1)
                                  = (segment.nextOffset s - b - 1, pos, None)).
  { destruct Hlast as [H0|[pos Hp]].
    - left. split; [exact H0|]. lia.
    - right. exists pos. rewrite HR2. exact Hp. }
  assert (Hfin : forall nxt,
             nxt = segment.nextOffset s ->
             seg_ok c (segment.mk st2 i2 b nxt c)).
  { intros nxt ->. constructor;
      cbn [segment.store_ segment.index_ segment.baseOffset
           segment.nextOffset segment.config]; try assumption; try reflexivity.
    - constructor;
        cbn [segment.store_ segment.index_ segment.baseOffset
             segment.nextOffset segment.config]; try assumption; try lia.
    - destruct Hlast as [H0|[pos Hp]]; [left; lia|].
      right. exists pos. rewrite HR2. exact Hp. }
  destruct Hcases as [[H0 Hnb]|[pos Hp]].
  - assert (HE : index.Read i2 (-1) = (0, 0, Some EOF)).
    { unfold index.Read. rewrite Hs2, H0. reflexivity. }
    rewrite HE.
    exists (segment.mk st2 i2 b b c).
    split; [reflexivity|].
    split; [apply Hfin; lia|].
    cbn [segment.store_ segment.index_ segment.baseOffset segment.nextOffset].
    split; [reflexivity|]. split; [lia|]. split; [exact Hc2|exact HR2].
  - rewrite Hp.
    replace (uint64 (b + (segment.nextOffset s - b - 1) + 1))
      with (segment.nextOffset s)
      by (rewrite uint64_small by lia; lia).
    exists (segment.mk st2 i2 b (segment.nextOffset s) c).
    split; [reflexivity|].
    split; [apply Hfin; reflexivity|].
    cbn [segment.store_ segment.index_ segment.baseOffset segment.nextOffset].
    split; [reflexivity|]. split; [reflexivity|]. split; [exact Hc2|exact HR2].
Qed.

Section SegmentExtras.
Context {codec : Codec} {laws : CodecLaws codec}.

(** X11.  Round trip of the segment: an append that succeeds, on a
    device that takes the bytes, returns the next offset of the segment
    and advances it by one, and [Read] at the returned offset returns
    the record with that offset assigned. *)
Theorem segment_roundtrip (s s1 : segment.t) (r r1 : api.Record_) (o : Z) :
  segment_wf s ->
  (forall bytes,
      Marshal (api.mk (api.Value r) (segment.nextOffset s)) = Some bytes ->
      store.size (segment.store_ s) + 8 + len bytes < 2 ^ 63) ->
  segment.Append true true s r = (s1, r1, (o, None)) ->
  o = segment.nextOffset s
  /\ segment.nextOffset s1 = o + 1
  /\ segment.baseOffset s1 = segment.baseOffset s
  /\ (segment.Read true s1 o).2 = (Some (api.mk (api.Value r) o), None).
Proof.
  intros Hwf Hsize HA.
  destruct (segment_Append_Read s s1 r r1 o Hwf Hsize HA)
    as (Ho & Hr1 & Hn1 & Hb1 & _ & _ & _ & _ & s2 & HR & _).
  rewrite HR, Hr1. auto.
Qed.

(** X12.  A segment whose index is full takes the bytes and loses the
    record: the frame is appended to the store, then the index refuses
    the entry, and [Append] returns [io.EOF]; the next offset and the
    index stay as they were while the store has grown by the frame. *)
Theorem segment_Append_index_full (s : segment.t) (r : api.Record_)
    (bytes : list byte) :
  segment_wf s ->
  Marshal (api.mk (api.Value r) (segment.nextOffset s)) = Some bytes ->
  store.size (segment.store_ s) + 8 + len bytes < 2 ^ 63 ->
  len (index.mmap (segment.index_ s)) < index.size (segment.index_ s) + 12 ->
  exists s1,
    segment.Append true true s r
    = (s1, api.mk (api.Value r) (segment.nextOffset s), (0, Some EOF))
    /\ segment.nextOffset s1 = segment.nextOffset s
    /\ segment.index_ s1 = segment.index_ s
    /\ store.size (segment.store_ s1)
       = store.size (segment.store_ s) + 8 + len bytes
    /\ content (segment.store_ s1)
       = content (segment.store_ s) ++ enc.PutUint64 (len bytes) ++ bytes.
Proof.
  intros Hwf HM Hsize Hfull.
  pose proof Hwf as [Hst Hb Hn Hr Hent Hfit Hmm'].
  destruct (segment_Append_unfold s r bytes Hwf HM Hsize)
    as (st1 & Hwf1 & Hsz1 & Hn1 & Hc1 & HA).
  rewrite index_Write_no_room in HA by lia.
  eexists. split; [exact HA|]. cbn. auto.
Qed.


End SegmentExtras.

(** * Further properties: the log in working order *)

Lemma chain_snoc_base (l : list segment.t) (s s1 : segment.t) :
  chain (l ++ [s]) -> segment.baseOffset s1 = segment.baseOffset s ->
  chain (l ++ [s1]).
Proof.
  intros H Hb. induction l as [|a l IH]; [exact I|].
  destruct l as [|a' l].
  - cbn in *. rewrite Hb. exact H.
  - cbn [app chain] in *. destruct H as (H1 & H2 & H3).
    split; [exact H1|]. split; [exact H2|]. apply IH. exact H3.
Qed.

Lemma chain_snoc (l : list segment.t) (s s' : segment.t) :
  chain (l ++ [s]) ->
  segment.baseOffset s < segment.nextOffset s ->
  segment.nextOffset s = segment.baseOffset s' ->
  chain (l ++ [s; s']).
Proof.
  intros H Hlt Heq. induction l as [|a l IH]; [cbn; auto|].
  destruct l as [|a' l].
  - cbn in *. tauto.
  - cbn [app chain] in *. destruct H as (H1 & H2 & H3).
    split; [exact H1|]. split; [exact H2|]. apply IH. exact H3.
Qed.

(** In a chain every segment ends at or before the base of each later
    one, and starts before it. *)
Lemma chain_before (l : list segment.t) (s : segment.t) :
  chain (l ++ [s]) ->
  Forall (fun x => segment.baseOffset x <= segment.nextOffset x) l ->
  Forall (fun x => segment.nextOffset x <= segment.baseOffset s
                   /\ segment.baseOffset x < segment.baseOffset s) l.
Proof.
  induction l as [|a l IH]; intros H Hle; [constructor|].
  apply Forall_cons in Hle as [Ha Hle].
  destruct l as [|a' l].
  - cbn in H. destruct H as (H1 & H2 & _).
    constructor; [lia|constructor].
  - cbn [app chain] in H. destruct H as (H1 & H2 & H3).
    specialize (IH H3 Hle).
    pose proof IH as IH'. apply Forall_cons in IH' as [[Ha1 Ha2] _].
    constructor; [lia|exact IH].
Qed.

Lemma chain_app_l (l k : list segment.t) : chain (l ++ k) -> chain l.
Proof.
  induction l as [|a l IH]; [intros; exact I|].
  destruct l as [|a' l]; [intros; exact I|].
  cbn [app chain]. intros (H1 & H2 & H3).
  split; [exact H1|]. split; [exact H2|]. apply IH. exact H3.
Qed.

Lemma chain_sorted (l : list segment.t) :
  chain l ->
  Forall (fun x => segment.baseOffset x <= segment.nextOffset x) l ->
  StronglySorted Z.lt (segment.baseOffset <$> l).
Proof.
  induction l as [|s l IH] using rev_ind; intros H Hle; [constructor|].
  rewrite fmap_app. apply Forall_app in Hle as [Hle _].
  apply StronglySorted_app_2.
  - intros x1 x2 Hx1 Hx2. cbn in Hx2. apply list_elem_of_singleton in Hx2.
    subst x2. apply list_elem_of_fmap in Hx1 as (x & -> & Hx).
    pose proof (chain_before l s H Hle) as HF.
    rewrite Forall_forall in HF. apply (HF x Hx).
  - apply IH; [exact (chain_app_l _ _ H)|exact Hle].
  - cbn. repeat constructor.
Qed.

(** A new segment on a directory that holds none of its files, with
    everything [seg_ok] asks for. *)
Lemma segment_newSegment_fresh_ok (d : disk) (off : Z) (c : Config) :
  d !! store_name off = None ->
  d !! index_name off = None ->
  0 < MaxIndexBytes c <= 12 * 2 ^ 32 ->
  0 <= off < 2 ^ 64 - 1 ->
  exists d' seg,
    segment.newSegment d off c = (d', Some seg, None)
    /\ seg_ok c seg
    /\ segment.nextOffset seg = off
    /\ segment.baseOffset seg = off
    /\ store.size (segment.store_ seg) = 0
    /\ content (segment.store_ seg) = []
    /\ index.size (segment.index_ seg) = 0
    /\ d' !! store_name off = Some []
    /\ d' !! index_name off = Some (replicate (Z.to_nat (MaxIndexBytes c)) x00)
    /\ (forall name,
          name <> store_name off -> name <> index_name off ->
          d' !! name = d !! name).
Proof.
  unfold store_name, index_name.
  intros Hs Hi HM Hoff. unfold segment.newSegment, os.OpenFile.
  rewrite Hs. cbv beta iota zeta.
  rewrite lookup_insert_ne by apply store_index_name_ne. rewrite Hi.
  cbv beta iota zeta.
  unfold index.newIndex. cbn [data Name].
  rewrite (int64_small (MaxIndexBytes c)) by lia.
  destruct (MaxIndexBytes c <? 0) eqn:E0; [apply Z.ltb_lt in E0; lia|].
  destruct (MaxIndexBytes c =? 0) eqn:E1; [apply Z.eqb_eq in E1; lia|].
  unfold index.Read at 1. cbn [index.size].
  change (uint64 (len [])) with 0. cbn [Z.eqb].
  eexists _, _. split; [reflexivity|].
  split.
  { constructor; cbn [segment.store_ segment.index_ segment.baseOffset
                      segment.nextOffset segment.config index.size index.mmap
                      index.file closed]; try reflexivity.
    - constructor; cbn [segment.store_ segment.index_ segment.baseOffset
                        segment.nextOffset index.size index.mmap]; try lia.
      + constructor; cbn; try reflexivity; lia.
      + rewrite len_resize by lia. lia.
      + rewrite len_resize by lia. lia.
    - apply len_resize. lia.
    - left. reflexivity. }
  cbn [segment.store_ segment.index_ segment.baseOffset segment.nextOffset
       index.size].
  split; [reflexivity|]. split; [reflexivity|]. split; [reflexivity|].
  split; [reflexivity|]. split; [reflexivity|].
  split.
  { rewrite lookup_insert_ne by (apply not_eq_sym, store_index_name_ne).
    rewrite lookup_insert_ne by (apply not_eq_sym, store_index_name_ne).
    apply lookup_insert_eq. }
  split.
  { rewrite lookup_insert_eq. f_equal. unfold resize. cbn.
    rewrite take_nil. cbn. f_equal. lia. }
  intros name Hn1 Hn2.
  rewrite !lookup_insert_ne by (intros Heq; symmetry in Heq; contradiction).
  reflexivity.
Qed.

(** What [log_ok] says about the last segment and its pointer. *)
Lemma log_ok_last (w : Log.world) (lg : Log.t) (front : list segment.t)
    (seg : segment.t) :
  log_ok w lg (front ++ [seg]) ->
  exists ps p,
    Log.segments lg = ps ++ [p]
    /\ Log.activeSegment lg = Some p
    /\ Log.deref w p = Some seg
    /\ Forall2 (fun q s => Log.deref w q = Some s) ps front
    /\ (p ∉ ps) /\ NoDup ps.
Proof.
  intros (HF & _ & Hnd & Hal & _).
  apply Forall2_app_inv_r in HF as (ps & pl & Hps & Hpl & Heq).
  apply Forall2_cons_inv_r in Hpl as (p & pl' & Hp & Hnil & ->).
  apply Forall2_nil_inv_r in Hnil as ->.
  exists ps, p. split; [exact Heq|].
  split; [unfold active_is_last in Hal; rewrite Hal, Heq; apply last_snoc|].
  split; [exact Hp|]. split; [exact Hps|].
  rewrite Heq in Hnd. apply NoDup_app in Hnd as (Hnd1 & Hnd2 & _).
  split; [|exact Hnd1].
  intros Hin. apply (Hnd2 p Hin). apply list_elem_of_singleton. reflexivity.
Qed.

Lemma Forall2_deref_set (w : Log.world) (p : Log.ptr) (s1 : segment.t)
    (ps : list Log.ptr) (segs : list segment.t) :
  p ∉ ps ->
  Forall2 (fun q s => Log.deref w q = Some s) ps segs ->
  Forall2 (fun q s => Log.deref (Log.set w p s1) q = Some s) ps segs.
Proof.
  intros Hp HF. induction HF as [|q s ps segs Hq HF IH]; [constructor|].
  apply not_elem_of_cons in Hp as [Hne Hp].
  constructor; [|apply IH; exact Hp].
  rewrite deref_set_other by congruence. exact Hq.
Qed.

Lemma Forall2_deref_lt (w : Log.world) (ps : list Log.ptr)
    (segs : list segment.t) :
  Forall2 (fun q s => Log.deref w q = Some s) ps segs ->
  Forall (fun q => (q < length (Log.mem w))%nat) ps.
Proof.
  intros HF. induction HF as [|q s ps segs Hq HF IH]; constructor; [|exact IH].
  unfold Log.deref in Hq. apply lookup_lt_Some in Hq. exact Hq.
Qed.

Lemma Forall2_deref_grow (w : Log.world) (segn : segment.t) (d : disk)
    (ps : list Log.ptr) (segs : list segment.t) :
  Forall2 (fun q s => Log.deref w q = Some s) ps segs ->
  Forall2 (fun q s => Log.deref (Log.mkWorld (Log.mem w ++ [segn]) d) q = Some s)
    ps segs.
Proof.
  intros HF. induction HF as [|q s ps segs Hq HF IH]; constructor; [|exact IH].
  unfold Log.deref in *. cbn [Log.mem].
  rewrite lookup_app_l by (apply lookup_lt_Some in Hq; exact Hq). exact Hq.
Qed.

(** A log opened on an empty directory is in working order. *)
Lemma NewLog_ok (dir : string) (c : Config) :
  0 <= MaxIndexBytes c <= 12 * 2 ^ 32 ->
  0 <= InitialOffset c < 2 ^ 64 - 1 ->
  exists w lg seg,
    Log.NewLog (Log.mkWorld [] ∅) dir c = (w, lg, None)
    /\ log_ok w lg [seg]
    /\ Log.Dir lg = dir
    /\ MaxStoreBytes (Log.Config_ lg)
       = (if MaxStoreBytes c =? 0 then 1024 else MaxStoreBytes c)
    /\ MaxIndexBytes (Log.Config_ lg)
       = (if MaxIndexBytes c =? 0 then 1024 else MaxIndexBytes c)
    /\ InitialOffset (Log.Config_ lg) = InitialOffset c
    /\ segment.baseOffset seg = InitialOffset c
    /\ segment.nextOffset seg = InitialOffset c
    /\ store.size (segment.store_ seg) = 0
    /\ Log.LowestOffset w lg = (InitialOffset c, None)
    /\ Log.files w !! store_name (InitialOffset c) = Some []
    /\ Log.files w !! index_name (InitialOffset c)
       = Some (replicate (Z.to_nat (MaxIndexBytes (Log.Config_ lg))) x00).
Proof.
  intros HM HI. unfold Log.NewLog, Log.setup.
  cbn [Log.files Log.mem MaxStoreBytes MaxIndexBytes InitialOffset].
  rewrite map_to_list_empty. cbn [fmap list_fmap]. cbn.
  set (c' := mkConfig _ _ _).
  assert (HM' : 0 < MaxIndexBytes c' <= 12 * 2 ^ 32).
  { subst c'. cbn. destruct (MaxIndexBytes c =? 0) eqn:E; [lia|].
    apply Z.eqb_neq in E. lia. }
  assert (HS' : MaxStoreBytes c' <> 0).
  { subst c'. cbn. destruct (MaxStoreBytes c =? 0) eqn:E; [lia|].
    apply Z.eqb_neq in E. exact E. }
  destruct (segment_newSegment_fresh_ok ∅ (InitialOffset c) c'
              (lookup_empty _) (lookup_empty _) HM' HI)
    as (d' & seg & HN & Hok & Hn & Hb & Hs0 & Hc0 & Hi0 & Hds & Hdi & Hd').
  unfold Log.newSegment. cbn [Log.files Log.mem Log.Config_ InitialOffset].
  change (InitialOffset c') with (InitialOffset c). rewrite HN.
  exists (Log.mkWorld [seg] d'), (Log.mk dir c' (Some 0%nat) [0%nat]), seg.
  split; [reflexivity|].
  split.
  { split; [repeat constructor|]. split; [discriminate|].
    split; [repeat constructor; apply not_elem_of_nil|].
    split; [reflexivity|]. split; [constructor; [exact Hok|constructor]|].
    split; [exact I|]. split; [exact HM'|]. split; [exact HS'|].
    intros name. cbn [Log.files fmap list_fmap]. rewrite Hb. split.
    - intros Hsome. exists (InitialOffset c).
      split; [apply list_elem_of_singleton; reflexivity|].
      destruct (decide (name = store_name (InitialOffset c))) as [->|H1];
        [left; reflexivity|].
      destruct (decide (name = index_name (InitialOffset c))) as [->|H2];
        [right; reflexivity|].
      rewrite (Hd' name H1 H2), lookup_empty in Hsome.
      destruct Hsome as [? ?]. discriminate.
    - intros (b & Hbin & Hname). apply list_elem_of_singleton in Hbin. subst b.
      destruct Hname as [->| ->]; [rewrite Hds|rewrite Hdi]; eexists; reflexivity. }
  cbn [Log.Dir Log.Config_ Log.files].
  split; [reflexivity|]. split; [reflexivity|]. split; [reflexivity|].
  split; [reflexivity|]. split; [exact Hb|]. split; [exact Hn|].
  split; [exact Hs0|].
  split; [unfold Log.LowestOffset; cbn; rewrite Hb; reflexivity|].
  split; [exact Hds|exact Hdi].
Qed.

Lemma name_same_base (n b : Z) (s s' : string) :
  String.length s = String.length s' ->
  pretty n +:+ s = pretty b +:+ s' -> n = b.
Proof.
  intros Hl Heq. destruct (decide (n = b)) as [->|Hne]; [reflexivity|].
  exfalso. exact (file_name_ne n b s s' Hl Hne Heq).
Qed.

(** The files of a base that is not among the bases of the log are not
    in the directory. *)
Lemma log_ok_absent (w : Log.world) (lg : Log.t) (segs : list segment.t) (n : Z) :
  log_ok w lg segs ->
  n ∉ segment.baseOffset <$> segs ->
  Log.files w !! store_name n = None /\ Log.files w !! index_name n = None.
Proof.
  intros (_ & _ & _ & _ & _ & _ & _ & _ & Hdisk) Hn.
  split; apply eq_None_not_Some; intros Hsome; apply Hdisk in Hsome;
    destruct Hsome as (b & Hb & [Heq|Heq]); apply Hn;
    unfold store_name, index_name in Heq;
    apply name_same_base in Heq; try reflexivity; subst; exact Hb.
Qed.

Lemma log_ok_set_last (w : Log.world) (lg : Log.t) (front : list segment.t)
    (seg seg1 : segment.t) (p : Log.ptr) :
  log_ok w lg (front ++ [seg]) ->
  Log.activeSegment lg = Some p ->
  seg_ok (Log.Config_ lg) seg1 ->
  segment.baseOffset seg1 = segment.baseOffset seg ->
  log_ok (Log.set w p seg1) lg (front ++ [seg1]).
Proof.
  intros Hok Ha Hok1 Hb1.
  destruct (log_ok_last w lg front seg Hok)
    as (ps & p' & Heq & Ha' & Hd & HF & Hnin & Hnd).
  assert (p' = p) as -> by congruence.
  destruct Hok as (_ & _ & Hnd' & Hal & Hall & Hch & HM & HS & Hdisk).
  split.
  { rewrite Heq. apply Forall2_app; [apply Forall2_deref_set; assumption|].
    constructor; [|constructor]. apply (deref_set_same w p seg seg1 Hd). }
  split; [intros H; apply app_eq_nil in H as [_ H]; discriminate|].
  split; [exact Hnd'|]. split; [exact Hal|].
  split.
  { apply Forall_app in Hall as [Hall _]. apply Forall_app.
    split; [exact Hall|]. constructor; [exact Hok1|constructor]. }
  split; [exact (chain_snoc_base front seg seg1 Hch Hb1)|].
  split; [exact HM|]. split; [exact HS|].
  intros name. cbn [Log.set Log.files]. rewrite Hdisk.
  rewrite !fmap_app. cbn [fmap list_fmap]. rewrite Hb1. reflexivity.
Qed.

Lemma seg_ok_le (c : Config) (l : list segment.t) :
  Forall (seg_ok c) l ->
  Forall (fun x => segment.baseOffset x <= segment.nextOffset x) l.
Proof.
  intros H. eapply Forall_impl; [exact H|].
  intros x [[_ _ Hle _ _ _ _] _ _ _ _ _ _]. exact Hle.
Qed.

Lemma log_ok_roll (w w' : Log.world) (lg lg' : Log.t) (front : list segment.t)
    (seg1 : segment.t) (e : option error) :
  log_ok w lg (front ++ [seg1]) ->
  segment.baseOffset seg1 < segment.nextOffset seg1 ->
  segment.nextOffset seg1 < 2 ^ 64 - 1 ->
  Log.newSegment w lg (segment.nextOffset seg1) = (w', lg', e) ->
  exists segn,
    e = None
    /\ log_ok w' lg' (front ++ [seg1; segn])
    /\ Log.Config_ lg' = Log.Config_ lg
    /\ Log.Dir lg' = Log.Dir lg
    /\ Log.segments lg' = Log.segments lg ++ [length (Log.mem w)]
    /\ Log.mem w' = Log.mem w ++ [segn]
    /\ segment.baseOffset segn = segment.nextOffset seg1
    /\ segment.nextOffset segn = segment.nextOffset seg1
    /\ store.size (segment.store_ segn) = 0
    /\ content (segment.store_ segn) = [].
Proof.
  intros Hok Hlt Hr HN.
  destruct (log_ok_last w lg front seg1 Hok)
    as (ps & p & Heq & Ha & Hd & HF & Hnin & Hnd).
  pose proof Hok as (HF' & _ & Hnd' & Hal & Hall & Hch & HM & HS & Hdisk).
  set (n := segment.nextOffset seg1) in *.
  pose proof (seg_ok_le _ _ Hall) as Hle.
  assert (Hbases : Forall (fun b => b < n) (segment.baseOffset <$> front ++ [seg1])).
  { rewrite fmap_app. apply Forall_app. split.
    - apply Forall_app in Hle as [Hle _].
      pose proof (chain_before front seg1 Hch Hle) as HB.
      apply Forall_fmap. eapply Forall_impl; [exact HB|].
      intros x [_ Hx]. cbn. lia.
    - cbn. constructor; [exact Hlt|constructor]. }
  assert (Hnotin : n ∉ segment.baseOffset <$> front ++ [seg1]).
  { intros Hin. rewrite Forall_forall in Hbases. specialize (Hbases n Hin). lia. }
  destruct (log_ok_absent w lg _ n Hok Hnotin) as [Hfs Hfi].
  assert (Hb0 : 0 <= n).
  { apply Forall_app in Hall as [_ Hall]. apply Forall_cons in Hall as [[[_ Hb _ _ _ _ _] _ _ _ _ _ _] _].
    lia. }
  destruct (segment_newSegment_fresh_ok (Log.files w) n (Log.Config_ lg)
              Hfs Hfi HM ltac:(lia))
    as (d' & segn & HNS & Hokn & Hnn & Hbn & Hsn & Hcn & _ & Hds & Hdi & Hd').
  unfold Log.newSegment in HN. rewrite HNS in HN.
  inversion HN; subst w' lg' e; clear HN.
  exists segn. split; [reflexivity|].
  cbn [Log.Config_ Log.Dir Log.segments Log.mem].
  split; [|repeat (split; [first [reflexivity|assumption]|]); assumption].
  assert (Hlt' := Forall2_deref_lt _ _ _ HF').
  split.
  { cbn [Log.segments].
    replace (front ++ [seg1; segn]) with ((front ++ [seg1]) ++ [segn])
      by (rewrite <- app_assoc; reflexivity).
    apply Forall2_app; [apply Forall2_deref_grow; exact HF'|].
    constructor; [|constructor].
    unfold Log.deref. cbn [Log.mem]. rewrite lookup_app_r by lia.
    rewrite Nat.sub_diag. reflexivity. }
  split; [intros H; apply app_eq_nil in H as [_ H]; discriminate|].
  split.
  { cbn [Log.segments]. apply NoDup_app. split; [exact Hnd'|].
    split; [|repeat constructor; apply not_elem_of_nil].
    intros q Hq Hq'. apply list_elem_of_singleton in Hq'. subst q.
    rewrite Forall_forall in Hlt'. specialize (Hlt' _ Hq). lia. }
  split; [unfold active_is_last; cbn; symmetry; apply last_snoc|].
  cbn [Log.Config_].
  split.
  { replace (front ++ [seg1; segn]) with ((front ++ [seg1]) ++ [segn])
      by (rewrite <- app_assoc; reflexivity).
    apply Forall_app. split; [exact Hall|]. constructor; [exact Hokn|constructor]. }
  split; [apply chain_snoc; [exact Hch|exact Hlt|fold n; lia]|].
  split; [exact HM|]. split; [exact HS|].
  intros name. cbn [Log.files].
  replace (front ++ [seg1; segn]) with ((front ++ [seg1]) ++ [segn])
    by (rewrite <- app_assoc; reflexivity).
  rewrite fmap_app. cbn [fmap list_fmap]. rewrite Hbn.
  split.
  - intros Hsome.
    destruct (decide (name = store_name n)) as [->|H1].
    { exists n. split; [apply elem_of_app; right; apply list_elem_of_singleton; reflexivity|].
      left. reflexivity. }
    destruct (decide (name = index_name n)) as [->|H2].
    { exists n. split; [apply elem_of_app; right; apply list_elem_of_singleton; reflexivity|].
      right. reflexivity. }
    rewrite (Hd' name H1 H2) in Hsome. apply Hdisk in Hsome.
    destruct Hsome as (b & Hb & Hname). exists b.
    split; [apply elem_of_app; left; exact Hb|exact Hname].
  - intros (b & Hb & Hname). apply elem_of_app in Hb as [Hb|Hb].
    + assert (Hne : b <> n).
      { rewrite Forall_forall in Hbases. specialize (Hbases b Hb). lia. }
      rewrite Hd'.
      * apply Hdisk. exists b. split; [exact Hb|exact Hname].
      * intros Hnm. destruct Hname as [->| ->];
          unfold store_name, index_name in Hnm;
          apply name_same_base in Hnm; try reflexivity; congruence.
      * intros Hnm. destruct Hname as [->| ->];
          unfold store_name, index_name in Hnm;
          apply name_same_base in Hnm; try reflexivity; congruence.
    + apply list_elem_of_singleton in Hb. subst b.
      destruct Hname as [->| ->]; [rewrite Hds|rewrite Hdi]; eexists; reflexivity.
Qed.

Section LogOk.
Context {codec : Codec}.

(** One append to a log in working order, on a device that takes the
    bytes: the outcome is that of the append to the last segment, the
    log stays in working order, and a segment is added exactly when the
    append succeeded and left the last segment at its limit. *)
Lemma log_ok_Append (w w' : Log.world) (lg lg' : Log.t)
    (front : list segment.t) (seg : segment.t)
    (r r' : api.Record_) (o : Z) (e : option error) :
  log_ok w lg (front ++ [seg]) ->
  segment.nextOffset seg < 2 ^ 64 - 2 ->
  (forall bytes,
      Marshal (api.mk (api.Value r) (segment.nextOffset seg)) = Some bytes ->
      store.size (segment.store_ seg) + 8 + len bytes < 2 ^ 63) ->
  Log.Append true true w lg r = (w', lg', r', (o, e)) ->
  exists seg1 o1 tail,
    segment.Append true true seg r = (seg1, r', (o1, e))
    /\ o = match e with None => o1 | Some _ => 0 end
    /\ log_ok w' lg' (front ++ seg1 :: tail)
    /\ Log.Config_ lg' = Log.Config_ lg
    /\ Log.Dir lg' = Log.Dir lg
    /\ match e with
       | None =>
           if segment.IsMaxed seg1
           then exists segn,
                  tail = [segn]
                  /\ segment.baseOffset segn = segment.nextOffset seg1
                  /\ segment.nextOffset segn = segment.nextOffset seg1
                  /\ store.size (segment.store_ segn) = 0
                  /\ content (segment.store_ segn) = []
                  /\ Log.segments lg' = Log.segments lg ++ [length (Log.mem w)]
           else tail = [] /\ lg' = lg
       | Some _ => tail = [] /\ lg' = lg
       end.
Proof.
  intros Hok Hrange Hsize HA.
  destruct (log_ok_last w lg front seg Hok)
    as (ps & p & Heq & Ha & Hd & HF & Hnin & Hnd).
  pose proof Hok as (_ & _ & _ & _ & Hall & _).
  assert (Hsok : seg_ok (Log.Config_ lg) seg).
  { apply Forall_app in Hall as [_ Hall]. apply Forall_cons in Hall as [H _].
    exact H. }
  revert HA. unfold Log.Append. rewrite Ha, Hd.
  destruct (segment.Append true true seg r) as [[seg1 r1] [o1 e1]] eqn:EA.
  destruct (seg_ok_Append _ seg seg1 r r1 o1 e1 Hsok Hrange Hsize EA)
    as (Hok1 & Hb1 & Hcase & _).
  pose proof (log_ok_set_last w lg front seg seg1 p Hok Ha Hok1 Hb1) as Hokset.
  destruct e1 as [e1|].
  - intros H. inversion H; subst w' lg' r' o e; clear H.
    exists seg1, o1, []. split; [reflexivity|]. split; [reflexivity|].
    split; [exact Hokset|]. auto.
  - destruct Hcase as [Ho1 Hn1].
    destruct (segment.IsMaxed seg1) eqn:EM.
    + rewrite Ho1, <- Hn1. rewrite (uint64_small (segment.nextOffset seg1)).
      2:{ destruct Hsok as [[_ Hb Hle _ _ _ _] _ _ _ _ _ _]. lia. }
      destruct (Log.newSegment (Log.set w p seg1) lg (segment.nextOffset seg1))
        as [[w2 lg2] e2] eqn:EN.
      assert (Hlt : segment.baseOffset seg1 < segment.nextOffset seg1).
      { destruct Hsok as [[_ _ Hle _ _ _ _] _ _ _ _ _ _]. lia. }
      destruct (log_ok_roll _ _ _ _ front seg1 e2 Hokset Hlt ltac:(lia) EN)
        as (segn & -> & Hok2 & Hc2 & Hd2 & Hs2 & _ & Hbn & Hnn & Hsn & Hcn).
      intros H. inversion H; subst w' lg' r' o e; clear H.
      exists seg1, (segment.nextOffset seg), [segn].
      rewrite <- Ho1. split; [reflexivity|]. split; [reflexivity|].
      split; [exact Hok2|]. split; [exact Hc2|]. split; [exact Hd2|].
      rewrite EM. exists segn. split; [reflexivity|]. split; [exact Hbn|].
      split; [exact Hnn|]. split; [exact Hsn|]. split; [exact Hcn|].
      rewrite Hs2. cbn [Log.set Log.mem]. rewrite length_insert. reflexivity.
    + intros H. inversion H; subst w' lg' r' o e; clear H.
      exists seg1, o1, []. split; [reflexivity|]. split; [reflexivity|].
      split; [exact Hokset|]. rewrite EM. auto.
Qed.

End LogOk.

(** ** Reading from two logs whose segments agree *)

Section ReadRel.
Context {codec : Codec}.
Variables (w w' : Log.world) (o : Z).
Variable P : relation (option api.Record_ * option error).

Lemma covers_seg (v : Log.world) (q : Log.ptr) (s : segment.t) :
  Log.deref v q = Some s -> covers v o q = seg_covers s o.
Proof. intros H. unfold covers. rewrite H. reflexivity. Qed.

Lemma reads_rel_of_segs (ps ps' : list Log.ptr) (segs segs' : list segment.t) :
  Forall2 (fun q s => Log.deref w q = Some s) ps segs ->
  Forall2 (fun q s => Log.deref w' q = Some s) ps' segs' ->
  Forall2 (seg_rel o P) segs segs' ->
  Forall2 (reads_rel o P w w') ps ps'.
Proof.
  intros H1. revert ps' segs'.
  induction H1 as [|q s ps segs Hq H1 IH]; intros ps' segs' H2 H3.
  - apply Forall2_nil_inv_l in H3 as ->.
    apply Forall2_nil_inv_r in H2 as ->. constructor.
  - apply Forall2_cons_inv_l in H3 as (s' & segs'' & Hs & H3 & ->).
    apply Forall2_cons_inv_r in H2 as (q' & ps'' & Hq' & H2 & ->).
    constructor; [|exact (IH _ _ H2 H3)].
    exists s, s'. split; [exact Hq|]. split; [exact Hq'|exact Hs].
Qed.

Lemma foldl_find_rel (ps ps' : list Log.ptr) :
  Forall2 (reads_rel o P w w') ps ps' ->
  forall acc acc',
    option_Forall2 (fun q q' => reads_rel o P w w' q q' /\ covers w o q = true)
      acc acc' ->
    option_Forall2 (fun q q' => reads_rel o P w w' q q' /\ covers w o q = true)
      (foldl (fun s p => if covers w o p then Some p else s) acc ps)
      (foldl (fun s p => if covers w' o p then Some p else s) acc' ps').
Proof.
  induction 1 as [|q q' ps ps' Hqq HF IH]; intros acc acc' Hacc; [exact Hacc|].
  cbn [foldl]. apply IH.
  pose proof Hqq as (s & s' & Hs & Hs' & Hc & HP).
  rewrite (covers_seg w' q' s' Hs'), Hc, <- (covers_seg w q s Hs).
  destruct (covers w o q) eqn:E; [|exact Hacc].
  constructor. split; [exact Hqq|exact E].
Qed.

Lemma foldl_find_extra (v : Log.world) (extra : list Log.ptr)
    (acc : option Log.ptr) :
  (forall q, q ∈ extra -> covers v o q = false) ->
  foldl (fun s p => if covers v o p then Some p else s) acc extra = acc.
Proof.
  revert acc. induction extra as [|q extra IH]; intros acc H; [reflexivity|].
  cbn [foldl]. rewrite (H q) by (apply elem_of_cons; left; reflexivity).
  apply IH. intros q' Hq'. apply H. apply elem_of_cons. right. exact Hq'.
Qed.

(** Reads of two logs whose segments agree at the offset, pair by
    pair, are related; the second log may end with further segments
    that do not cover the offset. *)
Lemma Log_Read_rel (lg lg' : Log.t) (ps' extra : list Log.ptr) :
  P (None, Some (Log.outOfRange o)) (None, Some (Log.outOfRange o)) ->
  Forall2 (reads_rel o P w w') (Log.segments lg) ps' ->
  Log.segments lg' = ps' ++ extra ->
  (forall q, q ∈ extra -> covers w' o q = false) ->
  P (Log.Read true w lg o).2 (Log.Read true w' lg' o).2.
Proof.
  intros HP0 HF Heq Hextra.
  assert (Hfind : option_Forall2
                    (fun q q' => reads_rel o P w w' q q' /\ covers w o q = true)
                    (Log.find w lg o) (Log.find w' lg' o)).
  { unfold Log.find. rewrite !find_foldl, Heq, foldl_app.
    rewrite (foldl_find_extra w' extra) by exact Hextra.
    apply foldl_find_rel; [exact HF|constructor]. }
  unfold Log.Read.
  destruct Hfind as [q q' [(s & s' & Hs & Hs' & Hc & HPs) Hcov]|]; [|exact HP0].
  rewrite Hs, Hs'.
  rewrite (covers_seg w q s Hs) in Hcov. rewrite Hcov in Hc.
  specialize (HPs Hcov).
  unfold seg_covers in Hc, Hcov.
  apply andb_prop in Hc as [_ Hc]. apply andb_prop in Hcov as [_ Hcov].
  apply Z.ltb_lt in Hc. apply Z.ltb_lt in Hcov.
  destruct (segment.nextOffset s <=? o) eqn:E; [apply Z.leb_le in E; lia|].
  destruct (segment.nextOffset s' <=? o) eqn:E'; [apply Z.leb_le in E'; lia|].
  destruct (segment.Read true s o) as [s1 r1]. destruct (segment.Read true s' o) as [s1' r1'].
  exact HPs.
Qed.

End ReadRel.

(** ** Appending to a log in working order *)

Lemma log_ok_segs (w : Log.world) (lg : Log.t) (segs : list segment.t)
    (q : Log.ptr) :
  log_ok w lg segs -> q ∈ Log.segments lg ->
  exists s, Log.deref w q = Some s /\ s ∈ segs.
Proof.
  intros (HF & _) Hq.
  apply list_elem_of_lookup in Hq as [i Hi].
  destruct (Forall2_lookup_l _ _ _ _ _ HF Hi) as (s & Hs & Hd).
  exists s. split; [exact Hd|]. apply list_elem_of_lookup. exists i. exact Hs.
Qed.

Lemma log_ok_next_le (w : Log.world) (lg : Log.t) (front : list segment.t)
    (seg s : segment.t) :
  log_ok w lg (front ++ [seg]) -> s ∈ front ++ [seg] ->
  segment.nextOffset s <= segment.nextOffset seg.
Proof.
  intros (_ & _ & _ & _ & Hall & Hch & _) Hs.
  pose proof (seg_ok_le _ _ Hall) as Hle.
  apply Forall_app in Hle as [Hlef Hlel].
  apply Forall_cons in Hlel as [Hlel _].
  apply elem_of_app in Hs as [Hs|Hs].
  - pose proof (chain_before front seg Hch Hlef) as HB.
    rewrite Forall_forall in HB. specialize (HB s Hs). lia.
  - apply list_elem_of_singleton in Hs. subst s. lia.
Qed.

(** Beyond the last offset assigned nothing is read. *)
Lemma log_ok_Read_beyond {codec : Codec} (w : Log.world) (lg : Log.t)
    (front : list segment.t) (seg : segment.t) (o : Z) :
  log_ok w lg (front ++ [seg]) -> segment.nextOffset seg <= o ->
  Log.Read true w lg o = (w, (None, Some (Log.outOfRange o))).
Proof.
  intros Hok Ho. apply Log_Read_not_covered.
  intros (q & Hq & Hc).
  destruct (log_ok_segs w lg _ q Hok Hq) as (s & Hd & Hs).
  pose proof (log_ok_next_le w lg front seg s Hok Hs) as Hle.
  unfold covers in Hc. rewrite Hd in Hc.
  apply andb_prop in Hc as [_ Hc]. apply Z.ltb_lt in Hc. lia.
Qed.

Lemma keeps_record_refl (x : option api.Record_ * option error) :
  keeps_record x x.
Proof. intros rec e H. exact H. Qed.

Lemma seg_rel_refl {codec : Codec} (o : Z) (l : list segment.t) :
  Forall2 (seg_rel o keeps_record) l l.
Proof.
  induction l as [|s l IH]; constructor; [|exact IH].
  split; [reflexivity|]. intros _. apply keeps_record_refl.
Qed.

Section LogStep2.
Context {codec : Codec} {laws : CodecLaws codec}.

(** One step of a log in working order: the log stays in working
    order, the next offset advances by one exactly when the append
    succeeds, the store of the last segment grows by one frame at most,
    and every record that could be read is read as before. *)
Lemma log_ok_step (w w' : Log.world) (lg lg' : Log.t)
    (front : list segment.t) (seg : segment.t)
    (r r' : api.Record_) (o : Z) (e : option error) :
  log_ok w lg (front ++ [seg]) ->
  segment.nextOffset seg < 2 ^ 64 - 2 ->
  store.size (segment.store_ seg) + frame_size r (segment.nextOffset seg)
  < 2 ^ 63 ->
  Log.Append true true w lg r = (w', lg', r', (o, e)) ->
  exists front' seg',
    log_ok w' lg' (front' ++ [seg'])
    /\ match e with
       | None => o = segment.nextOffset seg
                 /\ segment.nextOffset seg' = segment.nextOffset seg + 1
       | Some _ => o = 0 /\ segment.nextOffset seg' = segment.nextOffset seg
       end
    /\ store.size (segment.store_ seg')
       <= store.size (segment.store_ seg)
          + frame_size r (segment.nextOffset seg)
    /\ Log.Config_ lg' = Log.Config_ lg
    /\ Log.Dir lg' = Log.Dir lg
    /\ forall o', keeps_record (Log.Read true w lg o').2 (Log.Read true w' lg' o').2.
Proof.
  intros Hok Hrange Hframe HA.
  assert (Hsize : forall bytes,
             Marshal (api.mk (api.Value r) (segment.nextOffset seg)) = Some bytes ->
             store.size (segment.store_ seg) + 8 + len bytes < 2 ^ 63).
  { intros bytes HM. unfold frame_size in Hframe. rewrite HM in Hframe. lia. }
  destruct (log_ok_Append w w' lg lg' front seg r r' o e Hok Hrange Hsize HA)
    as (seg1 & o1 & tail & EA & Ho & Hok' & Hc' & Hd' & Htail).
  pose proof Hok as (HF & _ & _ & _ & Hall & _).
  assert (Hsok : seg_ok (Log.Config_ lg) seg).
  { apply Forall_app in Hall as [_ Hall]. apply Forall_cons in Hall as [H _].
    exact H. }
  destruct (seg_ok_Append _ seg seg1 r r' o1 e Hsok Hrange Hsize EA)
    as (Hok1 & Hb1 & Hcase & Hwf1 & _ & _).
  destruct (segment_Append_cases seg seg1 r r' o1 e (sok_wf _ _ Hsok) Hsize EA)
    as (_ & _ & Hsz1 & _).
  assert (Hs0 : 0 <= store.size (segment.store_ seg)).
  { apply store_size_nonneg. destruct Hsok as [[H _ _ _ _ _ _] _ _ _ _ _ _].
    exact H. }
  assert (Hf0 : 0 <= frame_size r (segment.nextOffset seg)).
  { unfold frame_size. destruct (Marshal _) as [bs|]; [|lia].
    pose proof (len_nonneg bs). lia. }
  (* the reads *)
  assert (Hseg : exists extra,
             Log.segments lg' = Log.segments lg ++ extra
             /\ Forall2 (fun q s => Log.deref w' q = Some s) extra tail
             /\ Forall (fun s => segment.nextOffset seg <= segment.baseOffset s) tail).
  { destruct e as [e|].
    - destruct Htail as [-> ->]. exists []. rewrite app_nil_r.
      split; [reflexivity|]. split; constructor.
    - destruct (segment.IsMaxed seg1).
      + destruct Htail as (segn & -> & Hbn & _ & _ & _ & Hs').
        exists [length (Log.mem w)]. split; [exact Hs'|].
        destruct Hok' as (HF' & _). rewrite Hs' in HF'.
        replace (front ++ [seg1; segn]) with ((front ++ [seg1]) ++ [segn]) in HF'
          by (rewrite <- app_assoc; reflexivity).
        apply Forall2_app_inv in HF' as [_ HF'].
        2:{ apply Forall2_length in HF. rewrite HF, !length_app. reflexivity. }
        split; [exact HF'|]. constructor; [|constructor].
        destruct Hcase as [_ Hn1]. lia.
      + destruct Htail as [-> ->]. exists []. rewrite app_nil_r.
        split; [reflexivity|]. split; constructor. }
  destruct Hseg as (extra & Hsegs & Hextra & Hbases).
  assert (HF1 : Forall2 (fun q s => Log.deref w' q = Some s)
                  (Log.segments lg) (front ++ [seg1])).
  { destruct Hok' as (HF' & _). rewrite Hsegs in HF'.
    replace (front ++ seg1 :: tail) with ((front ++ [seg1]) ++ tail) in HF'
      by (rewrite <- app_assoc; reflexivity).
    apply Forall2_app_inv in HF' as [HF' _]; [exact HF'|].
    apply Forall2_length in HF. rewrite HF, !length_app. reflexivity. }
  assert (Hreads : forall o', keeps_record (Log.Read true w lg o').2 (Log.Read true w' lg' o').2).
  { intros o'. destruct (Z.le_gt_cases (segment.nextOffset seg) o') as [Hge|Hlt].
    - rewrite (log_ok_Read_beyond w lg front seg o' Hok Hge).
      intros rec e0 H. discriminate.
    - apply (Log_Read_rel w w' o' keeps_record lg lg' (Log.segments lg) extra).
      + apply keeps_record_refl.
      + apply (reads_rel_of_segs w w' o' keeps_record _ _ _ _ HF HF1).
        apply Forall2_app; [apply seg_rel_refl|].
        constructor; [|constructor].
        assert (Hn1 : segment.nextOffset seg <= segment.nextOffset seg1)
          by (destruct e; [destruct Hcase|destruct Hcase]; lia).
        unfold seg_rel, seg_covers. rewrite Hb1.
        assert (H1 : (o' <? segment.nextOffset seg) = true) by (apply Z.ltb_lt; lia).
        assert (H2 : (o' <? segment.nextOffset seg1) = true) by (apply Z.ltb_lt; lia).
        rewrite H1, H2. split; [reflexivity|].
        intros Hcov. apply andb_prop in Hcov as [Hcov _]. apply Z.leb_le in Hcov.
        intros rec e0 HR.
        apply (segment_Read_stable _ seg seg1 r r' o1 e o' rec e0 Hsok Hrange
                 Hsize EA ltac:(lia) HR).
      + exact Hsegs.
      + intros q Hq.
        apply list_elem_of_lookup in Hq as [i Hi].
        destruct (Forall2_lookup_l _ _ _ _ _ Hextra Hi) as (s & Hs & Hd).
        rewrite (covers_seg o' w' q s Hd). unfold seg_covers.
        rewrite Forall_forall in Hbases.
        assert (Hin : s ∈ tail) by (apply list_elem_of_lookup; exists i; exact Hs).
        specialize (Hbases s Hin).
        replace (segment.baseOffset s <=? o') with false
          by (symmetry; apply Z.leb_gt; lia).
        reflexivity. }
  (* the new last segment *)
  destruct e as [e|].
  - destruct Htail as [-> ->]. exists front, seg1.
    split; [exact Hok'|]. split; [split; [exact Ho|exact Hcase]|].
    split; [lia|]. auto.
  - destruct Hcase as [Ho1 Hn1].
    destruct (segment.IsMaxed seg1).
    + destruct Htail as (segn & -> & Hbn & Hnn & Hsn & _).
      exists (front ++ [seg1]), segn.
      split; [rewrite <- app_assoc; exact Hok'|].
      split; [split; [congruence|lia]|].
      split; [lia|]. auto.
    + destruct Htail as [-> ->]. exists front, seg1.
      split; [exact Hok'|]. split; [split; [congruence|exact Hn1]|].
      split; [lia|]. auto.
Qed.

End LogStep2.

(** ** The log: further properties *)

(** X14.  A log opened on an empty directory: [NewLog] succeeds with
    one empty segment at the initial offset, whose two files it
    creates, with the default 1024 in place of a limit given as 0; the
    lowest offset is the initial offset, and the log is in working
    order. *)
Theorem NewLog_fresh (dir : string) (c : Config) :
  0 <= MaxIndexBytes c <= 12 * 2 ^ 32 ->
  0 <= InitialOffset c < 2 ^ 64 - 1 ->
  exists w lg seg,
    Log.NewLog (Log.mkWorld [] ∅) dir c = (w, lg, None)
    /\ log_ok w lg [seg]
    /\ Log.Dir lg = dir
    /\ MaxStoreBytes (Log.Config_ lg)
       = (if MaxStoreBytes c =? 0 then 1024 else MaxStoreBytes c)
    /\ MaxIndexBytes (Log.Config_ lg)
       = (if MaxIndexBytes c =? 0 then 1024 else MaxIndexBytes c)
    /\ InitialOffset (Log.Config_ lg) = InitialOffset c
    /\ segment.baseOffset seg = InitialOffset c
    /\ segment.nextOffset seg = InitialOffset c
    /\ store.size (segment.store_ seg) = 0
    /\ Log.LowestOffset w lg = (InitialOffset c, None)
    /\ Log.files w !! store_name (InitialOffset c) = Some []
    /\ Log.files w !! index_name (InitialOffset c)
       = Some (replicate (Z.to_nat (MaxIndexBytes (Log.Config_ lg))) x00).
Proof. exact (NewLog_ok dir c). Qed.

Lemma log_ok_HighestOffset (w : Log.world) (lg : Log.t)
    (front : list segment.t) (seg : segment.t) :
  log_ok w lg (front ++ [seg]) ->
  Log.HighestOffset w lg
  = (if segment.nextOffset seg =? 0 then 0 else segment.nextOffset seg - 1, None).
Proof.
  intros Hok.
  destruct (log_ok_last w lg front seg Hok) as (ps & p & Heq & _ & Hd & _).
  destruct Hok as (_ & _ & _ & _ & Hall & _).
  apply Forall_app in Hall as [_ Hall].
  apply Forall_cons in Hall as [[[_ Hb Hle Hr _ _ _] _ _ _ _ _ _] _].
  apply (HighestOffset_last w lg p seg); [rewrite Heq; apply last_snoc|exact Hd|lia].
Qed.

Lemma log_ok_LowestOffset (w : Log.world) (lg : Log.t) (s : segment.t)
    (rest : list segment.t) :
  log_ok w lg (s :: rest) ->
  Log.LowestOffset w lg = (segment.baseOffset s, None).
Proof.
  intros (HF & _). unfold Log.LowestOffset.
  apply Forall2_cons_inv_r in HF as (q & ps & Hq & _ & ->).
  cbn. rewrite Hq. reflexivity.
Qed.

Section LogExtras.
Context {codec : Codec} {laws : CodecLaws codec}.

(** X15.  Round trip of the log: on a log in working order and a device
    that takes the bytes, an append that succeeds returns the next
    offset of the last segment, and [Read] at that offset returns the
    record with the offset assigned; [HighestOffset] is then that
    offset. *)
Theorem Log_roundtrip (w w' : Log.world) (lg lg' : Log.t)
    (front : list segment.t) (seg : segment.t)
    (r r' : api.Record_) (o : Z) :
  log_ok w lg (front ++ [seg]) ->
  segment.nextOffset seg < 2 ^ 64 - 2 ->
  store.size (segment.store_ seg) + frame_size r (segment.nextOffset seg)
  < 2 ^ 63 ->
  Log.Append true true w lg r = (w', lg', r', (o, None)) ->
  o = segment.nextOffset seg
  /\ r' = api.mk (api.Value r) o
  /\ (Log.Read true w' lg' o).2 = (Some r', None)
  /\ Log.HighestOffset w' lg' = (o, None).
Proof.
  intros Hok Hrange Hframe HA.
  assert (Hsize : forall bytes,
             Marshal (api.mk (api.Value r) (segment.nextOffset seg)) = Some bytes ->
             store.size (segment.store_ seg) + 8 + len bytes < 2 ^ 63).
  { intros bytes HM. unfold frame_size in Hframe. rewrite HM in Hframe. lia. }
  destruct (log_ok_last w lg front seg Hok) as (ps & p & Heq & Ha & Hd & _).
  pose proof Hok as (_ & _ & _ & Hal & Hall & _).
  assert (Hsok : seg_ok (Log.Config_ lg) seg).
  { apply Forall_app in Hall as [_ Hall]. apply Forall_cons in Hall as [H _].
    exact H. }
  destruct (Log_Append_Read w w' lg lg' r r' o p seg Hal Ha Hd
              (sok_wf _ _ Hsok) Hsize HA) as (Ho & Hr' & w'' & HR).
  split; [exact Ho|]. split; [exact Hr'|]. split; [rewrite HR; reflexivity|].
  destruct (log_ok_step w w' lg lg' front seg r r' o None Hok Hrange Hframe HA)
    as (front' & seg' & Hok' & [_ Hn'] & _).
  rewrite (log_ok_HighestOffset w' lg' front' seg' Hok'), Hn'.
  destruct Hsok as [[_ Hb Hle _ _ _ _] _ _ _ _ _ _].
  destruct (segment.nextOffset seg + 1 =? 0) eqn:E; [apply Z.eqb_eq in E; lia|].
  f_equal. lia.
Qed.

(** What a sequence of appends leaves of a log in working order. *)
Lemma log_ok_append_all (B : Z) (rs : list api.Record_) :
  (forall r k, r ∈ rs -> frame_size r k <= B) ->
  forall (w : Log.world) (lg : Log.t) (front : list segment.t)
         (seg : segment.t),
    log_ok w lg (front ++ [seg]) ->
    segment.nextOffset seg + len rs < 2 ^ 64 - 1 ->
    store.size (segment.store_ seg) + len rs * B < 2 ^ 63 ->
    exists front' seg',
      log_ok (append_all w lg rs).1 (append_all w lg rs).2 (front' ++ [seg'])
      /\ segment.nextOffset seg <= segment.nextOffset seg'
         <= segment.nextOffset seg + len rs
      /\ Log.Config_ (append_all w lg rs).2 = Log.Config_ lg
      /\ Log.Dir (append_all w lg rs).2 = Log.Dir lg
      /\ forall o, keeps_record (Log.Read true w lg o).2
                     (Log.Read true (append_all w lg rs).1 (append_all w lg rs).2 o).2.
Proof.
  induction rs as [|r rs IH]; intros HB w lg front seg Hok Hn Hs.
  - exists front, seg. cbn [append_all fst snd]. split; [exact Hok|].
    unfold len. cbn. split; [lia|]. split; [reflexivity|].
    split; [reflexivity|]. intros o. apply keeps_record_refl.
  - cbn [append_all].
    destruct (Log.Append true true w lg r) as [[[w1 lg1] r1] [o1 e1]] eqn:EA.
    assert (Hlen : len (r :: rs) = 1 + len rs) by (unfold len; cbn; lia).
    rewrite Hlen in *.
    pose proof (len_nonneg rs) as Hl0.
    assert (HBr : frame_size r (segment.nextOffset seg) <= B)
      by (apply HB; apply elem_of_cons; left; reflexivity).
    assert (Hf0 : 0 <= frame_size r (segment.nextOffset seg)).
    { unfold frame_size. destruct (Marshal _) as [bs|]; [|lia].
      pose proof (len_nonneg bs). lia. }
    assert (Hmul : 0 <= len rs * B) by (apply Z.mul_nonneg_nonneg; lia).
    assert (Hfit : store.size (segment.store_ seg)
                   + frame_size r (segment.nextOffset seg) < 2 ^ 63).
    { lia. }
    destruct (log_ok_step w w1 lg lg1 front seg r r1 o1 e1 Hok ltac:(lia)
                Hfit EA)
      as (front1 & seg1 & Hok1 & Hcase & Hsz1 & Hc1 & Hd1 & Hk1).
    assert (Hn1 : segment.nextOffset seg <= segment.nextOffset seg1
                  <= segment.nextOffset seg + 1)
      by (destruct e1; destruct Hcase; lia).
    destruct (IH (fun r0 k H => HB r0 k (proj2 (elem_of_cons _ _ _) (or_intror H)))
                w1 lg1 front1 seg1 Hok1 ltac:(lia) ltac:(lia))
      as (front' & seg' & Hok' & Hn' & Hc' & Hd' & Hk').
    exists front', seg'. split; [exact Hok'|]. split; [lia|].
    split; [congruence|]. split; [congruence|].
    intros o rec e H. apply Hk'. apply Hk1. exact H.
Qed.

(** X16.  Appends never disturb what can be read: a record that [Read]
    returns at an offset of a log in working order is returned at that
    offset, unchanged, after any sequence of further appends that the
    device takes, whether they succeed or fail and whether or not they
    roll the log over to new segments. *)
Theorem Log_Read_stable (B : Z) (rs : list api.Record_) (w : Log.world)
    (lg : Log.t) (front : list segment.t) (seg : segment.t) (o : Z)
    (rec : api.Record_) (e : option error) :
  log_ok w lg (front ++ [seg]) ->
  (forall r k, r ∈ rs -> frame_size r k <= B) ->
  segment.nextOffset seg + len rs < 2 ^ 64 - 1 ->
  store.size (segment.store_ seg) + len rs * B < 2 ^ 63 ->
  (Log.Read true w lg o).2 = (Some rec, e) ->
  (Log.Read true (append_all w lg rs).1 (append_all w lg rs).2 o).2 = (Some rec, e).
Proof.
  intros Hok HB Hn Hs HR.
  destruct (log_ok_append_all B rs HB w lg front seg Hok Hn Hs)
    as (_ & _ & _ & _ & _ & _ & Hk).
  apply Hk. exact HR.
Qed.

(** X17.  Rolling: an append that succeeds adds a segment exactly when
    it leaves the last segment at one of its limits
    ([store.size >= MaxStoreBytes] or [index.size >= MaxIndexBytes]).
    The new segment is empty and starts at the offset after the one
    returned, its two files are in the directory, and it is the active
    and last segment; otherwise the list of segments is unchanged. *)
Theorem Log_Append_rolls (w w' : Log.world) (lg lg' : Log.t)
    (front : list segment.t) (seg : segment.t)
    (r r' : api.Record_) (o : Z) :
  log_ok w lg (front ++ [seg]) ->
  segment.nextOffset seg < 2 ^ 64 - 2 ->
  store.size (segment.store_ seg) + frame_size r (segment.nextOffset seg)
  < 2 ^ 63 ->
  Log.Append true true w lg r = (w', lg', r', (o, None)) ->
  exists seg1,
    (segment.Append true true seg r).1.1 = seg1
    /\ if (MaxStoreBytes (Log.Config_ lg) <=? store.size (segment.store_ seg1))
          || (MaxIndexBytes (Log.Config_ lg) <=? index.size (segment.index_ seg1))
       then exists segn p,
              log_ok w' lg' (front ++ [seg1; segn])
              /\ Log.segments lg' = Log.segments lg ++ [p]
              /\ Log.activeSegment lg' = Some p
              /\ Log.deref w' p = Some segn
              /\ segment.baseOffset segn = o + 1
              /\ segment.nextOffset segn = o + 1
              /\ store.size (segment.store_ segn) = 0
              /\ is_Some (Log.files w' !! store_name (o + 1))
              /\ is_Some (Log.files w' !! index_name (o + 1))
       else lg' = lg /\ log_ok w' lg' (front ++ [seg1]).
Proof.
  intros Hok Hrange Hframe HA.
  assert (Hsize : forall bytes,
             Marshal (api.mk (api.Value r) (segment.nextOffset seg)) = Some bytes ->
             store.size (segment.store_ seg) + 8 + len bytes < 2 ^ 63).
  { intros bytes HM. unfold frame_size in Hframe. rewrite HM in Hframe. lia. }
  destruct (log_ok_Append w w' lg lg' front seg r r' o None Hok Hrange Hsize HA)
    as (seg1 & o1 & tail & EA & Ho & Hok' & Hc' & _ & Htail).
  pose proof Hok as (_ & _ & _ & _ & Hall & _).
  assert (Hsok : seg_ok (Log.Config_ lg) seg).
  { apply Forall_app in Hall as [_ Hall]. apply Forall_cons in Hall as [H _].
    exact H. }
  destruct (seg_ok_Append _ seg seg1 r r' o1 None Hsok Hrange Hsize EA)
    as (Hok1 & _ & [Ho1 Hn1] & _).
  exists seg1. split; [rewrite EA; reflexivity|].
  unfold segment.IsMaxed in Htail.
  rewrite (sok_config _ _ Hok1) in Htail.
  destruct (_ || _).
  - destruct Htail as (segn & -> & Hbn & Hnn & Hsn & _ & Hsegs).
    exists segn, (length (Log.mem w)).
    split; [exact Hok'|]. split; [exact Hsegs|].
    destruct (log_ok_last w' lg' (front ++ [seg1]) segn) as (ps & p & Heq & Ha & Hd & _).
    { rewrite <- app_assoc. exact Hok'. }
    assert (p = length (Log.mem w)) as ->.
    { rewrite Hsegs in Heq. apply app_inj_tail in Heq as [_ Heq]. congruence. }
    split; [exact Ha|]. split; [exact Hd|].
    split; [lia|]. split; [lia|]. split; [exact Hsn|].
    destruct Hok' as (_ & _ & _ & _ & _ & _ & _ & _ & Hdisk).
    assert (Hin : o + 1 ∈ segment.baseOffset <$> front ++ [seg1; segn]).
    { rewrite fmap_app. apply elem_of_app. right. cbn.
      apply elem_of_cons. right. apply list_elem_of_singleton. lia. }
    split; apply Hdisk; exists (o + 1); (split; [exact Hin|]);
      [left|right]; reflexivity.
  - destruct Htail as [-> ->]. split; [reflexivity|exact Hok'].
Qed.

(** X18.  A log whose last segment has a full index that is not at its
    limit is stuck: every append the device takes fails with [io.EOF]
    and returns offset 0, the list of segments stays as it is, and the
    log stays in this state, so that no later append succeeds either;
    each failed append still adds its frame to the store. *)
Theorem Log_Append_index_full (B : Z) (rs : list api.Record_) :
  (forall r k, r ∈ rs -> frame_size r k <= B) ->
  forall (w : Log.world) (lg : Log.t) (front : list segment.t)
         (seg : segment.t),
    log_ok w lg (front ++ [seg]) ->
    (forall r, r ∈ rs ->
       Marshal (api.mk (api.Value r) (segment.nextOffset seg)) <> None) ->
    segment.nextOffset seg < 2 ^ 64 - 2 ->
    store.size (segment.store_ seg) + len rs * B < 2 ^ 63 ->
    len (index.mmap (segment.index_ seg))
    < index.size (segment.index_ seg) + 12 ->
    appends w lg rs = (fun _ => (0, Some EOF)) <$> rs
    /\ (append_all w lg rs).2 = lg
    /\ exists seg',
         log_ok (append_all w lg rs).1 lg (front ++ [seg'])
         /\ segment.nextOffset seg' = segment.nextOffset seg
         /\ segment.index_ seg' = segment.index_ seg
         /\ store.size (segment.store_ seg')
            = store.size (segment.store_ seg)
              + foldr (fun r acc => frame_size r (segment.nextOffset seg) + acc)
                  0 rs.
Proof.
  induction rs as [|r rs IH];
    intros HB w lg front seg Hok HM Hrange Hs Hfull.
  - cbn. split; [reflexivity|]. split; [reflexivity|].
    exists seg. split; [exact Hok|]. split; [reflexivity|].
    split; [reflexivity|]. lia.
  - assert (Hlen : len (r :: rs) = 1 + len rs) by (unfold len; cbn; lia).
    rewrite Hlen in *. pose proof (len_nonneg rs) as Hl0.
    assert (Hin : r ∈ r :: rs) by (apply elem_of_cons; left; reflexivity).
    assert (HBr := HB r (segment.nextOffset seg) Hin).
    destruct (Marshal (api.mk (api.Value r) (segment.nextOffset seg)))
      as [bytes|] eqn:EM; [|exfalso; exact (HM r Hin EM)].
    assert (Hfr : frame_size r (segment.nextOffset seg) = 8 + len bytes)
      by (unfold frame_size; rewrite EM; reflexivity).
    pose proof (len_nonneg bytes) as Hlb.
    assert (Hmul : 0 <= len rs * B) by (apply Z.mul_nonneg_nonneg; lia).
    pose proof Hok as (_ & _ & _ & _ & Hall & _).
    assert (Hsok : seg_ok (Log.Config_ lg) seg).
    { apply Forall_app in Hall as [_ Hall]. apply Forall_cons in Hall as [H _].
      exact H. }
    assert (Hs0 := store_size_nonneg _ (gwf_store _ (sok_wf _ _ Hsok))).
    destruct (segment_Append_unfold seg r bytes (sok_wf _ _ Hsok) EM ltac:(lia))
      as (st1 & Hwf1 & Hsz1 & _ & _ & HSA).
    rewrite index_Write_no_room in HSA;
      [|destruct Hsok as [[_ Hb Hle Hr He Hfit Hmm] _ _ _ _ _ _]; lia
       |destruct Hsok as [[_ Hb Hle Hr He Hfit Hmm] _ _ _ _ _ _]; lia
       |exact Hfull].
    cbn [appends append_all].
    destruct (Log.Append true true w lg r) as [[[w1 lg1] r1] [o1 e1]] eqn:EA.
    assert (Hsize : forall bytes0,
               Marshal (api.mk (api.Value r) (segment.nextOffset seg)) = Some bytes0 ->
               store.size (segment.store_ seg) + 8 + len bytes0 < 2 ^ 63).
    { intros bytes0 H0. rewrite EM in H0. inversion H0; subst. lia. }
    destruct (log_ok_Append w w1 lg lg1 front seg r r1 o1 e1 Hok Hrange Hsize EA)
      as (seg1 & o1' & tail & EA' & Ho & Hok1 & _ & _ & Htail).
    rewrite HSA in EA'. inversion EA'; subst seg1 r1 o1' e1; clear EA'.
    destruct Htail as [-> ->]. cbn in Ho. subst o1.
    set (seg1 := segment.mk st1 (segment.index_ seg) (segment.baseOffset seg)
                   (segment.nextOffset seg) (segment.config seg)) in *.
    destruct (IH (fun r0 k H => HB r0 k (proj2 (elem_of_cons _ _ _) (or_intror H)))
                w1 lg front seg1 Hok1
                (fun r0 H => HM r0 (proj2 (elem_of_cons _ _ _) (or_intror H)))
                Hrange ltac:(cbn [seg1 segment.store_]; lia) Hfull)
      as (Happ & Hlg & seg' & Hok' & Hn' & Hi' & Hs').
    split; [cbn [fmap list_fmap]; f_equal; exact Happ|].
    split; [exact Hlg|].
    exists seg'. split; [exact Hok'|]. split; [exact Hn'|]. split; [exact Hi'|].
    rewrite Hs'. cbn [foldr segment.store_ segment.nextOffset seg1]. lia.
Qed.

(** X19.  On a log opened on an empty directory, the appends that
    succeed return consecutive offsets that start at the initial
    offset, whatever appends fail in between. *)
Theorem Log_offsets_consecutive (dir : string) (c : Config) (B : Z)
    (rs : list api.Record_) (w : Log.world) (lg : Log.t) :
  0 <= MaxIndexBytes c <= 12 * 2 ^ 32 ->
  0 <= InitialOffset c ->
  InitialOffset c + len rs < 2 ^ 64 - 1 ->
  (forall r k, r ∈ rs -> frame_size r k <= B) ->
  len rs * B < 2 ^ 63 ->
  Log.NewLog (Log.mkWorld [] ∅) dir c = (w, lg, None) ->
  offsets (appends w lg rs)
  = seqZ (InitialOffset c) (len (offsets (appends w lg rs))).
Proof. exact (NewLog_appends_offsets dir c B rs w lg). Qed.

End LogExtras.

(** ** Closing the log *)

(** Closing the segments of a list in order: every segment is closed
    and its two files are written out. *)
Lemma Close_loop_ok (c : Config) (ps : list Log.ptr) :
  forall (segs : list segment.t) (w : Log.world),
    Forall2 (fun q s => Log.deref w q = Some s) ps segs ->
    NoDup ps ->
    Forall (seg_ok c) segs ->
    NoDup (segment.baseOffset <$> segs) ->
    exists w',
      Log.Close_loop true ps w = (w', None)
      /\ (forall s, s ∈ segs ->
            Log.files w' !! store_name (segment.baseOffset s)
            = Some (content (segment.store_ s))
            /\ Log.files w' !! index_name (segment.baseOffset s)
               = Some (resize (index.size (segment.index_ s))
                         (index.mmap (segment.index_ s))))
      /\ (forall name,
            (forall s, s ∈ segs ->
                       name <> store_name (segment.baseOffset s)
                       /\ name <> index_name (segment.baseOffset s)) ->
            Log.files w' !! name = Log.files w !! name)
      /\ Forall2 (fun q s =>
                    exists s', Log.deref w' q = Some s'
                               /\ ident s' = ident s
                               /\ closed (index.file (segment.index_ s')) = true)
           ps segs
      /\ (forall q, q ∉ ps -> Log.deref w' q = Log.deref w q).
Proof.
  induction ps as [|p ps IH]; intros segs w HF Hnd Hall Hnb.
  - apply Forall2_nil_inv_l in HF as ->. exists w.
    split; [reflexivity|].
    split; [intros s Hs; apply elem_of_nil in Hs; contradiction|].
    split; [reflexivity|]. split; [constructor|reflexivity].
  - apply Forall2_cons_inv_l in HF as (s & segs' & Hp & HF & ->).
    apply NoDup_cons in Hnd as [Hpn Hnd].
    apply Forall_cons in Hall as [Hs Hall].
    cbn [fmap list_fmap] in Hnb. apply NoDup_cons in Hnb as [Hbn Hnb].
    destruct (segment_Close_ok c (Log.files w) s Hs) as (s' & HC & Hid & Hcl).
    cbn [Log.Close_loop]. rewrite Hp, HC.
    set (d1 := <[store_name (segment.baseOffset s) := content (segment.store_ s)]>
                 (<[index_name (segment.baseOffset s) :=
                      resize (index.size (segment.index_ s))
                        (index.mmap (segment.index_ s))]> (Log.files w))).
    set (w1 := Log.mkWorld (<[p := s']> (Log.mem w)) d1).
    assert (HF1 : Forall2 (fun q s0 => Log.deref w1 q = Some s0) ps segs').
    { apply (Forall2_deref_set w p s' ps segs' Hpn HF). }
    destruct (IH segs' w1 HF1 Hnd Hall Hnb) as (w' & HL & Hfiles & Hother & HF' & Hd').
    exists w'. split; [exact HL|].
    assert (Hne : forall s0, s0 ∈ segs' ->
              store_name (segment.baseOffset s) <> store_name (segment.baseOffset s0)
              /\ store_name (segment.baseOffset s) <> index_name (segment.baseOffset s0)
              /\ index_name (segment.baseOffset s) <> store_name (segment.baseOffset s0)
              /\ index_name (segment.baseOffset s) <> index_name (segment.baseOffset s0)).
    { intros s0 Hs0.
      assert (Hb : segment.baseOffset s <> segment.baseOffset s0).
      { intros Heq. apply Hbn. rewrite Heq. apply list_elem_of_fmap.
        exists s0. split; [reflexivity|exact Hs0]. }
      unfold store_name, index_name.
      repeat split; intros Heq; apply name_same_base in Heq;
        try reflexivity; contradiction. }
    split.
    { intros s0 Hs0. apply elem_of_cons in Hs0 as [->|Hs0];
        [|apply Hfiles; exact Hs0].
      rewrite !Hother by (intros s0 Hs0; destruct (Hne s0 Hs0) as (?&?&?&?); auto).
      unfold w1, d1. cbn [Log.files].
      split; [apply lookup_insert_eq|].
      rewrite lookup_insert_ne by apply store_index_name_ne.
      apply lookup_insert_eq. }
    split.
    { intros name Hname.
      rewrite Hother
        by (intros s0 Hs0; apply Hname; apply elem_of_cons; right; exact Hs0).
      destruct (Hname s (proj2 (elem_of_cons _ _ _) (or_introl eq_refl))) as [H1 H2].
      unfold w1, d1. cbn [Log.files].
      rewrite !lookup_insert_ne by congruence. reflexivity. }
    split.
    { constructor; [|exact HF'].
      exists s'. split; [|split; assumption].
      rewrite (Hd' p Hpn). unfold w1, Log.deref. cbn [Log.mem].
      apply list_lookup_insert_eq.
      unfold Log.deref in Hp. apply lookup_lt_Some in Hp. exact Hp. }
    intros q Hq. apply not_elem_of_cons in Hq as [Hqp Hq].
    rewrite (Hd' q Hq). unfold w1, Log.deref. cbn [Log.mem].
    apply list_lookup_insert_ne. congruence.
Qed.

Lemma log_ok_bases_NoDup (w : Log.world) (lg : Log.t) (segs : list segment.t) :
  log_ok w lg segs -> NoDup (segment.baseOffset <$> segs).
Proof.
  intros (_ & _ & _ & _ & Hall & Hch & _).
  pose proof (chain_sorted segs Hch (seg_ok_le _ _ Hall)) as Hs.
  clear -Hs. induction Hs as [|b l Hs IH Hb]; [constructor|].
  apply NoDup_cons. split; [|exact IH].
  intros Hin. rewrite Forall_forall in Hb. specialize (Hb b Hin). lia.
Qed.

(** What [Close] leaves of a log in working order. *)
Lemma log_ok_Close (w : Log.world) (lg : Log.t) (segs : list segment.t) :
  log_ok w lg segs ->
  exists w',
    Log.Close true w lg = (w', None)
    /\ (forall s, s ∈ segs ->
          Log.files w' !! store_name (segment.baseOffset s)
          = Some (content (segment.store_ s))
          /\ Log.files w' !! index_name (segment.baseOffset s)
             = Some (resize (index.size (segment.index_ s))
                       (index.mmap (segment.index_ s))))
    /\ (forall name,
          is_Some (Log.files w' !! name)
          <-> exists b, b ∈ segment.baseOffset <$> segs
                        /\ (name = store_name b \/ name = index_name b))
    /\ Forall2 (fun q s =>
                  exists s', Log.deref w' q = Some s'
                             /\ ident s' = ident s
                             /\ closed (index.file (segment.index_ s')) = true)
         (Log.segments lg) segs.
Proof.
  intros Hok. pose proof (log_ok_bases_NoDup w lg segs Hok) as Hnb.
  destruct Hok as (HF & _ & Hnd & _ & Hall & _ & _ & _ & Hdisk).
  destruct (Close_loop_ok _ _ segs w HF Hnd Hall Hnb)
    as (w' & HC & Hfiles & Hother & HF' & _).
  exists w'. split; [exact HC|]. split; [exact Hfiles|]. split; [|exact HF'].
  intros name. rewrite <- Hdisk.
  destruct (decide (Exists (fun b => name = store_name b \/ name = index_name b)
                      (segment.baseOffset <$> segs))) as [Hyes|Hno];
    rewrite Exists_exists in *; [destruct Hyes as (b & Hb & Hname)|].
  - apply list_elem_of_fmap in Hb as (s & -> & Hs).
    destruct (Hfiles s Hs) as [H1 H2].
    split; intros _.
    + apply Hdisk. exists (segment.baseOffset s).
      split; [apply list_elem_of_fmap; exists s; auto|exact Hname].
    + destruct Hname as [->| ->]; [rewrite H1|rewrite H2]; eexists; reflexivity.
  - rewrite Hother; [reflexivity|].
    intros s Hs. split; intros ->; apply Hno; exists (segment.baseOffset s);
      (split; [apply list_elem_of_fmap; exists s; auto|]); [left|right]; reflexivity.
Qed.



(** ** The names of the files and the base offsets *)

Lemma digit_of_char (d : N) :
  (d < 10)%N ->
  Z.of_nat (Ascii.nat_of_ascii (pretty_N_char d)) - 48 = Z.of_N d.
Proof.
  intros Hd.
  assert (H : (d = 0 \/ d = 1 \/ d = 2 \/ d = 3 \/ d = 4 \/ d = 5 \/ d = 6
               \/ d = 7 \/ d = 8 \/ d = 9)%N) by lia.
  repeat (destruct H as [->|H]; [reflexivity|]). subst d. reflexivity.
Qed.

Lemma ParseUint_loop_digit (c : Ascii.ascii) (s : string) (n d : Z) :
  Z.of_nat (Ascii.nat_of_ascii c) - 48 = d ->
  0 <= d <= 9 -> 0 <= n -> n * 10 + d < 2 ^ 64 ->
  ParseUint_loop (String c s) n = ParseUint_loop s (n * 10 + d).
Proof.
  intros Hc Hd Hn Hfit. cbn [ParseUint_loop]. rewrite Hc. cbv zeta.
  replace (0 <=? d) with true by (symmetry; apply Z.leb_le; lia).
  replace (d <=? 9) with true by (symmetry; apply Z.leb_le; lia).
  cbn [andb].
  change ((2 ^ 64 - 1) / 10 + 1) with 1844674407370955162.
  change (2 ^ 64 - 1) with 18446744073709551615.
  change (2 ^ 64) with 18446744073709551616 in Hfit.
  destruct (1844674407370955162 <=? n) eqn:E1; [apply Z.leb_le in E1; lia|].
  destruct (18446744073709551615 <? n * 10 + d) eqn:E2;
    [apply Z.ltb_lt in E2; lia|].
  reflexivity.
Qed.

Lemma ParseUint_loop_go (x : N) :
  (0 < x)%N -> Z.of_N x < 2 ^ 64 ->
  forall s, ParseUint_loop (pretty_N_go x s) 0 = ParseUint_loop s (Z.of_N x).
Proof.
  induction (N.lt_wf_0 x) as [x _ IH]. intros Hx Hfit s.
  rewrite pretty_N_go_step by exact Hx.
  set (q := N.div x 10). set (m := N.modulo x 10).
  assert (Hd : (m < 10)%N) by (apply N.mod_lt; lia).
  assert (Hdiv : (x = 10 * q + m)%N) by (apply N.div_mod; lia).
  assert (Hstep : ParseUint_loop (pretty_N_go q (String (pretty_N_char m) s)) 0
                  = ParseUint_loop (String (pretty_N_char m) s) (Z.of_N q)).
  { destruct (N.eq_dec q 0%N) as [Hz|Hnz].
    - rewrite Hz, pretty_N_go_0. reflexivity.
    - apply IH; lia. }
  rewrite Hstep.
  rewrite (ParseUint_loop_digit _ s _ (Z.of_N m));
    [f_equal; lia|apply digit_of_char; exact Hd|lia|lia|lia].
Qed.

(** [strconv.ParseUint] reads back what [%d] prints. *)
Lemma ParseUint_pretty (k : Z) : 0 <= k < 2 ^ 64 -> ParseUint (pretty k) = k.
Proof.
  intros Hk. destruct k as [|p|p]; [reflexivity| |lia].
  unfold ParseUint, pretty, pretty_Z, pretty, pretty_positive, pretty, pretty_N.
  destruct (decide (N.pos p = 0%N)) as [H|_]; [discriminate|].
  rewrite ParseUint_loop_go by (cbn; lia). reflexivity.
Qed.

Lemma last_dot_app (a b e : string) :
  last_dot b = Some e -> last_dot (a +:+ b) = Some e.
Proof.
  intros Hb. induction a as [|c a IH]; [exact Hb|].
  change (String c a +:+ b) with (String c (a +:+ b)).
  cbn [last_dot]. rewrite IH. reflexivity.
Qed.

Lemma substring_all (b : string) :
  String.substring 0 (String.length b) b = b.
Proof.
  induction b as [|c b IH]; cbn [String.length String.substring];
    [reflexivity|]. rewrite IH. reflexivity.
Qed.

Lemma substring_app_l (a b : string) :
  String.substring 0 (String.length a) (a +:+ b) = a.
Proof.
  induction a as [|c a IH].
  - change ("" +:+ b) with b. cbn [String.length String.substring].
    destruct b; reflexivity.
  - change (String c a +:+ b) with (String c (a +:+ b)).
    cbn [String.length String.substring]. rewrite IH. reflexivity.
Qed.

Lemma substring_app_r (a b : string) :
  String.substring (String.length a) (String.length b) (a +:+ b) = b.
Proof.
  induction a as [|c a IH].
  - change ("" +:+ b) with b. apply substring_all.
  - change (String c a +:+ b) with (String c (a +:+ b)).
    cbn [String.length String.substring]. exact IH.
Qed.

Lemma TrimSuffix_app (a suffix : string) : TrimSuffix (a +:+ suffix) suffix = a.
Proof.
  unfold TrimSuffix. rewrite String_length_app.
  replace (String.length a + String.length suffix - String.length suffix)%nat
    with (String.length a) by lia.
  rewrite substring_app_r, String.eqb_refl, substring_app_l.
  replace (String.length suffix <=? String.length a + String.length suffix)%nat
    with true by (symmetry; apply Nat.leb_le; lia).
  reflexivity.
Qed.

Lemma base_of_store_name (b : Z) :
  0 <= b < 2 ^ 64 ->
  ParseUint (TrimSuffix (store_name b) (Ext (store_name b))) = b.
Proof.
  intros Hb. unfold store_name, Ext.
  rewrite (last_dot_app (pretty b) ".store" ".store") by reflexivity.
  cbn [default]. rewrite TrimSuffix_app. apply ParseUint_pretty. exact Hb.
Qed.

Lemma base_of_index_name (b : Z) :
  0 <= b < 2 ^ 64 ->
  ParseUint (TrimSuffix (index_name b) (Ext (index_name b))) = b.
Proof.
  intros Hb. unfold index_name, Ext.
  rewrite (last_dot_app (pretty b) ".index" ".index") by reflexivity.
  cbn [default]. rewrite TrimSuffix_app. apply ParseUint_pretty. exact Hb.
Qed.

(** X22.  The names [newSegment] gives to the two files of a segment
    are read back by [setup]: cutting the extension off the name and
    parsing the rest as a decimal number gives the base offset, for
    every base offset that is a [uint64]. *)
Theorem segment_names_roundtrip (d : disk) (b : Z) (c : Config)
    (d' : disk) (seg : segment.t) :
  0 <= b < 2 ^ 64 ->
  segment.newSegment d b c = (d', Some seg, None) ->
  let parse := fun name => ParseUint (TrimSuffix name (Ext name)) in
  parse (store.Name_ (segment.store_ seg)) = b
  /\ parse (index.Name_ (segment.index_ seg)) = b
  /\ is_Some (d' !! store.Name_ (segment.store_ seg))
  /\ is_Some (d' !! index.Name_ (segment.index_ seg))
  /\ store.Name_ (segment.store_ seg) <> index.Name_ (segment.index_ seg).
Proof.
  intros Hb HN. cbv zeta.
  assert (Hnames : store.Name_ (segment.store_ seg) = store_name b
                   /\ index.Name_ (segment.index_ seg) = index_name b
                   /\ is_Some (d' !! store_name b)
                   /\ is_Some (d' !! index_name b)).
  { revert HN. unfold segment.newSegment, store_name, index_name.
    destruct (os.OpenFile d (pretty b +:+ ".store")) as [d1 sf] eqn:E1.
    destruct (os.OpenFile d1 (pretty b +:+ ".index")) as [d2 xf] eqn:E2.
    assert (Hsf : Name sf = pretty b +:+ ".store" /\ is_Some (d1 !! (pretty b +:+ ".store"))).
    { revert E1. unfold os.OpenFile.
      destruct (d !! (pretty b +:+ ".store")) eqn:E; intros H; inversion H; subst;
        cbn; split; try reflexivity.
      - rewrite E. eexists; reflexivity.
      - rewrite lookup_insert_eq. eexists; reflexivity. }
    assert (Hxf : Name xf = pretty b +:+ ".index"
                  /\ is_Some (d2 !! (pretty b +:+ ".store"))).
    { revert E2. unfold os.OpenFile.
      destruct (d1 !! (pretty b +:+ ".index")) eqn:E; intros H; inversion H; subst;
        cbn; split; try reflexivity.
      - apply Hsf.
      - rewrite lookup_insert_ne by (apply not_eq_sym, store_index_name_ne).
        apply Hsf. }
    destruct Hsf as [Hsf _]. destruct Hxf as [Hxf Hd2].
    unfold index.newIndex.
    destruct (int64 (MaxIndexBytes c) <? 0); [discriminate|].
    destruct (int64 (MaxIndexBytes c) =? 0); [discriminate|].
    assert (Hfin : forall nxt,
               (<[Name xf := resize (int64 (MaxIndexBytes c)) (data xf)]> d2,
                Some (segment.mk (store.newStore sf)
                        (index.mk (mkFile (Name xf)
                                     (resize (int64 (MaxIndexBytes c)) (data xf)) false)
                           (resize (int64 (MaxIndexBytes c)) (data xf))
                           (uint64 (len (data xf)))) b nxt c), @None error)
               = (d', Some seg, None) ->
               store.Name_ (segment.store_ seg) = pretty b +:+ ".store"
               /\ index.Name_ (segment.index_ seg) = pretty b +:+ ".index"
               /\ is_Some (d' !! (pretty b +:+ ".store"))
               /\ is_Some (d' !! (pretty b +:+ ".index"))).
    { intros nxt H. inversion H; subst d' seg. cbn.
      split; [exact Hsf|]. split; [exact Hxf|].
      rewrite Hxf. split.
      - rewrite lookup_insert_ne by (apply not_eq_sym, store_index_name_ne).
        exact Hd2.
      - rewrite lookup_insert_eq. eexists; reflexivity. }
    destruct (index.Read _ (-1)) as [[off pos] [[]|]];
      try discriminate; apply Hfin. }
  destruct Hnames as (Hs & Hi & Hds & Hdi). rewrite Hs, Hi.
  split; [apply base_of_store_name; exact Hb|].
  split; [apply base_of_index_name; exact Hb|].
  split; [exact Hds|]. split; [exact Hdi|].
  apply store_index_name_ne.
Qed.

(** ** Opening a log on the directory of a closed log *)

Lemma twice_fmap_names (bases : list Z) :
  Forall (fun b => 0 <= b < 2 ^ 64) bases ->
  base_of_name <$> (bases ≫= fun b => [store_name b; index_name b])
  = twice bases.
Proof.
  induction 1 as [|b bases Hb _ IH]; [reflexivity|].
  cbn [mbind list_bind app fmap list_fmap twice].
  change (list_fmap _ _ base_of_name) with (fmap (M:=list) base_of_name).
  unfold base_of_name at 1 2.
  rewrite base_of_store_name, base_of_index_name by exact Hb.
  f_equal. f_equal. exact IH.
Qed.

Lemma names_NoDup (bases : list Z) :
  NoDup bases ->
  NoDup (bases ≫= fun b => [store_name b; index_name b]).
Proof.
  induction 1 as [|b bases Hb Hnd IH]; [constructor|].
  cbn [mbind list_bind app].
  assert (Hnot : forall s, String.length s = 6%nat ->
            pretty b +:+ s ∉ (bases ≫= fun b => [store_name b; index_name b])).
  { intros s Hs Hin. apply list_elem_of_bind in Hin as (b' & Hin & Hb').
    assert (b = b') as <-; [|contradiction].
    apply elem_of_cons in Hin as [Hin|Hin];
      [|apply list_elem_of_singleton in Hin];
      unfold store_name, index_name in Hin;
      apply name_same_base in Hin; auto. }
  apply NoDup_cons. split.
  - intros Hin. apply elem_of_cons in Hin as [Hin|Hin].
    + exact (store_index_name_ne b Hin).
    + exact (Hnot ".store" eq_refl Hin).
  - apply NoDup_cons. split; [exact (Hnot ".index" eq_refl)|exact IH].
Qed.

Lemma twice_sorted (bases : list Z) :
  StronglySorted Z.lt bases -> Sorted Z.le (twice bases).
Proof.
  induction 1 as [|b bases Hs IH Hb]; [constructor|].
  cbn [twice]. constructor.
  - constructor; [exact IH|].
    destruct bases as [|b' bases]; [constructor|].
    cbn [twice]. constructor.
    apply Forall_cons in Hb as [Hb _]. lia.
  - constructor. lia.
Qed.

(** Whatever the order in which the directory is listed, [setup] sorts
    the base offsets of its files into each base twice, in order. *)
Lemma setup_sorted_bases (d : disk) (bases : list Z) :
  (forall name,
     is_Some (d !! name)
     <-> exists b, b ∈ bases /\ (name = store_name b \/ name = index_name b)) ->
  StronglySorted Z.lt bases ->
  Forall (fun b => 0 <= b < 2 ^ 64) bases ->
  merge_sort Z.le (base_of_name <$> (map_to_list d).*1) = twice bases.
Proof.
  intros Hdisk Hs Hr.
  assert (Hnd : NoDup bases).
  { clear -Hs. induction Hs as [|b l Hs IH Hb]; [constructor|].
    apply NoDup_cons. split; [|exact IH].
    intros Hin. rewrite Forall_forall in Hb. specialize (Hb b Hin). lia. }
  assert (Hperm : (map_to_list d).*1
                  ≡ₚ (bases ≫= fun b => [store_name b; index_name b])).
  { apply NoDup_Permutation.
    - apply NoDup_fst_map_to_list.
    - apply names_NoDup. exact Hnd.
    - intros name. rewrite list_elem_of_bind. split.
      + intros Hin. apply list_elem_of_fmap in Hin as ([n v] & -> & Hin).
        apply elem_of_map_to_list in Hin. cbn.
        destruct (proj1 (Hdisk n) (ex_intro _ v Hin)) as (b & Hb & Hname).
        exists b. split; [|exact Hb].
        destruct Hname as [->| ->];
          [apply elem_of_cons; left; reflexivity|].
        apply elem_of_cons; right. apply list_elem_of_singleton. reflexivity.
      + intros (b & Hin & Hb).
        assert (Hsome : is_Some (d !! name)).
        { apply Hdisk. exists b. split; [exact Hb|].
          apply elem_of_cons in Hin as [->|Hin]; [left; reflexivity|].
          apply list_elem_of_singleton in Hin. right. exact Hin. }
        destruct Hsome as [v Hv]. apply list_elem_of_fmap.
        exists (name, v). split; [reflexivity|].
        apply elem_of_map_to_list. exact Hv. }
  apply (Sorted_unique Z.le).
  - apply Sorted_merge_sort. apply _.
  - apply twice_sorted. exact Hs.
  - rewrite merge_sort_Permutation, Hperm, twice_fmap_names by exact Hr.
    reflexivity.
Qed.

(** The loop of [setup] on the files of closed segments: one segment is
    opened for each, in order, with the offsets and content it had. *)
Lemma setup_loop_reopen (c : Config) (segs : list segment.t) :
  0 < MaxIndexBytes c <= 12 * 2 ^ 32 ->
  Forall (seg_ok c) segs ->
  NoDup (segment.baseOffset <$> segs) ->
  forall (w : Log.world) (lg : Log.t),
    Log.Config_ lg = c ->
    (forall s, s ∈ segs ->
       Log.files w !! store_name (segment.baseOffset s)
       = Some (content (segment.store_ s))
       /\ Log.files w !! index_name (segment.baseOffset s)
          = Some (resize (index.size (segment.index_ s))
                    (index.mmap (segment.index_ s)))) ->
    exists w' lg' segs2,
      Log.setup_loop (twice (segment.baseOffset <$> segs)) w lg = (w', lg', None)
      /\ Log.mem w' = Log.mem w ++ segs2
      /\ Forall2 (reopened c) segs segs2
      /\ Log.segments lg'
         = Log.segments lg ++ seq (length (Log.mem w)) (length segs)
      /\ Log.Config_ lg' = c
      /\ Log.Dir lg' = Log.Dir lg
      /\ (forall name, is_Some (Log.files w' !! name)
                       <-> is_Some (Log.files w !! name)).
Proof.
  intros HM Hall. induction Hall as [|s segs Hs Hall IH];
    intros Hnd w lg Hc Hfiles.
  - exists w, lg, []. cbn [fmap list_fmap twice Log.setup_loop length seq].
    rewrite !app_nil_r.
    split; [reflexivity|]. split; [reflexivity|]. split; [constructor|].
    split; [reflexivity|]. split; [exact Hc|]. split; [reflexivity|].
    intros name. reflexivity.
  - cbn [fmap list_fmap] in Hnd. apply NoDup_cons in Hnd as [Hbn Hnd].
    destruct (Hfiles s (proj2 (elem_of_cons _ _ _) (or_introl eq_refl)))
      as [Hds Hdi].
    destruct (segment_reopen c s (Log.files w) Hs HM Hds Hdi)
      as (s2 & HN & Hok2 & Hb2 & Hn2 & Hc2 & HR2).
    cbn [fmap list_fmap twice Log.setup_loop].
    unfold Log.newSegment at 1. rewrite Hc, HN.
    set (w1 := Log.mkWorld (Log.mem w ++ [s2])
                 (<[index_name (segment.baseOffset s) :=
                      index.mmap (segment.index_ s2)]> (Log.files w))).
    set (lg1 := Log.mk (Log.Dir lg) c (Some (length (Log.mem w)))
                  (Log.segments lg ++ [length (Log.mem w)])).
    assert (Hfiles1 : forall s0, s0 ∈ segs ->
              Log.files w1 !! store_name (segment.baseOffset s0)
              = Some (content (segment.store_ s0))
              /\ Log.files w1 !! index_name (segment.baseOffset s0)
                 = Some (resize (index.size (segment.index_ s0))
                           (index.mmap (segment.index_ s0)))).
    { intros s0 Hs0.
      assert (Hb : segment.baseOffset s <> segment.baseOffset s0).
      { intros Heq. apply Hbn. rewrite Heq. apply list_elem_of_fmap.
        exists s0. split; [reflexivity|exact Hs0]. }
      destruct (Hfiles s0 (proj2 (elem_of_cons _ _ _) (or_intror Hs0))) as [H1 H2].
      unfold w1. cbn [Log.files].
      rewrite !lookup_insert_ne
        by (unfold store_name, index_name; intros Heq;
            apply name_same_base in Heq; try reflexivity; contradiction).
      split; assumption. }
    destruct (IH Hnd w1 lg1 eq_refl Hfiles1)
      as (w' & lg' & segs2 & HL & Hmem & HF & Hsegs & Hc' & Hd' & Hdom).
    exists w', lg', (s2 :: segs2).
    split; [exact HL|].
    split; [rewrite Hmem; unfold w1; cbn [Log.mem]; rewrite <- app_assoc; reflexivity|].
    split; [constructor;
              [exact (conj Hok2 (conj Hb2 (conj Hn2 (conj Hc2 HR2))))|exact HF]|].
    split.
    { rewrite Hsegs. unfold lg1, w1. cbn [Log.segments Log.mem length seq].
      rewrite <- app_assoc, length_app. cbn [length app].
      replace (length (Log.mem w) + 1)%nat with (S (length (Log.mem w))) by lia.
      reflexivity. }
    split; [exact Hc'|]. split; [exact Hd'|].
    intros name. rewrite Hdom. unfold w1. cbn [Log.files].
    destruct (decide (name = index_name (segment.baseOffset s))) as [->|Hne].
    + rewrite lookup_insert_eq, Hdi. split; intros _; eexists; reflexivity.
    + rewrite lookup_insert_ne by congruence. reflexivity.
Qed.

Lemma chain_Forall2 (c : Config) (segs segs2 : list segment.t) :
  Forall2 (reopened c) segs segs2 -> chain segs -> chain segs2.
Proof.
  intros HF. induction HF as [|s s2 segs segs2 Hs HF IH]; [trivial|].
  destruct HF as [|s' s2' segs segs2 Hs' HF]; [trivial|].
  cbn [chain]. intros (H1 & H2 & H3).
  destruct Hs as (_ & Hb & Hn & _). destruct Hs' as (_ & Hb' & Hn' & _).
  split; [lia|]. split; [lia|]. apply IH. exact H3.
Qed.

Lemma reopened_ok (c : Config) (segs segs2 : list segment.t) :
  Forall2 (reopened c) segs segs2 -> Forall (seg_ok c) segs2.
Proof.
  induction 1 as [|s s2 segs segs2 (Hok & _) HF IH]; constructor; assumption.
Qed.

Lemma reopened_bases (c : Config) (segs segs2 : list segment.t) :
  Forall2 (reopened c) segs segs2 ->
  segment.baseOffset <$> segs2 = segment.baseOffset <$> segs.
Proof.
  induction 1 as [|s s2 segs segs2 (_ & Hb & _) HF IH]; [reflexivity|].
  cbn [fmap list_fmap]. f_equal; [exact Hb|exact IH].
Qed.

(** [NewLog] on the directory a closed log has left, with the
    configuration of that log: the log is opened with the same
    segments. *)
Lemma NewLog_reopen (w : Log.world) (lg : Log.t) (segs : list segment.t)
    (d : disk) :
  log_ok w lg segs ->
  (forall s, s ∈ segs ->
     d !! store_name (segment.baseOffset s) = Some (content (segment.store_ s))
     /\ d !! index_name (segment.baseOffset s)
        = Some (resize (index.size (segment.index_ s))
                  (index.mmap (segment.index_ s)))) ->
  (forall name,
     is_Some (d !! name)
     <-> exists b, b ∈ segment.baseOffset <$> segs
                   /\ (name = store_name b \/ name = index_name b)) ->
  exists w2 lg2 segs2,
    Log.NewLog (Log.mkWorld [] d) (Log.Dir lg) (Log.Config_ lg) = (w2, lg2, None)
    /\ log_ok w2 lg2 segs2
    /\ Log.mem w2 = segs2
    /\ Log.segments lg2 = seq 0 (length segs)
    /\ Log.Config_ lg2 = Log.Config_ lg
    /\ Log.Dir lg2 = Log.Dir lg
    /\ Forall2 (reopened (Log.Config_ lg)) segs segs2.
Proof.
  intros Hok Hfiles Hdom.
  pose proof (log_ok_bases_NoDup w lg segs Hok) as Hnb.
  destruct Hok as (HF & Hne & Hnd & Hal & Hall & Hch & HM & HS & _).
  set (c := Log.Config_ lg) in *.
  assert (Hcfg : mkConfig
                   (MaxStoreBytes
                      (mkConfig (if MaxStoreBytes c =? 0 then 1024 else MaxStoreBytes c)
                         (MaxIndexBytes c) (InitialOffset c)))
                   (if MaxIndexBytes
                         (mkConfig (if MaxStoreBytes c =? 0 then 1024 else MaxStoreBytes c)
                            (MaxIndexBytes c) (InitialOffset c)) =? 0
                    then 1024
                    else MaxIndexBytes
                           (mkConfig (if MaxStoreBytes c =? 0 then 1024 else MaxStoreBytes c)
                              (MaxIndexBytes c) (InitialOffset c)))
                   (InitialOffset
                      (mkConfig (if MaxStoreBytes c =? 0 then 1024 else MaxStoreBytes c)
                         (MaxIndexBytes c) (InitialOffset c)))
                 = c).
  { cbn [MaxStoreBytes MaxIndexBytes InitialOffset].
    destruct (MaxStoreBytes c =? 0) eqn:E1; [apply Z.eqb_eq in E1; contradiction|].
    destruct (MaxIndexBytes c =? 0) eqn:E2; [apply Z.eqb_eq in E2; lia|].
    destruct c; reflexivity. }
  unfold Log.NewLog. rewrite Hcfg. unfold Log.setup.
  cbn [Log.files].
  fold base_of_name.
  assert (Hsorted : StronglySorted Z.lt (segment.baseOffset <$> segs))
    by (apply chain_sorted; [exact Hch|exact (seg_ok_le _ _ Hall)]).
  assert (Hrange : Forall (fun b => 0 <= b < 2 ^ 64) (segment.baseOffset <$> segs)).
  { apply Forall_fmap. eapply Forall_impl; [exact Hall|].
    intros s [[_ Hb Hle Hr _ _ _] _ _ _ _ _ _]. cbn. lia. }
  change (fun name => ParseUint (TrimSuffix name (Ext name))) with base_of_name.
  rewrite (setup_sorted_bases d _ Hdom Hsorted Hrange).
  destruct (setup_loop_reopen c segs HM Hall Hnb (Log.mkWorld [] d)
              (Log.mk (Log.Dir lg) c None []) eq_refl Hfiles)
    as (w2 & lg2 & segs2 & HL & Hmem & HF2 & Hsegs & Hc2 & Hd2 & Hdom2).
  rewrite HL. cbn [Log.mem Log.segments app length] in Hmem, Hsegs.
  assert (Hlen : length segs2 = length segs)
    by (symmetry; apply (Forall2_length _ _ _ HF2)).
  destruct (Log.segments lg2) as [|q qs] eqn:Esegs.
  { destruct segs as [|s segs]; [contradiction|discriminate]. }
  exists w2, lg2, segs2. split; [reflexivity|].
  assert (Hal2 : active_is_last lg2).
  { apply (setup_loop_active _ _ _ _ _ _
             (eq_refl : active_is_last (Log.mk (Log.Dir lg) c None [])) HL). }
  rewrite <- Esegs in *. clear Esegs q qs.
  split; [|auto].
  split.
  { rewrite Hsegs, <- Hlen.
    apply Forall2_same_length_lookup_2; [rewrite length_seq; reflexivity|].
    intros i q s Hq Hs. apply lookup_seq in Hq as [-> _].
    unfold Log.deref. rewrite Hmem. exact Hs. }
  split; [intros ->; destruct segs; [contradiction|discriminate]|].
  split; [rewrite Hsegs; apply NoDup_seq|].
  split; [exact Hal2|].
  rewrite Hc2.
  split; [exact (reopened_ok c segs segs2 HF2)|].
  split; [exact (chain_Forall2 c segs segs2 HF2 Hch)|].
  split; [exact HM|]. split; [exact HS|].
  intros name. rewrite Hdom2. cbn [Log.files].
  rewrite (reopened_bases c segs segs2 HF2). apply Hdom.
Qed.

Lemma reopened_seg_rel {codec : Codec} (c : Config) (o : Z)
    (segs segs2 : list segment.t) :
  Forall (seg_ok c) segs ->
  Forall2 (reopened c) segs segs2 ->
  Forall2 (seg_rel o eq) segs segs2.
Proof.
  intros Hall HF. induction HF as [|s s2 segs segs2 Hs HF IH]; [constructor|].
  apply Forall_cons in Hall as [Hok Hall].
  constructor; [|exact (IH Hall)].
  destruct Hs as (Hok2 & Hb & Hn & Hc & HR).
  split; [unfold seg_covers; rewrite Hb, Hn; reflexivity|].
  intros _. symmetry. apply segment_Read_same; try assumption.
  - exact (gwf_store _ (sok_wf _ _ Hok)).
  - exact (gwf_store _ (sok_wf _ _ Hok2)).
Qed.

(** X23.  Recovery: a log in working order that is closed and opened
    again with [NewLog], on the same directory with the same
    configuration, comes back with the same segments: it is in working
    order, [LowestOffset] and [HighestOffset] return what they returned
    before the close, every [Read] returns what it returned before the
    close, and the segments have the offsets and the store sizes they
    had, so that appends continue where they stopped. *)
Theorem Log_recovery {codec : Codec} (w w' : Log.world) (lg : Log.t)
    (segs : list segment.t) :
  log_ok w lg segs ->
  Log.Close true w lg = (w', None) ->
  exists w2 lg2 segs2,
    Log.NewLog (Log.mkWorld [] (Log.files w')) (Log.Dir lg) (Log.Config_ lg)
    = (w2, lg2, None)
    /\ log_ok w2 lg2 segs2
    /\ Log.LowestOffset w2 lg2 = Log.LowestOffset w lg
    /\ Log.HighestOffset w2 lg2 = Log.HighestOffset w lg
    /\ Forall2 (fun s s2 =>
                  segment.baseOffset s2 = segment.baseOffset s
                  /\ segment.nextOffset s2 = segment.nextOffset s
                  /\ store.size (segment.store_ s2) = store.size (segment.store_ s))
         segs segs2
    /\ forall o, (Log.Read true w2 lg2 o).2 = (Log.Read true w lg o).2.
Proof.
  intros Hok HC.
  destruct (log_ok_Close w lg segs Hok) as (w0 & HC0 & Hfiles & Hdom & _).
  rewrite HC in HC0. inversion HC0; subst w0; clear HC0.
  destruct (NewLog_reopen w lg segs (Log.files w') Hok Hfiles Hdom)
    as (w2 & lg2 & segs2 & HN & Hok2 & _ & _ & Hc2 & _ & HF2).
  exists w2, lg2, segs2. split; [exact HN|]. split; [exact Hok2|].
  pose proof Hok as (HF & Hne & _ & _ & Hall & _).
  split.
  { destruct HF2 as [|s s2 segs segs2 (_ & Hb & _) HF2]; [contradiction|].
    rewrite (log_ok_LowestOffset w lg s segs Hok).
    rewrite (log_ok_LowestOffset w2 lg2 s2 segs2 Hok2). congruence. }
  split.
  { destruct (exists_last Hne) as (front & seg & ->).
    apply Forall2_app_inv_l in HF2 as (front2 & l2 & _ & Hl2 & ->).
    apply Forall2_cons_inv_l in Hl2 as (seg2 & l2' & (_ & _ & Hn & _) & Hnil & ->).
    apply Forall2_nil_inv_l in Hnil as ->.
    rewrite (log_ok_HighestOffset w lg front seg Hok).
    rewrite (log_ok_HighestOffset w2 lg2 front2 seg2 Hok2). rewrite Hn.
    reflexivity. }
  split.
  { pose proof (reopened_ok _ _ _ HF2) as Hall2.
    clear -HF2 Hall Hall2.
    induction HF2 as [|s s2 segs segs2 (_ & Hb & Hn & Hc & _) HF2 IH];
      [constructor|].
    apply Forall_cons in Hall as [Hs Hall].
    apply Forall_cons in Hall2 as [Hs2 Hall2].
    constructor; [|exact (IH Hall Hall2)].
    split; [exact Hb|]. split; [exact Hn|].
    rewrite <- (len_content _ (gwf_store _ (sok_wf _ _ Hs))).
    rewrite <- (len_content _ (gwf_store _ (sok_wf _ _ Hs2))). congruence. }
  intros o. symmetry.
  apply (Log_Read_rel w w2 o eq lg lg2 (Log.segments lg2) []).
  - reflexivity.
  - destruct Hok2 as (HF' & _).
    apply (reads_rel_of_segs w w2 o eq _ _ _ _ HF HF').
    apply (reopened_seg_rel _ o _ _ Hall HF2).
  - symmetry. apply app_nil_r.
  - intros q Hq. apply elem_of_nil in Hq. contradiction.
Qed.

(** ** Reading the whole log *)









(** ** Further properties of single operations *)

(** X25.  An append touches the active segment only: whatever the
    device does and whatever the outcome, every other segment that was
    allocated is left as it was. *)
Theorem Log_Append_touches_active_only {codec : Codec} (dl dd : bool)
    (w w' : Log.world) (lg lg' : Log.t) (r r' : api.Record_)
    (res : Z * option error) (p q : Log.ptr) :
  Log.activeSegment lg = Some p ->
  q <> p ->
  (q < length (Log.mem w))%nat ->
  Log.Append dl dd w lg r = (w', lg', r', res) ->
  Log.deref w' q = Log.deref w q.
Proof. exact (Log_Append_only_active dl dd w w' lg lg' r r' res p q). Qed.

(** X26.  [segment.Remove] closes the segment and deletes its two
    files: when it succeeds, neither file is in the directory any more,
    and every other file of the directory is as it was. *)
Theorem segment_Remove_spec (d d' : disk) (s s' : segment.t) :
  segment.Remove true d s = (d', s', None) ->
  d' !! index.Name_ (segment.index_ s) = None
  /\ d' !! store.Name_ (segment.store_ s) = None
  /\ (forall name,
        name <> index.Name_ (segment.index_ s) ->
        name <> store.Name_ (segment.store_ s) ->
        d' !! name = d !! name)
  /\ segment.baseOffset s' = segment.baseOffset s
  /\ segment.nextOffset s' = segment.nextOffset s.
Proof.
  intros HR.
  destruct (segment_Remove_same d s d' s' None HR) as [Hid H].
  destruct (H eq_refl) as (H1 & H2 & H3).
  split; [exact H1|]. split; [exact H2|]. split; [exact H3|].
  unfold ident in Hid. inversion Hid. auto.
Qed.

(** X27.  [HighestOffset] does not tell an empty log from a log that
    holds one record: on a log opened on an empty directory with
    initial offset 0 it returns 0 without an error, and after the first
    append, which returns offset 0, it returns 0 again. *)
Theorem HighestOffset_empty_log {codec : Codec} {laws : CodecLaws codec}
    (dir : string) (c : Config) (w w' : Log.world) (lg lg' : Log.t)
    (r r' : api.Record_) (o : Z) :
  0 <= MaxIndexBytes c <= 12 * 2 ^ 32 ->
  InitialOffset c = 0 ->
  frame_size r 0 < 2 ^ 63 ->
  Log.NewLog (Log.mkWorld [] ∅) dir c = (w, lg, None) ->
  Log.Append true true w lg r = (w', lg', r', (o, None)) ->
  Log.HighestOffset w lg = (0, None)
  /\ o = 0
  /\ Log.HighestOffset w' lg' = (0, None).
Proof.
  intros HM HI Hframe HN HA.
  destruct (NewLog_ok dir c HM ltac:(lia))
    as (w0 & lg0 & seg & HN0 & Hok & _ & _ & _ & _ & _ & Hn & Hs0 & _).
  rewrite HN in HN0. inversion HN0; subst w0 lg0; clear HN0.
  rewrite HI in Hn.
  split.
  { rewrite (log_ok_HighestOffset w lg [] seg Hok), Hn. reflexivity. }
  destruct (log_ok_step w w' lg lg' [] seg r r' o None Hok
              ltac:(lia) ltac:(rewrite Hs0, Hn; lia) HA)
    as (front' & seg' & Hok' & [Ho Hn'] & _).
  split; [lia|].
  rewrite (log_ok_HighestOffset w' lg' front' seg' Hok'), Hn', Hn.
  reflexivity.
Qed.

(** * The further properties at concrete inputs *)

(** X1 at a store of 13 bytes and a one-byte record. *)
Lemma store_roundtrip_witness :
  exists s1,
    store.Append true true run.store1 [x00]
    = (s1, (8 + len [x00], store.size run.store1, None))
    /\ store_wf s1
    /\ (store.Read true s1 (store.size run.store1)).2 = ([x00], None).
Proof.
  apply (store_roundtrip run.store1 [x00]); [closed_wf | closed_arith].
Defined.

(** X2 at the same store: the frame at position 0 after an append. *)
Lemma store_Read_stable_witness :
  (store.Read true (store.Append true true run.store1 [x00]).1 0).2
  = (String.list_byte_of_string "hello", None).
Proof.
  apply (store_Read_stable run.store1 (flushed run.store1)
           (store.Append true true run.store1 [x00]).1 0
           (String.list_byte_of_string "hello") [x00]
           (store.Append true true run.store1 [x00]).2);
    [closed_wf | closed_arith | vm_compute; reflexivity
    | vm_compute; reflexivity].
Defined.



(** X5 at the same store and a one-byte record. *)
Lemma store_ReadAt_frame_witness :
  exists s1 pos,
    store.Append true true run.store1 [x00] = (s1, (8 + len [x00], pos, None))
    /\ (store.ReadAt true s1 lenWidth pos).2 = (enc.PutUint64 (len [x00]), None)
    /\ enc.Uint64 (enc.PutUint64 (len [x00])) = len [x00]
    /\ (store.ReadAt true s1 (len [x00]) (pos + 8)).2 = ([x00], None).
Proof.
  apply (store_ReadAt_frame run.store1 [x00]); [closed_wf | closed_arith].
Defined.


(** X7 at an index of one entry with room for two more. *)
Lemma index_roundtrip_witness :
  exists i',
    index.Write run.index1 1 13 = (i', None)
    /\ index.size i' = 12 * (1 + 1)
    /\ index.Read i' 1 = (1, 13, None)
    /\ index.Read i' (-1) = (1, 13, None).
Proof.
  apply (index_roundtrip run.index1 1 1 13);
    [reflexivity | closed_arith | closed_arith | closed_arith
    | closed_arith | closed_arith].
Defined.

(** X8 at an index whose 12 bytes are in use. *)
Lemma index_Write_full_witness :
  ((index.Write run.index_full 1 13).2 = Some EOF
   <-> len (index.mmap run.index_full) < index.size run.index_full + 12)
  /\ ((index.Write run.index_full 1 13).2 <> Some EOF ->
      (index.Write run.index_full 1 13).2 = None)
  /\ ((index.Write run.index_full 1 13).2 <> None ->
      (index.Write run.index_full 1 13).1 = run.index_full).
Proof.
  apply (index_Write_full run.index_full 1 13); [closed_arith | closed_arith].
Defined.

(** X9 at the index of one entry, reopened with a limit of 36 bytes. *)
Lemma index_Close_reopen_witness :
  exists d' i' d2 i2,
    index.Close (∅ : disk) run.index1 = (d', i', None)
    /\ (exists bytes, d' !! index.Name_ run.index1 = Some bytes
                      /\ len bytes = index.size run.index1)
    /\ (forall name, name <> index.Name_ run.index1 ->
                     d' !! name = (∅ : disk) !! name)
    /\ index.newIndex d' (os.OpenFile d' (index.Name_ run.index1)).2 36
       = (d2, Some i2, None)
    /\ index.size i2 = index.size run.index1
    /\ len (index.mmap i2) = 36
    /\ forall in_, index.Read i2 in_ = index.Read run.index1 in_.
Proof.
  apply (index_Close_reopen ∅ run.index1 36);
    [reflexivity | closed_arith | closed_arith | closed_arith].
Defined.

(** X10 at 17 and 5. *)
Lemma nearestMultiple_spec_witness :
  (5 = 0 -> (segment.nearestMultiple 17 5).2
            = Some (Panic "integer divide by zero"))
  /\ (0 < 5 ->
      exists m, segment.nearestMultiple 17 5 = (m, None)
                /\ m mod 5 = 0 /\ m <= 17 < m + 5).
Proof.
  apply (nearestMultiple_spec 17 5); closed_arith.
Defined.

(** X11 at the segment of one record and the record [hello]. *)
Lemma segment_roundtrip_witness :
  let a := @segment.Append proto.codec true true run.segment1 run.hello in
  1 = segment.nextOffset run.segment1
  /\ segment.nextOffset a.1.1 = 1 + 1
  /\ segment.baseOffset a.1.1 = segment.baseOffset run.segment1
  /\ (@segment.Read proto.codec true a.1.1 1).2
     = (Some (api.mk (api.Value run.hello) 1), None).
Proof.
  apply (@segment_roundtrip proto.codec proto_laws run.segment1
           (@segment.Append proto.codec true true run.segment1 run.hello).1.1
           run.hello
           (@segment.Append proto.codec true true run.segment1 run.hello).1.2
           1).
  - constructor; [closed_wf | closed_arith..].
  - intros bytes HM. vm_compute in HM. apply (inj Some) in HM. subst bytes.
    closed_arith.
  - vm_compute. reflexivity.
Defined.

(** X12 at a segment whose index is full. *)
Lemma segment_Append_index_full_witness :
  let bytes := default [] (@Marshal proto.codec (api.mk (api.Value run.hello) 1)) in
  exists s1,
    @segment.Append proto.codec true true run.segment_full run.hello
    = (s1, api.mk (api.Value run.hello) (segment.nextOffset run.segment_full),
       (0, Some EOF))
    /\ segment.nextOffset s1 = segment.nextOffset run.segment_full
    /\ segment.index_ s1 = segment.index_ run.segment_full
    /\ store.size (segment.store_ s1)
       = store.size (segment.store_ run.segment_full) + 8 + len bytes
    /\ content (segment.store_ s1)
       = content (segment.store_ run.segment_full)
         ++ enc.PutUint64 (len bytes) ++ bytes.
Proof.
  apply (@segment_Append_index_full proto.codec run.segment_full run.hello
           (default [] (@Marshal proto.codec (api.mk (api.Value run.hello) 1)))).
  - constructor; [closed_wf | closed_arith..].
  - vm_compute. reflexivity.
  - closed_arith.
  - closed_arith.
Defined.


(** X14 with the configuration [mapped]. *)
Lemma NewLog_fresh_witness :
  exists w lg seg,
    Log.NewLog (Log.mkWorld [] ∅) "log" run.mapped = (w, lg, None)
    /\ log_ok w lg [seg]
    /\ Log.Dir lg = "log"
    /\ MaxStoreBytes (Log.Config_ lg)
       = (if MaxStoreBytes run.mapped =? 0 then 1024
          else MaxStoreBytes run.mapped)
    /\ MaxIndexBytes (Log.Config_ lg)
       = (if MaxIndexBytes run.mapped =? 0 then 1024
          else MaxIndexBytes run.mapped)
    /\ InitialOffset (Log.Config_ lg) = InitialOffset run.mapped
    /\ segment.baseOffset seg = InitialOffset run.mapped
    /\ segment.nextOffset seg = InitialOffset run.mapped
    /\ store.size (segment.store_ seg) = 0
    /\ Log.LowestOffset w lg = (InitialOffset run.mapped, None)
    /\ Log.files w !! store_name (InitialOffset run.mapped) = Some []
    /\ Log.files w !! index_name (InitialOffset run.mapped)
       = Some (replicate (Z.to_nat (MaxIndexBytes (Log.Config_ lg))) x00).
Proof.
  apply (NewLog_fresh "log" run.mapped); closed_arith.
Defined.

(** ** The states of the concrete runs are in working order *)

Lemma log_ok_single (w : Log.world) (lg : Log.t) (segs : list segment.t)
    (p : Log.ptr) (s : segment.t) :
  log_ok w lg segs ->
  Log.segments lg = [p] -> Log.deref w p = Some s ->
  segs = [s].
Proof.
  intros (HF & _) Hs Hd. rewrite Hs in HF.
  apply Forall2_cons_inv_l in HF as (s' & segs' & Hd' & Hnil & ->).
  apply Forall2_nil_inv_l in Hnil as ->. congruence.
Qed.

Lemma run_w0_ok : log_ok run.w0 run.lg0 [run.seg_w0].
Proof.
  destruct (NewLog_ok "log" run.mapped ltac:(closed_arith) ltac:(closed_arith))
    as (w & lg & seg & HN & Hok & _).
  assert (Hw : w = run.w0) by (unfold run.w0, run.empty; rewrite HN; reflexivity).
  assert (Hl : lg = run.lg0) by (unfold run.lg0, run.empty; rewrite HN; reflexivity).
  subst w lg.
  rewrite (log_ok_single _ _ _ 0%nat run.seg_w0 Hok) in Hok;
    [exact Hok | vm_compute; reflexivity | vm_compute; reflexivity].
Qed.

Lemma run_w1_ok : log_ok run.w1 run.lg1 [run.seg_w1].
Proof.
  destruct (@log_ok_step proto.codec proto_laws run.w0 run.w1 run.lg0 run.lg1
              [] run.seg_w0 run.hello
              (@Log.Append proto.codec true true run.w0 run.lg0 run.hello).1.2
              0 None run_w0_ok ltac:(closed_arith) ltac:(closed_arith)
              ltac:(vm_compute; reflexivity))
    as (front & seg & Hok & _).
  rewrite (log_ok_single _ _ _ 0%nat run.seg_w1 Hok) in Hok;
    [exact Hok | vm_compute; reflexivity | vm_compute; reflexivity].
Qed.

Lemma run_v1_ok : log_ok run.v1 run.vg1 [run.seg_v1].
Proof.
  destruct (NewLog_ok "log" run.odd ltac:(closed_arith) ltac:(closed_arith))
    as (w & lg & seg & HN & Hok & _ & _ & _ & _ & _ & Hn & Hs & _).
  assert (Hw : w = (Log.NewLog run.empty "log" run.odd).1.1)
    by (unfold run.empty; rewrite HN; reflexivity).
  assert (Hl : lg = (Log.NewLog run.empty "log" run.odd).1.2)
    by (unfold run.empty; rewrite HN; reflexivity).
  subst w lg.
  destruct (@log_ok_step proto.codec proto_laws _ run.v1 _ run.vg1
              [] seg run.hello
              (@Log.Append proto.codec true true
                 (Log.NewLog run.empty "log" run.odd).1.1
                 (Log.NewLog run.empty "log" run.odd).1.2 run.hello).1.2
              0 None Hok)
    as (front & seg' & Hok' & _).
  - rewrite Hn. closed_arith.
  - rewrite Hs, Hn. pose proof (frame_size_hello 0).
    change (InitialOffset run.odd) with 0. lia.
  - vm_compute. reflexivity.
  - rewrite (log_ok_single _ _ _ 0%nat run.seg_v1 Hok') in Hok';
      [exact Hok' | vm_compute; reflexivity | vm_compute; reflexivity].
Qed.

Lemma frame_hello (r : api.Record_) (k : Z) (rs : list api.Record_) :
  r ∈ rs -> Forall (fun x => x = run.hello) rs ->
  @frame_size proto.codec r k <= 32.
Proof.
  intros Hr Hall. rewrite Forall_forall in Hall. rewrite (Hall r Hr).
  apply frame_size_hello.
Qed.

(** ** The properties of the log at concrete inputs *)

(** X15: the first append of [hello] to the log of [mapped]. *)
Lemma Log_roundtrip_witness :
  let a := @Log.Append proto.codec true true run.w0 run.lg0 run.hello in
  0 = segment.nextOffset run.seg_w0
  /\ a.1.2 = api.mk (api.Value run.hello) 0
  /\ (@Log.Read proto.codec true a.1.1.1 a.1.1.2 0).2 = (Some a.1.2, None)
  /\ Log.HighestOffset a.1.1.1 a.1.1.2 = (0, None).
Proof.
  apply (@Log_roundtrip proto.codec proto_laws run.w0
           (@Log.Append proto.codec true true run.w0 run.lg0 run.hello).1.1.1
           run.lg0
           (@Log.Append proto.codec true true run.w0 run.lg0 run.hello).1.1.2
           [] run.seg_w0 run.hello
           (@Log.Append proto.codec true true run.w0 run.lg0 run.hello).1.2 0);
    [exact run_w0_ok | closed_arith | closed_arith | vm_compute; reflexivity].
Defined.

(** X16: the record at offset 0 after two more appends, which roll the
    log over to a second segment. *)
Lemma Log_Read_stable_witness :
  (@Log.Read proto.codec true
     (@append_all proto.codec run.w1 run.lg1 [run.hello; run.hello]).1
     (@append_all proto.codec run.w1 run.lg1 [run.hello; run.hello]).2 0).2
  = (Some run.hello, None).
Proof.
  apply (@Log_Read_stable proto.codec proto_laws 32 [run.hello; run.hello]
           run.w1 run.lg1 [] run.seg_w1 0 run.hello None).
  - exact run_w1_ok.
  - intros r k Hr. apply (frame_hello r k _ Hr). repeat constructor.
  - closed_arith.
  - closed_arith.
  - vm_compute. reflexivity.
Defined.

(** X17: the second append of [hello] fills the store of the first
    segment (44 bytes for a limit of 32) and rolls the log over. *)
Lemma Log_Append_rolls_witness :
  let a := @Log.Append proto.codec true true run.w1 run.lg1 run.hello in
  exists seg1,
    (@segment.Append proto.codec true true run.seg_w1 run.hello).1.1 = seg1
    /\ if (MaxStoreBytes (Log.Config_ run.lg1) <=? store.size (segment.store_ seg1))
          || (MaxIndexBytes (Log.Config_ run.lg1) <=? index.size (segment.index_ seg1))
       then exists segn p,
              log_ok a.1.1.1 a.1.1.2 ([] ++ [seg1; segn])
              /\ Log.segments a.1.1.2 = Log.segments run.lg1 ++ [p]
              /\ Log.activeSegment a.1.1.2 = Some p
              /\ Log.deref a.1.1.1 p = Some segn
              /\ segment.baseOffset segn = 1 + 1
              /\ segment.nextOffset segn = 1 + 1
              /\ store.size (segment.store_ segn) = 0
              /\ is_Some (Log.files a.1.1.1 !! store_name (1 + 1))
              /\ is_Some (Log.files a.1.1.1 !! index_name (1 + 1))
       else a.1.1.2 = run.lg1 /\ log_ok a.1.1.1 a.1.1.2 ([] ++ [seg1]).
Proof.
  apply (@Log_Append_rolls proto.codec run.w1
           (@Log.Append proto.codec true true run.w1 run.lg1 run.hello).1.1.1
           run.lg1
           (@Log.Append proto.codec true true run.w1 run.lg1 run.hello).1.1.2
           [] run.seg_w1 run.hello
           (@Log.Append proto.codec true true run.w1 run.lg1 run.hello).1.2 1);
    [exact run_w1_ok | closed_arith | closed_arith | vm_compute; reflexivity].
Defined.

(** X18: with an index limit of 16 bytes the index is full after one
    record, and the next two appends fail. *)
Lemma Log_Append_index_full_witness :
  @appends proto.codec run.v1 run.vg1 [run.hello; run.hello]
  = (fun _ => (0, Some EOF)) <$> [run.hello; run.hello]
  /\ (@append_all proto.codec run.v1 run.vg1 [run.hello; run.hello]).2 = run.vg1
  /\ exists seg',
       log_ok (@append_all proto.codec run.v1 run.vg1 [run.hello; run.hello]).1
         run.vg1 ([] ++ [seg'])
       /\ segment.nextOffset seg' = segment.nextOffset run.seg_v1
       /\ segment.index_ seg' = segment.index_ run.seg_v1
       /\ store.size (segment.store_ seg')
          = store.size (segment.store_ run.seg_v1)
            + foldr (fun r acc =>
                       @frame_size proto.codec r (segment.nextOffset run.seg_v1) + acc)
                0 [run.hello; run.hello].
Proof.
  apply (@Log_Append_index_full proto.codec 32
           [run.hello; run.hello]).
  - intros r k Hr. apply (frame_hello r k _ Hr). repeat constructor.
  - exact run_v1_ok.
  - intros r Hr. vm_compute. discriminate.
  - closed_arith.
  - closed_arith.
  - closed_arith.
Defined.

(** X19: three appends of [hello] to the log of [mapped]. *)
Lemma Log_offsets_consecutive_witness :
  offsets (@appends proto.codec run.w0 run.lg0 [run.hello; run.hello; run.hello])
  = seqZ (InitialOffset run.mapped)
      (len (offsets (@appends proto.codec run.w0 run.lg0
                       [run.hello; run.hello; run.hello]))).
Proof.
  apply (@Log_offsets_consecutive proto.codec proto_laws "log" run.mapped 32
           [run.hello; run.hello; run.hello] run.w0 run.lg0).
  - closed_arith.
  - closed_arith.
  - closed_arith.
  - intros r k Hr. apply (frame_hello r k _ Hr). repeat constructor.
  - closed_arith.
  - vm_compute. reflexivity.
Defined.



(** X22: the files of a segment with base offset 7. *)
Lemma segment_names_roundtrip_witness :
  match segment.newSegment (∅ : disk) 7 run.mapped with
  | (d', Some seg, None) =>
      let parse := fun name => ParseUint (TrimSuffix name (Ext name)) in
      parse (store.Name_ (segment.store_ seg)) = 7
      /\ parse (index.Name_ (segment.index_ seg)) = 7
      /\ is_Some (d' !! store.Name_ (segment.store_ seg))
      /\ is_Some (d' !! index.Name_ (segment.index_ seg))
      /\ store.Name_ (segment.store_ seg) <> index.Name_ (segment.index_ seg)
  | _ => False
  end.
Proof.
  destruct (segment.newSegment (∅ : disk) 7 run.mapped) as [[d' [seg|]] [e|]] eqn:E;
    [vm_compute in E; discriminate E
    |apply (segment_names_roundtrip ∅ 7 run.mapped d' seg); [closed_arith|exact E]
    |vm_compute in E; discriminate E
    |vm_compute in E; discriminate E].
Defined.

(** X23: the log that holds one record, closed and opened again. *)
Lemma Log_recovery_witness :
  exists w2 lg2 segs2,
    Log.NewLog (Log.mkWorld [] (Log.files (Log.Close true run.w1 run.lg1).1))
      (Log.Dir run.lg1) (Log.Config_ run.lg1)
    = (w2, lg2, None)
    /\ log_ok w2 lg2 segs2
    /\ Log.LowestOffset w2 lg2 = Log.LowestOffset run.w1 run.lg1
    /\ Log.HighestOffset w2 lg2 = Log.HighestOffset run.w1 run.lg1
    /\ Forall2 (fun s s2 =>
                  segment.baseOffset s2 = segment.baseOffset s
                  /\ segment.nextOffset s2 = segment.nextOffset s
                  /\ store.size (segment.store_ s2) = store.size (segment.store_ s))
         [run.seg_w1] segs2
    /\ forall o, (@Log.Read proto.codec true w2 lg2 o).2
                 = (@Log.Read proto.codec true run.w1 run.lg1 o).2.
Proof.
  apply (@Log_recovery proto.codec run.w1 (Log.Close true run.w1 run.lg1).1 run.lg1
           [run.seg_w1]);
    [exact run_w1_ok | vm_compute; reflexivity].
Defined.


(** X25: an append to the second segment of a log of two leaves the
    first one as it was. *)
Lemma Log_Append_touches_active_only_witness :
  Log.deref (@Log.Append proto.codec true true run.world2 run.log2 run.hello).1.1.1
    0%nat
  = Log.deref run.world2 0%nat.
Proof.
  apply (@Log_Append_touches_active_only proto.codec true true run.world2
           (@Log.Append proto.codec true true run.world2 run.log2 run.hello).1.1.1
           run.log2
           (@Log.Append proto.codec true true run.world2 run.log2 run.hello).1.1.2
           run.hello
           (@Log.Append proto.codec true true run.world2 run.log2 run.hello).1.2
           (@Log.Append proto.codec true true run.world2 run.log2 run.hello).2
           1%nat 0%nat);
    [reflexivity | discriminate | vm_compute; lia | vm_compute; reflexivity].
Defined.

(** X26: removing the segment of one record from a directory that
    holds nothing else. *)
Lemma segment_Remove_spec_witness :
  let d' := (segment.Remove true (∅ : disk) run.segment1).1.1 in
  let s' := (segment.Remove true (∅ : disk) run.segment1).1.2 in
  d' !! index.Name_ (segment.index_ run.segment1) = None
  /\ d' !! store.Name_ (segment.store_ run.segment1) = None
  /\ (forall name,
        name <> index.Name_ (segment.index_ run.segment1) ->
        name <> store.Name_ (segment.store_ run.segment1) ->
        d' !! name = (∅ : disk) !! name)
  /\ segment.baseOffset s' = segment.baseOffset run.segment1
  /\ segment.nextOffset s' = segment.nextOffset run.segment1.
Proof.
  apply (segment_Remove_spec ∅ (segment.Remove true (∅ : disk) run.segment1).1.1
           run.segment1 (segment.Remove true (∅ : disk) run.segment1).1.2).
  vm_compute. reflexivity.
Defined.

(** X27: the log of [mapped], empty and after the first append. *)
Lemma HighestOffset_empty_log_witness :
  Log.HighestOffset run.w0 run.lg0 = (0, None)
  /\ 0 = 0
  /\ Log.HighestOffset run.w1 run.lg1 = (0, None).
Proof.
  apply (@HighestOffset_empty_log proto.codec proto_laws "log" run.mapped
           run.w0 run.w1 run.lg0 run.lg1 run.hello
           (@Log.Append proto.codec true true run.w0 run.lg0 run.hello).1.2 0);
    [closed_arith | reflexivity | closed_arith
    | vm_compute; reflexivity | vm_compute; reflexivity].
Defined.
